(** * gurl: the crawl engine, the result cache, the job store and the
    webhook dispatcher, embedded from the Go sources and checked against the
    specification.

    Go strings are byte strings: they are modelled by [string], one [ascii]
    per byte.  Go [int] and [int64] values are modelled by [Z] with the
    64-bit wrap-around written out where the code does arithmetic on them.
    Maps used as sets ([map[string]bool]) are [gset string]; the Redis key
    space is a [gmap]. *)

From Stdlib Require Import ZArith NArith Ascii String List Bool Lia.
From stdpp Require Import base gmap sets list strings sorting.

Local Open Scope string_scope.
Local Open Scope Z_scope.

(** ** The subset of Go's [strings] package the program calls.

    Case mapping and white space are modelled on ASCII: bytes of value 128
    and above are copied unchanged by [ToLower] and are never white space
    for [TrimSpace]. *)
Module strings.

Definition is_upper (c : ascii) : bool :=
  (("A" <=? c) && (c <=? "Z"))%char.

Definition lower_byte (c : ascii) : ascii :=
  if is_upper c then ascii_of_N (N_of_ascii c + 32)%N else c.

Fixpoint ToLower (s : string) : string :=
  match s with
  | EmptyString => EmptyString
  | String c s' => String (lower_byte c) (ToLower s')
  end.

(** The ASCII white space of [unicode.IsSpace]: tab, line feed, vertical
    tab, form feed, carriage return and space. *)
Definition isSpace (c : ascii) : bool :=
  let n := N_of_ascii c in
  ((9 <=? n) && (n <=? 13) || (n =? 32))%N.

Fixpoint TrimLeftSpace (s : string) : string :=
  match s with
  | EmptyString => EmptyString
  | String c s' => if isSpace c then TrimLeftSpace s' else s
  end.

Fixpoint TrimRightSpace (s : string) : string :=
  match s with
  | EmptyString => EmptyString
  | String c s' =>
      match TrimRightSpace s' with
      | EmptyString => if isSpace c then EmptyString else String c EmptyString
      | t => String c t
      end
  end.

Definition TrimSpace (s : string) : string :=
  TrimRightSpace (TrimLeftSpace s).

Definition HasPrefix (s pre : string) : bool := String.prefix pre s.

(** [s[n:]] for [n <= len(s)]. *)
Fixpoint from (n : nat) (s : string) : string :=
  match n, s with
  | O, _ => s
  | S n', String _ s' => from n' s'
  | S _, EmptyString => EmptyString
  end.

(** [s[:n]] for [n <= len(s)]. *)
Fixpoint upto (n : nat) (s : string) : string :=
  match n, s with
  | O, _ => EmptyString
  | S n', String c s' => String c (upto n' s')
  | S _, EmptyString => EmptyString
  end.

Definition HasSuffix (s suf : string) : bool :=
  (String.length suf <=? String.length s)%nat
  && String.eqb (from (String.length s - String.length suf) s) suf.

Definition TrimSuffix (s suf : string) : string :=
  if HasSuffix s suf then upto (String.length s - String.length suf) s else s.

Fixpoint Contains (s sub : string) : bool :=
  String.prefix sub s
  || match s with
     | EmptyString => false
     | String _ s' => Contains s' sub
     end.

(** [strings.Split(s, sep)] for a separator of one byte. *)
Fixpoint Split (s : string) (sep : ascii) : list string :=
  match s with
  | EmptyString => [EmptyString]
  | String c s' =>
      if Ascii.eqb c sep then EmptyString :: Split s' sep
      else match Split s' sep with
           | [] => [String c EmptyString]
           | p :: ps => String c p :: ps
           end
  end.

(** [strings.Cut(s, sep)] for a separator of one byte: the text before the
    first [sep], the text after it, and whether [sep] occurs. *)
Fixpoint Cut (s : string) (sep : ascii) : string * string * bool :=
  match s with
  | EmptyString => (EmptyString, EmptyString, false)
  | String c s' =>
      if Ascii.eqb c sep then (EmptyString, s', true)
      else let '(b, a, f) := Cut s' sep in (String c b, a, f)
  end.

End strings.

(** ** [net/url]: the parsed form of a URL.

    The fields are those of Go's [url.URL] that the program reads.  [Host]
    is "host" or "host:port", exactly as written (the parser does not change
    its case); [User] is the userinfo, empty when absent. *)
Module url.

Record URL : Type := mkURL {
  Scheme : string;
  User : string;
  Host : string;
  Path : string;
  RawQuery : string;
  Fragment : string
}.

Global Instance URL_eq_dec : EqDecision URL.
Proof. solve_decision. Defined.

End url.
Import url.

(** ** The crawl engine (package [crawler]). *)
Module crawler.

(** What [goquery] exposes of a parsed page: the [content] attribute of the
    first [meta[http-equiv='refresh']] element (empty when there is none),
    the text of [body], and the [href] attribute of every [a[href]] element
    in document order. *)
Record Document : Type := mkDocument {
  metaRefresh : string;
  bodyText : string;
  hrefs : list string
}.

(** An HTTP response: its status code and the outcome of parsing its body
    ([None] when [goquery.NewDocumentFromReader] fails). *)
Record Response : Type := mkResponse {
  StatusCode : Z;
  Body : option Document
}.

(** The collaborators of the engine that live outside the repository:
    [url.URL.String], [url.URL.Parse] (resolution of a reference against a
    base URL, [None] on error), [http.Get] ([None] on a transport error) and
    [emailRegex.FindAllString]. *)
Record Env : Type := mkEnv {
  URL_String : URL -> string;
  URL_Parse : URL -> string -> option URL;
  http_Get : string -> option Response;
  FindAllString : string -> list string
}.

Definition contactKeywords : list string :=
  [ "contact"; "contacto"; "about"; "info"; "acerca"; "informacion"; "información";
    "equipo"; "team"; "nosotros"; "empresa"; "quienes-somos";
    "contact-us"; "about-us"; "team"; "support"; "help"; "reach"; "get-in-touch";
    "who-we-are"; "our-team"; "meet-team"; "staff"; "office"; "headquarters";
    "nous-contacter"; "au-sujet"; "à-propos"; "propos"; "équipe"; "qui-sommes-nous";
    "notre-équipe"; "mentions-legales"; "aide"; "assistance"; "bureau";
    "kontakt"; "kontaktiere"; "kontaktieren"; "über-uns"; "über"; "ueber";
    "impressum"; "team"; "unser-team"; "wir"; "firma"; "unternehmen";
    "hilfe"; "unterstützung"; "büro";
    "contatti"; "chi-siamo"; "su-di-noi"; "squadra"; "team"; "ufficio";
    "informazioni"; "aiuto"; "supporto"; "sede";
    "contato"; "sobre"; "sobre-nos"; "equipe"; "time"; "quem-somos";
    "informacoes"; "ajuda"; "suporte"; "escritorio";
    "staff"; "people"; "directory"; "location"; "address"; "phone"; "email";
    "reach-us"; "get-help"; "customer-service"; "atendimento"; "servicio-cliente" ].

(** The [Crawler] struct.  [baseURL] is a nil pointer until [Crawl] sets
    it. *)
Record Crawler : Type := mkCrawler {
  maxDepth : Z;
  visited : gset string;
  emails : gset string;
  baseURL : option URL
}.

Definition New (maxDepth : Z) : Crawler :=
  {| maxDepth := maxDepth; visited := ∅; emails := ∅; baseURL := None |}.

(** A run of the engine: the crawler and, as ghost state, the calls of
    [http.Get] made so far, oldest first, each with the URL and the depth
    [crawlRecursive] was called with. *)
Record Run : Type := mkRun {
  self : Crawler;
  fetched : list (URL * Z)
}.

(** How a call ends: it returns, the model's recursion budget is used up
    (everything stops there), or the Go code panics. *)
Inductive Outcome : Type :=
  | Returned (r : Run)
  | OutOfFuel (r : Run)
  | Panicked.

Definition andThen (o : Outcome) (k : Run -> Outcome) : Outcome :=
  match o with
  | Returned r => k r
  | OutOfFuel r => OutOfFuel r
  | Panicked => Panicked
  end.

(** [doc.Find(..).Each(f)]: [f] on every element, in order. *)
Fixpoint Each {A : Type} (f : A -> Run -> Outcome) (l : list A) (r : Run) : Outcome :=
  match l with
  | [] => Returned r
  | x :: l' => andThen (f x r) (Each f l')
  end.

Definition min_int64 : Z := - 2 ^ 63.

(** Addition on Go's 64-bit [int]. *)
Definition add_int (a b : Z) : Z :=
  (a + b - min_int64) mod 2 ^ 64 + min_int64.

Definition isContactLink (path : string) : bool :=
  let lowerPath := strings.ToLower path in
  existsb (fun keyword => strings.Contains lowerPath keyword) contactKeywords.

Definition resolveURL (E : Env) (base : URL) (href : string) : option URL :=
  URL_Parse E base href.

Fixpoint parseMetaRefresh_parts (E : Env) (parts : list string) (base : URL) : option URL :=
  match parts with
  | [] => None
  | part :: rest =>
      let part := strings.TrimSpace part in
      if strings.HasPrefix (strings.ToLower part) "url=" then
        let urlStr := strings.TrimSpace (strings.from 4 part) in
        match URL_Parse E base urlStr with
        | Some redirectURL => Some redirectURL
        | None => parseMetaRefresh_parts E rest base
        end
      else parseMetaRefresh_parts E rest base
  end.

Definition parseMetaRefresh (E : Env) (content : string) (base : URL) : option URL :=
  let parts := strings.Split content ";" in
  if (length parts <? 2)%nat then None
  else parseMetaRefresh_parts E (tl parts) base.

Definition addEmails (found : list string) (c : Crawler) : Crawler :=
  {| maxDepth := maxDepth c;
     visited := visited c;
     emails := foldl (fun acc email => {[strings.ToLower email]} ∪ acc) (emails c) found;
     baseURL := baseURL c |}.

Definition markVisited (key : string) (c : Crawler) : Crawler :=
  {| maxDepth := maxDepth c;
     visited := {[key]} ∪ visited c;
     emails := emails c;
     baseURL := baseURL c |}.

(** The body of the closure given to [Each] in [crawlRecursive]; [recurse]
    stands for [c.crawlRecursive]. *)
Definition visitLink (E : Env) (recurse : URL -> Z -> Run -> Outcome)
    (u : URL) (depth : Z) (href : string) (r : Run) : Outcome :=
  match resolveURL E u href with
  | None => Returned r
  | Some nextURL =>
      if isContactLink (Path nextURL) then recurse nextURL depth r
      else recurse nextURL (add_int depth 1) r
  end.

Fixpoint crawlRecursive (E : Env) (fuel : nat) (u : URL) (depth : Z) (r : Run) : Outcome :=
  match fuel with
  | O => OutOfFuel r
  | S fuel' =>
      let c := self r in
      if (depth >? maxDepth c) || bool_decide (URL_String E u ∈ visited c) then Returned r
      else
        match baseURL c with
        | None => Panicked
        | Some base =>
            if negb (String.eqb (Host u) (Host base)) then Returned r
            else
              let r := {| self := markVisited (URL_String E u) c;
                          fetched := fetched r ++ [(u, depth)] |} in
              match http_Get E (URL_String E u) with
              | None => Returned r
              | Some resp =>
                  if negb (StatusCode resp =? 200) then Returned r
                  else
                    match Body resp with
                    | None => Returned r
                    | Some doc =>
                        match
                          (if String.eqb (metaRefresh doc) "" then None
                           else parseMetaRefresh E (metaRefresh doc) u)
                        with
                        | Some redirectURL => crawlRecursive E fuel' redirectURL depth r
                        | None =>
                            let foundEmails := FindAllString E (bodyText doc) in
                            let r := {| self := addEmails foundEmails (self r);
                                        fetched := fetched r |} in
                            Each (visitLink E (crawlRecursive E fuel') u depth) (hrefs doc) r
                        end
                    end
              end
        end
  end.

Definition Crawl (E : Env) (fuel : nat) (c : Crawler) (startURL : URL) : Outcome :=
  let c := {| maxDepth := maxDepth c; visited := visited c;
              emails := emails c; baseURL := Some startURL |} in
  crawlRecursive E fuel startURL 0 {| self := c; fetched := [] |}.

Definition runOf (o : Outcome) : option Run :=
  match o with
  | Returned r | OutOfFuel r => Some r
  | Panicked => None
  end.

(** The run an outcome ends in; the empty run stands in after a panic. *)
Definition finalRun (o : Outcome) : Run :=
  default {| self := New 0; fetched := [] |} (runOf o).

(** The run after the guard of [crawlRecursive] let [u] through: the URL is
    marked visited and [http.Get] is called on it. *)
Definition afterFetch (E : Env) (u : URL) (depth : Z) (r : Run) : Run :=
  {| self := markVisited (URL_String E u) (self r);
     fetched := fetched r ++ [(u, depth)] |}.

(** The page at [u] is fetched with status 200, parses, and declares a meta
    refresh that [parseMetaRefresh] resolves to [target]. *)
Definition redirectsTo (E : Env) (u target : URL) : Prop :=
  exists doc,
    http_Get E (URL_String E u) = Some {| StatusCode := 200; Body := Some doc |} /\
    metaRefresh doc <> "" /\
    parseMetaRefresh E (metaRefresh doc) u = Some target.

(** Each URL of [u :: hops] redirects to the next one. *)
Fixpoint redirectChain (E : Env) (u : URL) (hops : list URL) : Prop :=
  match hops with
  | [] => True
  | v :: rest => redirectsTo E u v /\ redirectChain E v rest
  end.

(** The page at [u] is fetched with status 200, parses to [doc], and declares
    no meta refresh that [parseMetaRefresh] resolves. *)
Definition plainPage (E : Env) (u : URL) (doc : Document) : Prop :=
  http_Get E (URL_String E u) = Some {| StatusCode := 200; Body := Some doc |} /\
  (metaRefresh doc = "" \/ parseMetaRefresh E (metaRefresh doc) u = None).

(** The guard of [crawlRecursive] lets [u] through at [depth]. *)
Definition passesGuard (E : Env) (u : URL) (depth : Z) (r : Run) : Prop :=
  depth <= maxDepth (self r) /\
  (URL_String E u ∉ visited (self r)) /\
  (exists base, baseURL (self r) = Some base /\ Host u = Host base).

(** No URL string is fetched twice, and fetched strings are marked
    visited. *)
Definition distinctFetches (E : Env) (r : Run) : Prop :=
  NoDup (map (fun p => URL_String E (fst p)) (fetched r)) /\
  forall p, p ∈ fetched r -> URL_String E (fst p) ∈ visited (self r).

End crawler.

(** ** [net/url] on plain references.

    A model of [url.Parse], [URL.String] and [URL.Parse] (resolution against
    a base) on the references where the library neither decodes nor encodes
    anything and sets none of [Opaque], [OmitHost] and [ForceQuery]: the
    bytes are ASCII letters, digits and [: / ? # @ . - _ ~ = &]; a scheme is
    followed by [//]; a question mark is followed by a query; the fragment
    has no [#]; a port is made of digits.  [Parse] gives [None] where the
    library reports an error and also outside this set.  It is used to run
    the program on concrete URLs. *)
Module plain.

Definition is_letter (c : ascii) : bool :=
  (("a" <=? c) && (c <=? "z") || ("A" <=? c) && (c <=? "Z"))%char.

Definition is_digit (c : ascii) : bool :=
  (("0" <=? c) && (c <=? "9"))%char.

Definition is_plain (c : ascii) : bool :=
  is_letter c || is_digit c
  || existsb (Ascii.eqb c) (list_ascii_of_string ":/?#@.-_~=&").

Fixpoint all_bytes (p : ascii -> bool) (s : string) : bool :=
  match s with
  | EmptyString => true
  | String c s' => p c && all_bytes p s'
  end.

(** [getScheme]: the scheme and the rest; [None] for a reference that
    starts with a colon. *)
Fixpoint getScheme_from (i : nat) (seen rest whole : string) : option (string * string) :=
  match rest with
  | EmptyString => Some (EmptyString, whole)
  | String c rest' =>
      if is_letter c then getScheme_from (S i) (seen +:+ String c EmptyString) rest' whole
      else if is_digit c || existsb (Ascii.eqb c) (list_ascii_of_string "+-.") then
        match i with
        | O => Some (EmptyString, whole)
        | S _ => getScheme_from (S i) (seen +:+ String c EmptyString) rest' whole
        end
      else if Ascii.eqb c ":" then
        match i with
        | O => None
        | S _ => Some (seen, rest')
        end
      else Some (EmptyString, whole)
  end.

Definition getScheme (rawURL : string) : option (string * string) :=
  getScheme_from 0 EmptyString rawURL rawURL.

(** The text before the last [sep] and the text after it, when [sep]
    occurs. *)
Fixpoint cutLast (s : string) (sep : ascii) : option (string * string) :=
  match s with
  | EmptyString => None
  | String c s' =>
      match cutLast s' sep with
      | Some (b, a) => Some (String c b, a)
      | None => if Ascii.eqb c sep then Some (EmptyString, s') else None
      end
  end.

Definition nonEmpty (s : string) : bool := negb (String.eqb s "").

(** [parseAuthority]: the userinfo and the host, [None] for a port that is
    not made of digits. *)
Definition parseAuthority (authority : string) : option (string * string) :=
  let '(userinfo, host) :=
    match cutLast authority "@" with
    | Some (userinfo, host) => (userinfo, host)
    | None => (EmptyString, authority)
    end in
  match cutLast host ":" with
  | Some (_, port) => if all_bytes is_digit port then Some (userinfo, host) else None
  | None => Some (userinfo, host)
  end.

Definition Parse (rawURL : string) : option URL :=
  if negb (all_bytes is_plain rawURL) then None
  else
    let '(u, frag, _) := strings.Cut rawURL "#" in
    if strings.Contains frag "#" then None
    else
      match getScheme u with
      | None => None
      | Some (scheme, rest) =>
          let scheme := strings.ToLower scheme in
          let '(rest, query, asked) := strings.Cut rest "?" in
          if asked && negb (nonEmpty query) then None
          else if nonEmpty scheme && negb (strings.HasPrefix rest "//") then None
          else if negb (strings.HasPrefix rest "/")
                  && strings.Contains (fst (fst (strings.Cut rest "/"))) ":" then None
          else if (nonEmpty scheme || negb (strings.HasPrefix rest "///"))
                  && strings.HasPrefix rest "//" then
            let '(authority, path, found) := strings.Cut (strings.from 2 rest) "/" in
            let path := if found then String "/" path else EmptyString in
            match parseAuthority authority with
            | None => None
            | Some (user, host) =>
                Some {| Scheme := scheme; User := user; Host := host; Path := path;
                        RawQuery := query; Fragment := frag |}
            end
          else
            Some {| Scheme := scheme; User := EmptyString; Host := EmptyString; Path := rest;
                    RawQuery := query; Fragment := frag |}
      end.

Definition URL_String (u : URL) : string :=
  (if nonEmpty (Scheme u) then Scheme u +:+ ":" else "")
  +:+ (if nonEmpty (Scheme u) || nonEmpty (Host u) || nonEmpty (User u) then
         (if nonEmpty (Host u) || nonEmpty (Path u) || nonEmpty (User u) then "//" else "")
         +:+ (if nonEmpty (User u) then User u +:+ "@" else "")
         +:+ Host u
       else "")
  +:+ (if nonEmpty (Path u) && negb (strings.HasPrefix (Path u) "/") && nonEmpty (Host u)
       then "/" else "")
  +:+ Path u
  +:+ (if nonEmpty (RawQuery u) then "?" +:+ RawQuery u else "")
  +:+ (if nonEmpty (Fragment u) then "#" +:+ Fragment u else "").

(** The loop of [resolvePath] over the elements of the path: [dst] is the
    text written so far, after its leading slash. *)
Fixpoint resolveElems (elems : list string) (dst : string) (first : bool) : string :=
  match elems with
  | [] => dst
  | elem :: rest =>
      if String.eqb elem "." then resolveElems rest dst false
      else if String.eqb elem ".." then
        match cutLast dst "/" with
        | None => resolveElems rest EmptyString true
        | Some (kept, _) => resolveElems rest kept first
        end
      else resolveElems rest (dst +:+ (if first then "" else "/") +:+ elem) false
  end.

Definition resolvePath (base ref : string) : string :=
  let full :=
    if negb (nonEmpty ref) then base
    else if strings.HasPrefix ref "/" then ref
    else match cutLast base "/" with
         | Some (dir, _) => dir +:+ "/" +:+ ref
         | None => ref
         end in
  if negb (nonEmpty full) then EmptyString
  else
    let elems := strings.Split full "/" in
    let dst := resolveElems elems EmptyString true in
    let dst :=
      match last elems with
      | Some elem => if String.eqb elem "." || String.eqb elem ".." then dst +:+ "/" else dst
      | None => dst
      end in
    if strings.HasPrefix dst "/" then dst else String "/" dst.

(** [base.Parse(ref)]: [url.Parse] and then [ResolveReference]. *)
Definition URL_Parse (base : URL) (ref : string) : option URL :=
  match Parse ref with
  | None => None
  | Some r =>
      let scheme := if nonEmpty (Scheme r) then Scheme r else Scheme base in
      if nonEmpty (Scheme r) || nonEmpty (Host r) || nonEmpty (User r) then
        Some {| Scheme := scheme; User := User r; Host := Host r;
                Path := resolvePath (Path r) "";
                RawQuery := RawQuery r; Fragment := Fragment r |}
      else
        let inherit := negb (nonEmpty (Path r)) && negb (nonEmpty (RawQuery r)) in
        Some {| Scheme := scheme; User := User base; Host := Host base;
                Path := resolvePath (Path base) (Path r);
                RawQuery := (if inherit then RawQuery base else RawQuery r);
                Fragment := (if inherit && negb (nonEmpty (Fragment r))
                             then Fragment base else Fragment r) |}
  end.

End plain.

(** ** [crypto/sha256]: SHA-256 (FIPS 180-4) on byte strings, with 32-bit
    words as [N]. *)
Module sha256.
Local Open Scope N_scope.

Definition mask32 : N := 0xffffffff.
Definition add32 (a b : N) : N := N.land (a + b) mask32.
Definition rotr (n x : N) : N :=
  N.lor (N.shiftr x n) (N.land (N.shiftl x (32 - n)) mask32).
Definition not32 (x : N) : N := N.lxor x mask32.

Definition Ch (x y z : N) : N := N.lxor (N.land x y) (N.land (not32 x) z).
Definition Maj (x y z : N) : N :=
  N.lxor (N.lxor (N.land x y) (N.land x z)) (N.land y z).
Definition Sigma0 (x : N) : N := N.lxor (N.lxor (rotr 2 x) (rotr 13 x)) (rotr 22 x).
Definition Sigma1 (x : N) : N := N.lxor (N.lxor (rotr 6 x) (rotr 11 x)) (rotr 25 x).
Definition sigma0 (x : N) : N := N.lxor (N.lxor (rotr 7 x) (rotr 18 x)) (N.shiftr x 3).
Definition sigma1 (x : N) : N := N.lxor (N.lxor (rotr 17 x) (rotr 19 x)) (N.shiftr x 10).

Definition is_prime (n : N) : bool :=
  (1 <? n) && forallb (fun d => negb (n mod N.of_nat d =? 0)) (seq 2 (N.to_nat n - 2)).

(** The first [k] primes, for [k] up to 64. *)
Definition primes (k : nat) : list N :=
  take k (filter (fun n => is_prime n = true) (map N.of_nat (seq 2 310))).

(** The largest [r] below [2 ^ bits] with [r ^ 3 <= x], bit by bit. *)
Fixpoint cube_root (bits : nat) (r x : N) : N :=
  match bits with
  | O => r
  | S bits' =>
      let r' := r + 2 ^ N.of_nat bits' in
      if r' * r' * r' <=? x then cube_root bits' r' x else cube_root bits' r x
  end.

(** The round constants: the first 32 bits of the fractional parts of the
    cube roots of the first 64 primes. *)
Definition K : list N :=
  Eval vm_compute in map (fun p => N.land (cube_root 40 0 (p * 2 ^ 96)) mask32) (primes 64).

(** The initial hash value: the first 32 bits of the fractional parts of the
    square roots of the first 8 primes. *)
Definition H0 : list N :=
  Eval vm_compute in map (fun p => N.land (N.sqrt (p * 2 ^ 64)) mask32) (primes 8).

(** The big-endian bytes of [x], [n] of them. *)
Fixpoint be_bytes (n : nat) (x : N) : list N :=
  match n with
  | O => []
  | S n' => N.land (N.shiftr x (8 * N.of_nat n')) 0xff :: be_bytes n' x
  end.

Definition be_word (bs : list N) : N :=
  fold_left (fun acc b => N.lor (N.shiftl acc 8) b) bs 0.

(** The message followed by the byte 0x80, zero bytes up to 56 modulo 64, and
    the length of the message in bits on 8 bytes. *)
Definition pad (msg : list N) : list N :=
  let len := length msg in
  let zeros := ((64 - (len + 9) mod 64) mod 64)%nat in
  msg ++ [0x80] ++ repeat 0 zeros ++ be_bytes 8 (8 * N.of_nat len).

Fixpoint chunks (fuel size : nat) (l : list N) : list (list N) :=
  match fuel, l with
  | O, _ | _, [] => []
  | S fuel', _ => take size l :: chunks fuel' size (drop size l)
  end.

Fixpoint extend (n : nat) (w : list N) : list N :=
  match n with
  | O => w
  | S n' =>
      let t := length w in
      let x := add32 (add32 (sigma1 (nth (t - 2) w 0)) (nth (t - 7) w 0))
                     (add32 (sigma0 (nth (t - 15) w 0)) (nth (t - 16) w 0)) in
      extend n' (w ++ [x])
  end.

Definition schedule (block : list N) : list N :=
  extend 48 (map be_word (chunks 16 4 block)).

Definition round (s : list N) (kw : N * N) : list N :=
  match s with
  | [a; b; c; d; e; f; g; h] =>
      let t1 := add32 (add32 (add32 h (Sigma1 e)) (add32 (Ch e f g) (fst kw))) (snd kw) in
      let t2 := add32 (Sigma0 a) (Maj a b c) in
      [add32 t1 t2; a; b; c; add32 d t1; e; f; g]
  | _ => s
  end.

Definition compress (h : list N) (block : list N) : list N :=
  let s := fold_left round (combine K (schedule block)) h in
  map (fun p => add32 (fst p) (snd p)) (combine h s).

Definition bytes_of_string (s : string) : list N :=
  map N_of_ascii (list_ascii_of_string s).

(** [sha256.Sum256]: the 32 bytes of the digest. *)
Definition Sum256 (data : string) : list N :=
  let padded := pad (bytes_of_string data) in
  let blocks := chunks (length padded) 64 padded in
  flat_map (be_bytes 4) (fold_left compress blocks H0).

Definition hex_digit (n : N) : ascii :=
  if n <? 10 then ascii_of_N (48 + n) else ascii_of_N (87 + n).

(** The verb [%x] on a byte array: two lower-case hexadecimal digits per
    byte. *)
Fixpoint hex (bs : list N) : string :=
  match bs with
  | [] => EmptyString
  | b :: bs' => String (hex_digit (N.shiftr b 4)) (String (hex_digit (N.land b 15)) (hex bs'))
  end.

End sha256.

(** ** Package [config]: the settings the modelled code reads. *)
Module config.

Record Config : Type := mkConfig {
  MaxDepth : Z;
  DeduplicateEmails : bool;
  CacheEnabled : bool;
  CacheExpirationTime : Z;
  AsyncJobTimeout : Z;
  AsyncWebhookTimeout : Z;
  AsyncWebhookRetries : Z
}.

(** The values [Load] gives when no environment variable is set; durations
    are in nanoseconds. *)
Definition default : Config :=
  {| MaxDepth := 3;
     DeduplicateEmails := true;
     CacheEnabled := true;
     CacheExpirationTime := 12 * 24 * 30 * 3600000000000;
     AsyncJobTimeout := 300 * 1000000000;
     AsyncWebhookTimeout := 10 * 1000000000;
     AsyncWebhookRetries := 3 |}.

End config.

(** ** The result cache (package [cache]). *)
Module cache.

Record CrawlInfo : Type := mkCrawlInfo {
  Depth : Z;
  PagesVisited : Z
}.

Record CachedResult : Type := mkCachedResult {
  Emails : list string;
  Timestamp : Z;
  Info : CrawlInfo
}.

(** The Redis string keys the cache writes.  The JSON text stored under a
    key is represented by the [CachedResult] it encodes, next to the
    expiration it was written with. *)
Record CacheManager : Type := mkCacheManager {
  client : gmap string (CachedResult * Z);
  config : config.Config;
  enabled : bool
}.

(** The normalized URL of [generateKey]: lower-case host, then the path,
    without one trailing slash. *)
Definition normalizedURL (parsedURL : URL) : string :=
  strings.TrimSuffix (strings.ToLower (Host parsedURL) +:+ Path parsedURL) "/".

Definition keyOf (text : string) : string :=
  "crawler:emails:" +:+ sha256.hex (sha256.Sum256 text).

(** [Parse] stands for [url.Parse], [None] when it reports an error. *)
Definition generateKey (Parse : string -> option URL) (rawURL : string) : string :=
  match Parse rawURL with
  | None => keyOf rawURL
  | Some parsedURL => keyOf (normalizedURL parsedURL)
  end.

Definition Get (Parse : string -> option URL) (cm : CacheManager) (rawURL : string)
    : option CachedResult :=
  if negb (enabled cm) then None
  else
    let key := generateKey Parse rawURL in
    match client cm !! key with
    | None => None
    | Some (result, _) => Some result
    end.

(** One iteration of the first loop of [DeduplicateEmails]. *)
Definition insertEmail (emailMap : gset string) (email : string) : gset string :=
  let normalizedEmail := strings.TrimSpace (strings.ToLower email) in
  if negb (String.eqb normalizedEmail "") then {[normalizedEmail]} ∪ emailMap else emailMap.

(** The map of [DeduplicateEmails] after its first loop. *)
Definition emailMap (emails : list string) : gset string :=
  foldl insertEmail ∅ emails.

(** Go ranges over the map in an unspecified order; the sort that follows
    makes the result independent of it. *)
Definition DeduplicateEmails (cfg : config.Config) (emails : list string) : list string :=
  if negb (config.DeduplicateEmails cfg) then emails
  else
    let deduplicatedEmails := elements (emailMap emails) in
    merge_sort String.le deduplicatedEmails.

(** [Set] at time [now]; the error it returns is nil on every path of the
    model, where Redis answers every command. *)
Definition Set_ (Parse : string -> option URL) (cm : CacheManager) (rawURL : string)
    (emails : list string) (depth pagesVisited : Z) (now : Z) : CacheManager :=
  if negb (enabled cm) then cm
  else
    let deduplicatedEmails := DeduplicateEmails (config cm) emails in
    let result := {| Emails := deduplicatedEmails;
                     Timestamp := now;
                     Info := {| Depth := depth; PagesVisited := pagesVisited |} |} in
    let key := generateKey Parse rawURL in
    {| client := <[key := (result, config.CacheExpirationTime (config cm))]> (client cm);
       config := config cm;
       enabled := enabled cm |}.

Definition InvalidateURL (Parse : string -> option URL) (cm : CacheManager) (rawURL : string)
    : CacheManager :=
  if negb (enabled cm) then cm
  else
    {| client := delete (generateKey Parse rawURL) (client cm);
       config := config cm;
       enabled := enabled cm |}.

End cache.

(** ** The job store and the webhook dispatcher (package [jobs]). *)
Module jobs.

Inductive JobStatus : Type :=
  | StatusQueued
  | StatusProcessing
  | StatusCompleted
  | StatusFailed
  | StatusCancelled.

Global Instance JobStatus_eq_dec : EqDecision JobStatus.
Proof. solve_decision. Defined.

(** Times are instants on an integer clock; a nil [*time.Time] is [None]. *)
Record ScanJob : Type := mkScanJob {
  ID : string;
  URL : string;
  WebhookURL : string;
  CallbackID : string;
  Status : JobStatus;
  CreatedAt : Z;
  StartedAt : option Z;
  CompletedAt : option Z;
  CrawlTime : string;
  Error : string;
  Emails : list string;
  PagesVisited : Z
}.

Global Instance ScanJob_eq_dec : EqDecision ScanJob.
Proof. solve_decision. Defined.

Record AsyncScanRequest : Type := mkAsyncScanRequest {
  reqURL : string;
  reqWebhookURL : string;
  reqCallbackID : string
}.

Record WebhookPayload : Type := mkWebhookPayload {
  pJobID : string;
  pCallbackID : string;
  pStatus : JobStatus;
  pURL : string;
  pEmails : list string;
  pCrawlTime : string;
  pPagesVisited : Z;
  pCompletedAt : Z;
  pError : string
}.

Definition JobKeyPrefix : string := "crawler:job:".

(** The Redis data of the store: the job records under
    ["crawler:job:" + id] (the JSON text represented by the [ScanJob] it
    encodes), the list ["crawler:job_queue"], head first, and the set
    ["crawler:active_jobs"].  Every command is answered; the only error is
    [redis.Nil] for a key that is absent.  The 24-hour expiration of the job
    records is not modelled. *)
Record Queue : Type := mkQueue {
  records : gmap string ScanJob;
  queue : list string;
  active : gset string
}.

Inductive result (A : Type) : Type :=
  | Ok (a : A)
  | Err (msg : string).
Arguments Ok {A} a.
Arguments Err {A} msg.

Definition newQueue : Queue := {| records := ∅; queue := []; active := ∅ |}.

(** The assignments the operations make through the job pointer. *)
Definition started (job : ScanJob) (now : Z) : ScanJob :=
  {| ID := ID job; URL := URL job; WebhookURL := WebhookURL job;
     CallbackID := CallbackID job; Status := StatusProcessing;
     CreatedAt := CreatedAt job; StartedAt := Some now;
     CompletedAt := CompletedAt job; CrawlTime := CrawlTime job;
     Error := Error job; Emails := Emails job;
     PagesVisited := PagesVisited job |}.

Definition completed (job : ScanJob) (emails : list string) (pagesVisited : Z)
    (crawlTime : string) (now : Z) : ScanJob :=
  {| ID := ID job; URL := URL job; WebhookURL := WebhookURL job;
     CallbackID := CallbackID job; Status := StatusCompleted;
     CreatedAt := CreatedAt job; StartedAt := StartedAt job;
     CompletedAt := Some now; CrawlTime := crawlTime;
     Error := Error job; Emails := emails;
     PagesVisited := pagesVisited |}.

Definition failedWith (job : ScanJob) (errorMsg : string) (now : Z) : ScanJob :=
  {| ID := ID job; URL := URL job; WebhookURL := WebhookURL job;
     CallbackID := CallbackID job; Status := StatusFailed;
     CreatedAt := CreatedAt job; StartedAt := StartedAt job;
     CompletedAt := Some now; CrawlTime := CrawlTime job;
     Error := errorMsg; Emails := Emails job;
     PagesVisited := PagesVisited job |}.

Definition cancelled (job : ScanJob) (now : Z) : ScanJob :=
  {| ID := ID job; URL := URL job; WebhookURL := WebhookURL job;
     CallbackID := CallbackID job; Status := StatusCancelled;
     CreatedAt := CreatedAt job; StartedAt := StartedAt job;
     CompletedAt := Some now; CrawlTime := CrawlTime job;
     Error := Error job; Emails := Emails job;
     PagesVisited := PagesVisited job |}.

Definition UpdateJob (q : Queue) (job : ScanJob) : Queue :=
  let jobKey := JobKeyPrefix +:+ ID job in
  {| records := <[jobKey := job]> (records q); queue := queue q; active := active q |}.

(** [Enqueue]; [jobID] is the value of [uuid.New().String()]. *)
Definition Enqueue (q : Queue) (req : AsyncScanRequest) (jobID : string) (now : Z)
    : ScanJob * Queue :=
  let job := {| ID := jobID; URL := reqURL req; WebhookURL := reqWebhookURL req;
                CallbackID := reqCallbackID req; Status := StatusQueued; CreatedAt := now;
                StartedAt := None; CompletedAt := None; CrawlTime := ""; Error := "";
                Emails := []; PagesVisited := 0 |} in
  let q := UpdateJob q job in
  let q := {| records := records q; queue := jobID :: queue q; active := active q |} in
  let q := {| records := records q; queue := queue q; active := {[jobID]} ∪ active q |} in
  (job, q).

Definition GetJob (q : Queue) (jobID : string) : result ScanJob :=
  let jobKey := JobKeyPrefix +:+ jobID in
  match records q !! jobKey with
  | None => Err "job not found"
  | Some job => Ok job
  end.

(** [BRPop] on the queue: the last element, or nothing when the list stays
    empty until the timeout. *)
Definition BRPop (q : Queue) : option (string * Queue) :=
  match last (queue q) with
  | None => None
  | Some jobID =>
      Some (jobID, {| records := records q; queue := removelast (queue q); active := active q |})
  end.

Definition Dequeue (q : Queue) (now : Z) : result (option ScanJob) * Queue :=
  match BRPop q with
  | None => (Ok None, q)
  | Some (jobID, q) =>
      match GetJob q jobID with
      | Err msg => (Err ("failed to get job " +:+ jobID +:+ ": " +:+ msg), q)
      | Ok job =>
          let job := started job now in
          (Ok (Some job), UpdateJob q job)
      end
  end.

Definition SRem (q : Queue) (jobID : string) : Queue :=
  {| records := records q; queue := queue q; active := active q ∖ {[jobID]} |}.

(** [LRem] with count 0: every occurrence goes. *)
Definition LRem (q : Queue) (jobID : string) : Queue :=
  {| records := records q;
     queue := filter (fun x => x ≠ jobID) (queue q);
     active := active q |}.

(** [CompleteJob] writes through the caller's pointer: the job as it is
    afterwards is returned next to the store. *)
Definition CompleteJob (q : Queue) (job : ScanJob) (emails : list string)
    (pagesVisited : Z) (crawlTime : string) (now : Z) : ScanJob * Queue :=
  let job := completed job emails pagesVisited crawlTime now in
  (job, SRem (UpdateJob q job) (ID job)).

Definition FailJob (q : Queue) (job : ScanJob) (errorMsg : string) (now : Z)
    : ScanJob * Queue :=
  let job := failedWith job errorMsg now in
  (job, SRem (UpdateJob q job) (ID job)).

Definition CancelJob (q : Queue) (jobID : string) (now : Z) : result unit * Queue :=
  match GetJob q jobID with
  | Err msg => (Err msg, q)
  | Ok job =>
      if bool_decide (Status job = StatusProcessing) then
        (Err "cannot cancel job that is currently processing", q)
      else
        let job := cancelled job now in
        (Ok tt, SRem (LRem (UpdateJob q job) jobID) jobID)
  end.

Definition GetActiveJobs (q : Queue) : gset string := active q.

Definition GetQueueSize (q : Queue) : Z := Z.of_nat (length (queue q)).

(** *** The webhook dispatcher. *)

(** What one [client.Post] gives: a transport error (a timeout included) or
    a response with a status code. *)
Inductive PostResult : Type :=
  | TransportError
  | Response (statusCode : Z).

(** What [sendWebhook] does to the outside, in order. *)
Inductive Event : Type :=
  | Post (attempt : Z) (target : string) (payload : WebhookPayload)
  | Sleep (duration : Z).

(** A worker while it handles one job: the store, the job it holds and, as
    ghost state, the events so far. *)
Record Worker : Type := mkWorker {
  store : Queue;
  held : ScanJob;
  events : list Event
}.

Definition wrap_int64 (x : Z) : Z := (x + 2 ^ 63) mod 2 ^ 64 - 2 ^ 63.

Definition Second : Z := 1000000000.

(** [time.Duration(attempt) * 2 * time.Second], on [int64]. *)
Definition backoff (attempt : Z) : Z :=
  wrap_int64 (wrap_int64 (attempt * 2) * Second).

Definition emit (w : Worker) (e : Event) : Worker :=
  {| store := store w; held := held w; events := events w ++ [e] |}.

(** The loop of [sendWebhook] from [attempt] on; [n] bounds the number of
    iterations.  [attempt++] is reached with [attempt < retries] only. *)
Fixpoint deliver (retries : Z) (endpoint : Z -> PostResult) (payload : WebhookPayload)
    (n : nat) (attempt : Z) (w : Worker) : Worker :=
  match n with
  | O => w
  | S n' =>
      if attempt <=? retries then
        let w := emit w (Post attempt (WebhookURL (held w)) payload) in
        match endpoint attempt with
        | TransportError =>
            if attempt =? retries then w
            else deliver retries endpoint payload n' (attempt + 1) (emit w (Sleep (backoff attempt)))
        | Response statusCode =>
            if (200 <=? statusCode) && (statusCode <? 300) then w
            else if attempt =? retries then w
            else deliver retries endpoint payload n' (attempt + 1) (emit w (Sleep (backoff attempt)))
        end
      else w
  end.

(** [sendWebhook]; [endpoint] tells how the callback URL answers the
    attempt of a given number, [now] is the clock when the payload is
    built. *)
Definition sendWebhook (cfg : config.Config) (endpoint : Z -> PostResult) (now : Z)
    (w : Worker) : Worker :=
  let job := held w in
  if String.eqb (WebhookURL job) "" then w
  else
    let payload := {| pJobID := ID job; pCallbackID := CallbackID job; pStatus := Status job;
                      pURL := URL job; pEmails := Emails job; pCrawlTime := CrawlTime job;
                      pPagesVisited := PagesVisited job; pCompletedAt := now;
                      pError := Error job |} in
    let retries := config.AsyncWebhookRetries cfg in
    deliver retries endpoint payload (Z.to_nat retries) 1 w.

(** A delivery attempt that failed: a transport error or a status outside
    200..299. *)
Definition failed (res : PostResult) : bool :=
  match res with
  | TransportError => true
  | Response statusCode => negb ((200 <=? statusCode) && (statusCode <? 300))
  end.

(** The payload [sendWebhook] builds from [job] at [now]. *)
Definition payloadOf (job : ScanJob) (now : Z) : WebhookPayload :=
  {| pJobID := ID job; pCallbackID := CallbackID job; pStatus := Status job;
     pURL := URL job; pEmails := Emails job; pCrawlTime := CrawlTime job;
     pPagesVisited := PagesVisited job; pCompletedAt := now;
     pError := Error job |}.

Definition posts (es : list Event) : list Z :=
  omap (fun e => match e with Post attempt _ _ => Some attempt | Sleep _ => None end) es.

Definition sleeps (es : list Event) : list Z :=
  omap (fun e => match e with Sleep d => Some d | Post _ _ _ => None end) es.

(** *** One job in a worker. *)

(** The readings of the clock during [processJob]: in [cacheManager.Set],
    in [CompleteJob] or [FailJob], and in [sendWebhook]. *)
Record Instants : Type := mkInstants {
  atSet : Z;
  atFinish : Z;
  atSend : Z
}.

(** [processJob] on the job the worker holds.  [timedOut] tells whether the
    job's deadline has passed when the crawl returns, [crawlTime] is the
    printed duration and [parseError] the text of the error of [url.Parse].
    [None] stands for a crawl that the recursion budget [fuel] of the model
    does not cover. *)
Definition processJob (Parse : string -> option url.URL) (E : crawler.Env) (fuel : nat)
    (cfg : config.Config) (endpoint : Z -> PostResult) (timedOut : bool) (t : Instants)
    (crawlTime parseError : string) (cm : cache.CacheManager) (w : Worker)
    : option (cache.CacheManager * Worker) :=
  let job := held w in
  match cache.Get Parse cm (URL job) with
  | Some cachedResult =>
      let '(job, q) :=
        CompleteJob (store w) job (cache.Emails cachedResult)
          (cache.PagesVisited (cache.Info cachedResult)) crawlTime (atFinish t) in
      Some (cm, sendWebhook cfg endpoint (atSend t)
                  {| store := q; held := job; events := events w |})
  | None =>
      match Parse (URL job) with
      | None =>
          let '(job, q) :=
            FailJob (store w) job ("Invalid URL: " +:+ parseError) (atFinish t) in
          Some (cm, sendWebhook cfg endpoint (atSend t)
                      {| store := q; held := job; events := events w |})
      | Some startURL =>
          let c := crawler.New (config.MaxDepth cfg) in
          match crawler.Crawl E fuel c startURL with
          | crawler.Returned r =>
              let foundEmailsMap := crawler.emails (crawler.self r) in
              if timedOut then
                let '(job, q) := FailJob (store w) job "Job timed out" (atFinish t) in
                Some (cm, sendWebhook cfg endpoint (atSend t)
                            {| store := q; held := job; events := events w |})
              else
                let emailList := elements foundEmailsMap in
                let pages := Z.of_nat (size foundEmailsMap) in
                let cm := cache.Set_ Parse cm (URL job) emailList (config.MaxDepth cfg)
                            pages (atSet t) in
                let deduplicatedEmails := cache.DeduplicateEmails (cache.config cm) emailList in
                let '(job, q) :=
                  CompleteJob (store w) job deduplicatedEmails pages crawlTime (atFinish t) in
                Some (cm, sendWebhook cfg endpoint (atSend t)
                            {| store := q; held := job; events := events w |})
          | _ => None
          end
      end
  end.

(** *** The job store as the handlers and the worker pool drive it. *)

Definition isTerminal (s : JobStatus) : bool :=
  match s with
  | StatusCompleted | StatusFailed | StatusCancelled => true
  | StatusQueued | StatusProcessing => false
  end.

(** The store together with the jobs that workers hold between [Dequeue]
    and [CompleteJob] or [FailJob]. *)
Record System : Type := mkSystem {
  sysQueue : Queue;
  inFlight : list ScanJob
}.

Definition initial : System := {| sysQueue := newQueue; inFlight := [] |}.

(** One operation of the store with its arguments. *)
Inductive Op : Type :=
  | OpEnqueue (req : AsyncScanRequest) (jobID : string) (now : Z)
  | OpDequeue (now : Z)
  | OpCompleteJob (job : ScanJob) (emails : list string) (pagesVisited : Z)
      (crawlTime : string) (now : Z)
  | OpFailJob (job : ScanJob) (errorMsg : string) (now : Z)
  | OpCancelJob (jobID : string) (now : Z)
  | OpUpdateJob (job : ScanJob).

Definition apply (q : Queue) (op : Op) : Queue :=
  match op with
  | OpEnqueue req jobID now => snd (Enqueue q req jobID now)
  | OpDequeue now => snd (Dequeue q now)
  | OpCompleteJob job emails pagesVisited crawlTime now =>
      snd (CompleteJob q job emails pagesVisited crawlTime now)
  | OpFailJob job errorMsg now => snd (FailJob q job errorMsg now)
  | OpCancelJob jobID now => snd (CancelJob q jobID now)
  | OpUpdateJob job => UpdateJob q job
  end.

(** The jobs in flight after [op]: [Dequeue] hands a job to a worker,
    [CompleteJob] and [FailJob] end the worker's hold on it. *)
Definition inFlightAfter (sys : System) (op : Op) : list ScanJob :=
  match op with
  | OpDequeue now =>
      match fst (Dequeue (sysQueue sys) now) with
      | Ok (Some job) => job :: inFlight sys
      | _ => inFlight sys
      end
  | OpCompleteJob job _ _ _ _ | OpFailJob job _ _ =>
      filter (fun j => j ≠ job) (inFlight sys)
  | _ => inFlight sys
  end.

(** The operations as the program issues them: the handlers call [Enqueue]
    (with an identifier that no record has) and [CancelJob]; a worker calls
    [Dequeue] and then, once, [CompleteJob] or [FailJob] on the job it got.
    [UpdateJob] is called by these operations only. *)
Definition issued (sys : System) (op : Op) : Prop :=
  match op with
  | OpEnqueue _ jobID _ => records (sysQueue sys) !! (JobKeyPrefix +:+ jobID) = None
  | OpDequeue _ => True
  | OpCompleteJob job _ _ _ _ | OpFailJob job _ _ => job ∈ inFlight sys
  | OpCancelJob _ _ => True
  | OpUpdateJob _ => False
  end.

Inductive step : System -> Op -> System -> Prop :=
  | step_issued sys op :
      issued sys op ->
      step sys op {| sysQueue := apply (sysQueue sys) op; inFlight := inFlightAfter sys op |}.

Inductive reachable : System -> Prop :=
  | reachable_initial : reachable initial
  | reachable_step sys op sys' : reachable sys -> step sys op sys' -> reachable sys'.


Definition statusOf (q : Queue) (jobID : string) : option JobStatus :=
  Status <$> records q !! (JobKeyPrefix +:+ jobID).

(** What holds of the store and of the jobs in flight in every reachable
    system: a record is stored under its own identifier, the queued
    identifiers are distinct and their records are queued, and a job in
    flight is the processing record of the store. *)
Definition consistent (sys : System) : Prop :=
  (forall key job, records (sysQueue sys) !! key = Some job -> key = JobKeyPrefix +:+ ID job) /\
  NoDup (queue (sysQueue sys)) /\
  (forall jobID, jobID ∈ queue (sysQueue sys) ->
     exists job, records (sysQueue sys) !! (JobKeyPrefix +:+ jobID) = Some job /\
                 Status job = StatusQueued) /\
  (forall job, job ∈ inFlight sys ->
     records (sysQueue sys) !! (JobKeyPrefix +:+ ID job) = Some job /\
     Status job = StatusProcessing).

End jobs.

(** ** A small site and a callback endpoint to run the program on. *)
Module example.
Import crawler.

Definition page (refresh body : string) (links : list string) : Response :=
  {| StatusCode := 200;
     Body := Some {| metaRefresh := refresh; bodyText := body; hrefs := links |} |}.

Definition pages : list (string * Response) :=
  [ ("http://a.com/", page "" "" ["/x"; "/x/"; "/Contact-Us"; "http://b.com/y"; "/gone"]);
    ("http://a.com/x", page "" "write to Bob@A.com today" ["/"; "/deep"]);
    ("http://a.com/x/", page "" "" []);
    ("http://a.com/deep", page "" "" ["/deeper"]);
    ("http://a.com/deeper", page "" "" []);
    ("http://a.com/Contact-Us", page "0; url=/r1" "" ["/never"]);
    ("http://a.com/r1", page "0;URL= /r2 " "" []);
    ("http://a.com/r2", page "5" "Contact: Info@A.com" []);
    ("http://a.com/gone", {| StatusCode := 404; Body := None |});
    ("http://b.com/y", page "" "eve@b.com" []) ].

Fixpoint lookup (key : string) (l : list (string * Response)) : option Response :=
  match l with
  | [] => None
  | (k, v) :: l' => if String.eqb k key then Some v else lookup key l'
  end.

(** The site behind [plain] URLs; as a stand-in for the email pattern, the
    words of the text that contain an at sign. *)
Definition site : Env :=
  {| URL_String := plain.URL_String;
     URL_Parse := plain.URL_Parse;
     http_Get := fun raw => lookup raw pages;
     FindAllString := fun text => filter (fun w => strings.Contains w "@" = true) (String.words text) |}.

Definition at_ (path : string) : URL :=
  {| Scheme := "http"; User := ""; Host := "a.com"; Path := path; RawQuery := ""; Fragment := "" |}.

Definition root : URL := at_ "/".

(** A callback endpoint that answers 500 to every attempt. *)
Definition alwaysFails : Z -> jobs.PostResult := fun _ => jobs.Response 500.

Definition job0 : jobs.ScanJob :=
  {| jobs.ID := "j1"; jobs.URL := "http://a.com/"; jobs.WebhookURL := "http://hooks.example/cb";
     jobs.CallbackID := "cb-7"; jobs.Status := jobs.StatusCompleted; jobs.CreatedAt := 10;
     jobs.StartedAt := Some 20; jobs.CompletedAt := Some 30; jobs.CrawlTime := "1s";
     jobs.Error := ""; jobs.Emails := ["bob@a.com"]; jobs.PagesVisited := 1 |}.

Definition request0 : jobs.AsyncScanRequest :=
  {| jobs.reqURL := "http://a.com/"; jobs.reqWebhookURL := "http://hooks.example/cb";
     jobs.reqCallbackID := "cb-7" |}.

(** An enabled cache with nothing in it. *)
Definition emptyCache (cfg : config.Config) : cache.CacheManager :=
  {| cache.client := ∅; cache.config := cfg; cache.enabled := true |}.


End example.

(** ** Sites with finitely many pages, and where the emails of a crawl come
    from. *)
Module site.
Import crawler.

(** [v] is one of the listed URLs, or it lies off the host of [base] and is
    turned away by the guard of [crawlRecursive]. *)
Definition stays (base : URL) (L : list URL) (v : URL) : bool :=
  bool_decide (v ∈ L) || negb (String.eqb (Host v) (Host base)).

(** The meta refresh target and the links of the page [doc] at [u], as
    [crawlRecursive] resolves them, stay within [L]. *)
Definition linksStay (E : Env) (base : URL) (L : list URL) (u : URL) (doc : Document) : bool :=
  match parseMetaRefresh E (metaRefresh doc) u with
  | Some v => stays base L v
  | None => true
  end
  && forallb (fun href => match URL_Parse E u href with
                          | Some v => stays base L v
                          | None => true
                          end) (hrefs doc).

(** Every page served at a URL of [L] refers, on the host of [base], to URLs
    of [L] only. *)
Definition closedSite (E : Env) (base : URL) (L : list URL) : bool :=
  forallb (fun u => match http_Get E (URL_String E u) with
                    | Some resp =>
                        match Body resp with
                        | Some doc => linksStay E base L u doc
                        | None => true
                        end
                    | None => true
                    end) L.

Definition strings_of (E : Env) (L : list URL) : gset string :=
  list_to_set (map (URL_String E) L).

(** The run [x'] continues [x] on the site: the base URL is [base], what
    was visited stays visited, and the fetches made since are of URLs of
    [L]. *)
Definition extends (base : URL) (L : list URL) (x x' : Run) : Prop :=
  baseURL (self x') = Some base /\
  visited (self x) ⊆ visited (self x') /\
  forall p, p ∈ fetched x' -> p ∈ fetched x \/ fst p ∈ L.

(** [e] is the lower-case form of a match of the email pattern in the text
    of a page that the run fetched on the host of [base] and did not leave by
    a meta refresh. *)
Definition scanned (E : Env) (base : URL) (r : Run) (e : string) : Prop :=
  exists u depth doc x,
    (u, depth) ∈ fetched r /\
    Host u = Host base /\
    plainPage E u doc /\
    In x (FindAllString E (bodyText doc)) /\
    e = strings.ToLower x.

(** What holds of a run between two calls of [crawlRecursive]: the emails
    are those scanned on the pages fetched so far. *)
Definition emailsScanned (E : Env) (base : URL) (r : Run) : Prop :=
  baseURL (self r) = Some base /\
  forall e, e ∈ emails (self r) <-> scanned E base r e.

(** The URLs the pages of [example.site] name on its host. *)
Definition examplePages : list URL :=
  map example.at_
    ["/"; "/x"; "/x/"; "/deep"; "/deeper"; "/Contact-Us"; "/r1"; "/r2"; "/gone"; "/never"].

End site.

(** ** Meta refresh contents of the usual form. *)
Module refresh.



End refresh.

(** ** The rest of the cache: [ClearAll] and [Stats]. *)
Module cacheadmin.
Import cache.

(** The glob pattern ["crawler:emails:*"] of [KEYS]: its only special
    character is the final star, so it matches the keys with that prefix. *)
Definition matchesPattern (key : string) : bool :=
  strings.HasPrefix key "crawler:emails:".

(** [KEYS "crawler:emails:*"]; Redis gives the keys in no particular
    order. *)
Definition Keys (cm : CacheManager) : list string :=
  filter (fun key => matchesPattern key = true) (elements (dom (client cm))).

Definition ClearAll (cm : CacheManager) : CacheManager :=
  if negb (enabled cm) then cm
  else
    let keys := Keys cm in
    if (0 <? length keys)%nat then
      {| client := foldr delete (client cm) keys;
         config := config cm;
         enabled := enabled cm |}
    else cm.

(** The entries ["enabled"] and ["cached_urls"] of the map [Stats] builds;
    ["redis_info"] is the text of the server. *)
Record CacheStats : Type := mkCacheStats {
  stats_enabled : bool;
  cached_urls : option Z
}.

Definition Stats (cm : CacheManager) : CacheStats :=
  {| stats_enabled := enabled cm;
     cached_urls := if negb (enabled cm) then None
                    else Some (Z.of_nat (length (Keys cm))) |}.

(** The digits of the verb [%x]. *)
Definition isHexDigit (c : ascii) : bool :=
  (("0" <=? c) && (c <=? "9") || ("a" <=? c) && (c <=? "f"))%char.

(** A cache that holds one scan. *)
Definition cache1 : CacheManager :=
  Set_ plain.Parse (example.emptyCache config.default) "http://a.com/" ["bob@a.com"] 3 1 0.

End cacheadmin.

(** ** What the job store reports, and what it keeps track of. *)
Module jobstats.
Import jobs.

(** The map [Stats] builds: the length of the queue, the number of active
    jobs and their identifiers. *)
Record QueueStats : Type := mkQueueStats {
  queue_size : Z;
  active_jobs : Z;
  active_job_ids : gset string
}.

Definition Stats (q : Queue) : QueueStats :=
  {| queue_size := GetQueueSize q;
     active_jobs := Z.of_nat (size (GetActiveJobs q));
     active_job_ids := GetActiveJobs q |}.




(** Two systems to run the store on: after one [Enqueue], and after the
    [Dequeue] that follows. *)
Definition afterEnqueue : System :=
  {| sysQueue := apply newQueue (OpEnqueue example.request0 "j1" 1);
     inFlight := inFlightAfter initial (OpEnqueue example.request0 "j1" 1) |}.

Definition afterDequeue : System :=
  {| sysQueue := apply (sysQueue afterEnqueue) (OpDequeue 2);
     inFlight := inFlightAfter afterEnqueue (OpDequeue 2) |}.

End jobstats.

(** ** Runs of the job store. *)
Module jobruns.
Import jobs.


(** The system after the operations [ops], issued one after the other. *)
Inductive run : System -> list Op -> System -> Prop :=
  | run_nil sys : run sys [] sys
  | run_cons sys op sys' ops sys'' :
      step sys op sys' -> run sys' ops sys'' -> run sys (op :: ops) sys''.





End jobruns.

(** ** The events of a delivery, written out. *)
Module dispatch.
Import jobs.

(** [n] attempts that fail, from [attempt] on, each followed by the sleep
    of the loop of [sendWebhook]. *)
Fixpoint failedAttempts (target : string) (payload : WebhookPayload) (n : nat) (attempt : Z)
    : list Event :=
  match n with
  | O => []
  | S n' =>
      Post attempt target payload :: Sleep (backoff attempt)
        :: failedAttempts target payload n' (attempt + 1)
  end.

(** A callback endpoint that answers 503 twice and then 204. *)
Definition thirdTimeLucky : Z -> PostResult :=
  fun attempt => if attempt <? 3 then Response 503 else Response 204.

End dispatch.

(** ** The loop of a worker. *)
Module pool.
Import jobs.


(** Every post among [es] goes to [target] and carries [payload]. *)
Definition allPostsCarry (target : string) (payload : WebhookPayload) (es : list Event) : Prop :=
  forall attempt target' payload',
    Post attempt target' payload' ∈ es -> target' = target /\ payload' = payload.

(** The instants of the example runs. *)
Definition instants0 : Instants := {| atSet := 100; atFinish := 101; atSend := 102 |}.

(** A worker that holds the first job of [jobstats.afterDequeue]. *)
Definition worker0 : Worker :=
  {| store := sysQueue jobstats.afterDequeue;
     held := mkScanJob "j1" "http://a.com/" "http://hooks.example/cb" "cb-7"
               StatusProcessing 1 (Some 2) None "" "" [] 0;
     events := [] |}.

(** The first job of the example, processed on the example site with an
    empty cache; the arguments stand in when the model's budget is short. *)
Definition run0 : cache.CacheManager * Worker :=
  default (example.emptyCache config.default, worker0)
    (processJob plain.Parse example.site 20 config.default example.alwaysFails false
       instants0 "1s" "" (example.emptyCache config.default) worker0).

(** A second job for the same URL, in other letters. *)
Definition worker1 : Worker :=
  {| store := store (snd run0);
     held := mkScanJob "j2" "HTTP://A.com" "http://hooks.example/cb2" ""
               StatusProcessing 200 (Some 201) None "" "" [] 0;
     events := [] |}.

(** The crawl of the example site that [run0] makes. *)
Definition crawl0 : crawler.Run :=
  crawler.finalRun (crawler.Crawl example.site 20 (crawler.New 3) example.root).


End pool.

(** ** The HTTP handlers (package [handler]).

    A handler is given what it reads from the request and returns the status
    code it writes, the value it encodes as the body, and the cache or the
    job store as it leaves them.  Redis answers every command, as in the
    models of the cache and of the job store, so the answers with status 500
    do not occur. *)
Module handler.
Import jobs.

Definition TrimPrefix (s pre : string) : string :=
  if strings.HasPrefix s pre then strings.from (String.length pre) s else s.

(** The URL with ["https://"] put in front unless it starts with
    ["http://"] or ["https://"]. *)
Definition withScheme (queryURL : string) : string :=
  if negb (strings.HasPrefix queryURL "http://") && negb (strings.HasPrefix queryURL "https://")
  then "https://" +:+ queryURL
  else queryURL.

Record ScanResponse : Type := mkScanResponse {
  Emails : list string;
  Error : string;
  FromCache : bool;
  CrawlTime : string
}.

Definition scanError (msg : string) : ScanResponse :=
  {| Emails := []; Error := msg; FromCache := false; CrawlTime := "" |}.

(** [ScanHandler] on the query parameter [queryURL].  [ranged] is the order
    in which Go ranges over the map of emails, [now] the clock in
    [cacheManager.Set] and [crawlTime] the printed duration.  [None] stands
    for a crawl that the recursion budget [fuel] of the model does not
    cover. *)
Definition ScanHandler (Parse : string -> option url.URL) (E : crawler.Env) (fuel : nat)
    (ranged : gset string -> list string) (cfg : config.Config) (now : Z) (crawlTime : string)
    (cm : cache.CacheManager) (queryURL : string)
    : option (Z * ScanResponse * cache.CacheManager) :=
  if String.eqb queryURL "" then Some (400, scanError "Missing 'url' parameter", cm)
  else
    let queryURL := withScheme queryURL in
    match Parse queryURL with
    | None => Some (400, scanError "Invalid URL provided", cm)
    | Some startURL =>
        if negb (String.eqb (url.Scheme startURL) "http")
           && negb (String.eqb (url.Scheme startURL) "https")
        then Some (400, scanError "Invalid URL provided", cm)
        else
          match cache.Get Parse cm queryURL with
          | Some cachedResult =>
              Some (200, {| Emails := cache.Emails cachedResult; Error := "";
                            FromCache := true; CrawlTime := crawlTime |}, cm)
          | None =>
              let c := crawler.New (config.MaxDepth cfg) in
              match crawler.Crawl E fuel c startURL with
              | crawler.Returned r =>
                  let foundEmailsMap := crawler.emails (crawler.self r) in
                  let emailList := ranged foundEmailsMap in
                  let cm := cache.Set_ Parse cm queryURL emailList (config.MaxDepth cfg)
                              (Z.of_nat (size foundEmailsMap)) now in
                  let deduplicatedEmails :=
                    match cache.Get Parse cm queryURL with
                    | Some cachedResult => cache.Emails cachedResult
                    | None => cache.DeduplicateEmails (cache.config cm) emailList
                    end in
                  Some (200, {| Emails := deduplicatedEmails; Error := "";
                                FromCache := false; CrawlTime := crawlTime |}, cm)
              | _ => None
              end
          end
    end.

(** [InvalidateCacheHandler]: the status code and the cache afterwards. *)
Definition InvalidateCacheHandler (Parse : string -> option url.URL) (method queryURL : string)
    (cm : cache.CacheManager) : Z * cache.CacheManager :=
  if negb (String.eqb method "DELETE") then (405, cm)
  else if String.eqb queryURL "" then (200, cacheadmin.ClearAll cm)
  else (200, cache.InvalidateURL Parse cm queryURL).

(** The body of a request to [AsyncScanHandler]: it cannot be read, it is
    not the JSON of a request, or it decodes. *)
Inductive RequestBody : Type :=
  | Unreadable
  | Malformed
  | Decoded (req : AsyncScanRequest).

Record AsyncScanResponse : Type := mkAsyncScanResponse {
  JobID : string;
  Status : JobStatus;
  EstimatedTime : string;
  WebhookURL : string;
  CheckStatusURL : string
}.

(** [AsyncScanHandler]; [asyncEnabled] is [config.AsyncEnabled], [jobID] the
    identifier [Enqueue] draws.  The reply is the text of the error or the
    response. *)
Definition AsyncScanHandler (Parse : string -> option url.URL) (asyncEnabled : bool)
    (method : string) (body : RequestBody) (jobID : string) (now : Z) (q : Queue)
    : Z * (string + AsyncScanResponse) * Queue :=
  if negb asyncEnabled then (503, inl "Async scanning is disabled", q)
  else if negb (String.eqb method "POST") then (405, inl "Method not allowed. Use POST.", q)
  else
    match body with
    | Unreadable => (400, inl "Failed to read request body", q)
    | Malformed => (400, inl "Invalid JSON format", q)
    | Decoded req =>
        if String.eqb (reqURL req) "" then (400, inl "Missing 'url' field", q)
        else if String.eqb (reqWebhookURL req) "" then (400, inl "Missing 'webhook_url' field", q)
        else
          let req := {| reqURL := withScheme (reqURL req);
                        reqWebhookURL := reqWebhookURL req;
                        reqCallbackID := reqCallbackID req |} in
          match Parse (reqURL req) with
          | None => (400, inl "Invalid URL format", q)
          | Some _ =>
              match Parse (reqWebhookURL req) with
              | None => (400, inl "Invalid webhook_url format", q)
              | Some _ =>
                  let '(job, q) := Enqueue q req jobID now in
                  (202, inr {| JobID := jobs.ID job;
                               Status := jobs.Status job;
                               EstimatedTime := "30-60s";
                               WebhookURL := jobs.WebhookURL job;
                               CheckStatusURL := "/scan/status/" +:+ jobs.ID job |}, q)
              end
          end
    end.

(** [JobStatusHandler] on the path of the request. *)
Definition JobStatusHandler (asyncEnabled : bool) (requestPath : string) (q : Queue)
    : Z * (string + ScanJob) :=
  if negb asyncEnabled then (503, inl "Async scanning is disabled")
  else
    let path := TrimPrefix requestPath "/scan/status/" in
    if String.eqb path "" || String.eqb path requestPath then (400, inl "Missing job ID in path")
    else
      let jobID := path in
      match GetJob q jobID with
      | Err _ => (404, inl "Job not found")
      | Ok job => (200, inr job)
      end.

(** [CancelJobHandler]: the status code, the message or the text of the
    error, and the store afterwards. *)
Definition CancelJobHandler (asyncEnabled : bool) (method requestPath : string) (now : Z)
    (q : Queue) : Z * string * Queue :=
  if negb asyncEnabled then (503, "Async scanning is disabled", q)
  else if negb (String.eqb method "DELETE") then (405, "Method not allowed. Use DELETE.", q)
  else
    let path := TrimPrefix requestPath "/scan/cancel/" in
    if String.eqb path "" || String.eqb path requestPath then (400, "Missing job ID in path", q)
    else
      let jobID := path in
      match CancelJob q jobID now with
      | (Err msg, q) => (400, "Failed to cancel job: " +:+ msg, q)
      | (Ok _, q) => (200, "Job cancelled", q)
      end.

(** The request that [example.request0] decodes from, without a scheme. *)
Definition body0 : RequestBody :=
  Decoded {| reqURL := "a.com/"; reqWebhookURL := "http://hooks.example/cb";
             reqCallbackID := "cb-7" |}.

(** The first scan of the example site through [ScanHandler]; the arguments
    stand in when the model's budget is short. *)
Definition scan0 : Z * ScanResponse * cache.CacheManager :=
  default (0, scanError "", example.emptyCache config.default)
    (ScanHandler plain.Parse example.site 20 elements config.default 100 "1s"
       (example.emptyCache config.default) "http://a.com/").

End handler.

(** * Properties of the crawl engine. *)

Section CrawlInvariants.
Import crawler.
Variable E : Env.

Variable P : Run -> Prop.

Hypothesis P_fetch : forall r u depth base,
  P r ->
  (depth >? maxDepth (self r)) = false ->
  URL_String E u ∉ visited (self r) ->
  baseURL (self r) = Some base ->
  Host u = Host base ->
  P (afterFetch E u depth r).

Hypothesis P_emails : forall r found,
  P r -> P {| self := addEmails found (self r); fetched := fetched r |}.

Lemma Each_preserves {A : Type} (f : A -> Run -> Outcome) (l : list A) :
  (forall x r r', P r -> runOf (f x r) = Some r' -> P r') ->
  forall r r', P r -> runOf (Each f l r) = Some r' -> P r'.
Proof.
  intros Hf. induction l as [|x l IH]; intros r r' HP Hrun; simpl in Hrun.
  - by inversion Hrun; subst.
  - destruct (f x r) as [r1|r1|] eqn:Hx; simpl in Hrun.
    + apply (IH r1); [|done]. apply (Hf x r); [done|]. by rewrite Hx.
    + inversion Hrun; subst. apply (Hf x r); [done|]. by rewrite Hx.
    + done.
Qed.

Lemma visitLink_preserves (recurse : URL -> Z -> Run -> Outcome) u depth :
  (forall v d r r', P r -> runOf (recurse v d r) = Some r' -> P r') ->
  forall href r r', P r -> runOf (visitLink E recurse u depth href r) = Some r' -> P r'.
Proof.
  intros Hrec href r r' HP. unfold visitLink.
  destruct (resolveURL E u href) as [nextURL|]; [|by inversion 1; subst].
  destruct (isContactLink (Path nextURL)); by apply Hrec.
Qed.

Lemma crawlRecursive_preserves fuel :
  forall u depth r r',
    P r -> runOf (crawlRecursive E fuel u depth r) = Some r' -> P r'.
Proof.
  induction fuel as [|fuel IH]; intros u depth r r' HP; simpl.
  - by inversion 1; subst.
  - destruct (depth >? maxDepth (self r)) eqn:Hdepth; simpl; [by inversion 1; subst|].
    case_bool_decide as Hseen; [by inversion 1; subst|].
    destruct (baseURL (self r)) as [base|] eqn:Hbase; [|done].
    destruct (String.eqb (Host u) (Host base)) eqn:Hhost; simpl; [|by inversion 1; subst].
    apply String.eqb_eq in Hhost.
    pose proof (P_fetch r u depth base HP Hdepth Hseen Hbase Hhost) as HP1.
    change (mkRun (markVisited (URL_String E u) (self r)) (fetched r ++ [(u, depth)]))
      with (afterFetch E u depth r).
    destruct (http_Get E (URL_String E u)) as [resp|]; [|by inversion 1; subst].
    destruct (negb (StatusCode resp =? 200)); [by inversion 1; subst|].
    destruct (Body resp) as [doc|]; [|by inversion 1; subst].
    destruct (if String.eqb (metaRefresh doc) "" then None
              else parseMetaRefresh E (metaRefresh doc) u) as [redirectURL|].
    + by apply IH.
    + apply Each_preserves; [|by apply (P_emails (afterFetch E u depth r))].
      intros href. by apply visitLink_preserves.
Qed.

End CrawlInvariants.

Section CrawlFacts.
Import crawler.
Variable E : Env.

Lemma baseURL_preserved fuel u depth r r' :
  runOf (crawlRecursive E fuel u depth r) = Some r' ->
  baseURL (self r') = baseURL (self r) /\ maxDepth (self r') = maxDepth (self r).
Proof.
  apply (crawlRecursive_preserves E
           (fun x => baseURL (self x) = baseURL (self r) /\ maxDepth (self x) = maxDepth (self r)));
    by auto.
Qed.

(** The log of fetches only grows. *)
Lemma fetched_grows fuel u depth r r' :
  runOf (crawlRecursive E fuel u depth r) = Some r' ->
  fetched r `prefix_of` fetched r'.
Proof.
  apply (crawlRecursive_preserves E (fun x => fetched r `prefix_of` fetched x)); [| |done].
  - intros x v d base Hx _ _ _ _. simpl. by apply prefix_app_r.
  - by intros x found Hx.
Qed.

(** With a base URL set, no call panics. *)
Lemma crawlRecursive_no_panic fuel :
  forall u depth r,
    is_Some (baseURL (self r)) -> is_Some (runOf (crawlRecursive E fuel u depth r)).
Proof.
  induction fuel as [|fuel IH]; intros u depth r Hbase; simpl; [by eexists|].
  destruct (depth >? maxDepth (self r)); simpl; [by eexists|].
  case_bool_decide; [by eexists|].
  destruct Hbase as [base Hbase]. rewrite Hbase.
  destruct (negb (String.eqb (Host u) (Host base))); [by eexists|].
  destruct (http_Get E (URL_String E u)) as [resp|]; [|by eexists].
  destruct (negb (StatusCode resp =? 200)); [by eexists|].
  destruct (Body resp) as [doc|]; [|by eexists].
  destruct (if String.eqb (metaRefresh doc) "" then None
            else parseMetaRefresh E (metaRefresh doc) u) as [redirectURL|].
  - apply IH. simpl. by rewrite Hbase.
  - set (r2 := {| self := addEmails _ _; fetched := _ |}).
    assert (Hr2 : is_Some (baseURL (self r2))) by (simpl; by rewrite Hbase).
    clearbody r2. revert r2 Hr2.
    induction (hrefs doc) as [|href l IHl]; intros r2 Hr2; simpl; [by eexists|].
    assert (Hv : is_Some (runOf (visitLink E (crawlRecursive E fuel) u depth href r2))).
    { unfold visitLink. destruct (resolveURL E u href) as [nextURL|]; [|by eexists].
      destruct (isContactLink (Path nextURL)); by apply IH. }
    destruct (visitLink E (crawlRecursive E fuel) u depth href r2) as [r3|r3|] eqn:Hr3;
      simpl; [|by eexists|by destruct Hv].
    apply IHl.
    assert (Hb : baseURL (self r3) = baseURL (self r2)).
    { unfold visitLink in Hr3. destruct (resolveURL E u href) as [nextURL|].
      - destruct (isContactLink (Path nextURL));
          eapply baseURL_preserved; by rewrite Hr3.
      - by inversion Hr3. }
    by rewrite Hb.
Qed.

(** Every fetched URL has the host of the base URL, once earlier fetches
    have it. *)
Lemma fetched_hosts fuel u depth r r' base :
  baseURL (self r) = Some base ->
  (forall v d, (v, d) ∈ fetched r -> Host v = Host base) ->
  runOf (crawlRecursive E fuel u depth r) = Some r' ->
  forall v d, (v, d) ∈ fetched r' -> Host v = Host base.
Proof.
  intros Hbase Hold Hrun.
  refine (proj2 (crawlRecursive_preserves E
    (fun x => baseURL (self x) = Some base /\
              forall v d, (v, d) ∈ fetched x -> Host v = Host base)
    _ _ fuel u depth r r' (conj Hbase Hold) Hrun)).
  - intros x v d b [Hb Hx] _ _ Hb' Hhost. split; [done|].
    intros v' d' [Hin|Hin]%elem_of_app; [by eapply Hx|].
    apply list_elem_of_singleton in Hin. inversion Hin; subst. congruence.
  - by intros x found [Hb Hx].
Qed.

Lemma distinctFetches_preserved fuel u depth r r' :
  distinctFetches E r ->
  runOf (crawlRecursive E fuel u depth r) = Some r' ->
  distinctFetches E r'.
Proof.
  apply (crawlRecursive_preserves E (distinctFetches E)).
  - intros x v d base [Hnd Hvis] _ Hnew _ _. split; simpl.
    + rewrite map_app. apply NoDup_app. split; [done|]. split; [|apply NoDup_singleton].
      intros s Hs Hs'. apply list_elem_of_singleton in Hs'. simpl in Hs'. subst s.
      apply list_elem_of_fmap in Hs as [p [Hp1 Hp2]].
      apply Hnew. rewrite Hp1. by apply Hvis.
    + intros p [Hp|Hp]%elem_of_app.
      * apply elem_of_union_r. by apply Hvis.
      * apply list_elem_of_singleton in Hp. subst. simpl. set_solver.
  - by intros x found [Hnd Hvis].
Qed.

End CrawlFacts.

Section CrawlSteps.
Import crawler.
Variable E : Env.

Lemma passesGuard_unfold fuel u depth r :
  passesGuard E u depth r ->
  crawlRecursive E (S fuel) u depth r =
  let r1 := afterFetch E u depth r in
  match http_Get E (URL_String E u) with
  | None => Returned r1
  | Some resp =>
      if negb (StatusCode resp =? 200) then Returned r1
      else
        match Body resp with
        | None => Returned r1
        | Some doc =>
            match
              (if String.eqb (metaRefresh doc) "" then None
               else parseMetaRefresh E (metaRefresh doc) u)
            with
            | Some redirectURL => crawlRecursive E fuel redirectURL depth r1
            | None =>
                Each (visitLink E (crawlRecursive E fuel) u depth) (hrefs doc)
                  {| self := addEmails (FindAllString E (bodyText doc)) (self r1);
                     fetched := fetched r1 |}
            end
        end
  end.
Proof.
  intros (Hdepth & Hseen & base & Hbase & Hhost). simpl.
  assert ((depth >? maxDepth (self r)) = false) as -> by lia.
  rewrite bool_decide_eq_false_2 by done. simpl.
  rewrite Hbase. apply String.eqb_eq in Hhost. by rewrite Hhost.
Qed.


Lemma rejected_visited fuel u depth r :
  URL_String E u ∈ visited (self r) -> crawlRecursive E (S fuel) u depth r = Returned r.
Proof.
  intros Hv. simpl. rewrite (bool_decide_eq_true_2 _ Hv).
  by destruct (depth >? maxDepth (self r)).
Qed.

Lemma rejected_host fuel u depth r base :
  baseURL (self r) = Some base -> Host u <> Host base ->
  crawlRecursive E (S fuel) u depth r = Returned r.
Proof.
  intros Hbase Hhost. simpl.
  destruct (depth >? maxDepth (self r)); [done|].
  case_bool_decide; [done|]. simpl. rewrite Hbase.
  by apply String.eqb_neq in Hhost as ->.
Qed.

Lemma redirect_step fuel u depth r target :
  passesGuard E u depth r -> redirectsTo E u target ->
  crawlRecursive E (S fuel) u depth r =
  crawlRecursive E fuel target depth (afterFetch E u depth r).
Proof.
  intros Hg (doc & Hget & Hmeta & Hparse).
  rewrite passesGuard_unfold by done. simpl. rewrite Hget. simpl.
  apply String.eqb_neq in Hmeta. by rewrite Hmeta, Hparse.
Qed.

(** A URL that passes the guard is in the log of fetches from then on. *)
Lemma fetch_logged fuel u depth r r' :
  passesGuard E u depth r ->
  runOf (crawlRecursive E (S fuel) u depth r) = Some r' ->
  (u, depth) ∈ fetched r'.
Proof.
  intros Hg. rewrite passesGuard_unfold by done. simpl.
  set (P := fun x : Run => (u, depth) ∈ fetched x).
  assert (HP1 : P (afterFetch E u depth r)).
  { unfold P. simpl. apply elem_of_app. right. by apply list_elem_of_singleton. }
  assert (Hf : forall x v d base, P x -> (d >? maxDepth (self x)) = false ->
             URL_String E v ∉ visited (self x) -> baseURL (self x) = Some base ->
             Host v = Host base -> P (afterFetch E v d x)).
  { intros x v d base Hx _ _ _ _. unfold P in *. simpl. apply elem_of_app. by left. }
  assert (He : forall x found, P x -> P {| self := addEmails found (self x); fetched := fetched x |})
    by done.
  destruct (http_Get E (URL_String E u)) as [resp|]; [|by inversion 1; subst].
  destruct (negb (StatusCode resp =? 200)); [by inversion 1; subst|].
  destruct (Body resp) as [doc|]; [|by inversion 1; subst].
  destruct (if String.eqb (metaRefresh doc) "" then None
            else parseMetaRefresh E (metaRefresh doc) u) as [redirectURL|].
  - by apply (crawlRecursive_preserves E P Hf He).
  - apply (Each_preserves P); [|by apply (He (afterFetch E u depth r))].
    intros href. apply (visitLink_preserves E P).
    apply (crawlRecursive_preserves E P Hf He).
Qed.

Lemma last_cons_default {A : Type} (l : list A) (x d : A) :
  List.last (x :: l) d = List.last l x.
Proof.
  revert x d. induction l as [|y l IH]; intros x d; [done|].
  change (List.last (x :: y :: l) d) with (List.last (y :: l) d).
  by rewrite (IH y d), (IH y x).
Qed.

Lemma redirect_chain_reaches_end base :
  forall hops u depth r fuel,
    baseURL (self r) = Some base ->
    depth <= maxDepth (self r) ->
    redirectChain E u hops ->
    (forall v, v ∈ u :: hops -> Host v = Host base /\ URL_String E v ∉ visited (self r)) ->
    NoDup (map (URL_String E) (u :: hops)) ->
    (length hops < fuel)%nat ->
    exists r', runOf (crawlRecursive E fuel u depth r) = Some r' /\
               (List.last hops u, depth) ∈ fetched r'.
Proof.
  induction hops as [|v rest IH]; intros u depth r fuel Hbase Hdepth Hchain Hok Hnd Hfuel;
    (destruct fuel as [|fuel]; [simpl in Hfuel; lia|]).
  - assert (Hg : passesGuard E u depth r).
    { destruct (Hok u) as [Hh Hv]; [by left|]. repeat split; eauto. }
    destruct (crawlRecursive_no_panic E (S fuel) u depth r) as [r' Hr']; [by eexists|].
    exists r'. split; [done|]. simpl. by eapply fetch_logged.
  - destruct Hchain as [Hredirect Hchain].
    assert (Hg : passesGuard E u depth r).
    { destruct (Hok u) as [Hh Hv]; [by left|]. repeat split; eauto. }
    rewrite (redirect_step fuel u depth r v Hg Hredirect).
    rewrite last_cons_default.
    apply IH; simpl; try done.
    + intros w Hw. destruct (Hok w) as [Hh Hv]; [by right|]. split; [done|].
      apply not_elem_of_union. split; [|done].
      apply not_elem_of_singleton. intros Heq.
      simpl in Hnd. apply NoDup_cons in Hnd as [Hnotin _]. apply Hnotin.
      rewrite <- Heq. change (URL_String E w ∈ URL_String E <$> v :: rest).
      apply list_elem_of_fmap. by exists w.
    + simpl in Hnd. by apply NoDup_cons in Hnd as [_ Hnd].
    + simpl in Hfuel. lia.
Qed.



Lemma Each_more {A : Type} (f g : A -> Run -> Outcome) (l : list A) :
  (forall x r r', f x r = Returned r' -> g x r = Returned r') ->
  forall r r', Each f l r = Returned r' -> Each g l r = Returned r'.
Proof.
  intros Hfg. induction l as [|x l IH]; intros r r'; simpl; [done|].
  destruct (f x r) as [r1|r1|] eqn:Hf; simpl; [|done|done].
  rewrite (Hfg x r r1 Hf). simpl. apply IH.
Qed.

(** A call that returns within a budget returns the same with a larger
    one. *)
Lemma crawlRecursive_more_fuel fuel :
  forall u depth r r',
    crawlRecursive E fuel u depth r = Returned r' ->
    crawlRecursive E (S fuel) u depth r = Returned r'.
Proof.
  induction fuel as [|fuel IH]; intros u depth r r'; [done|].
  intros Hrun. remember (S fuel) as budget eqn:Hbudget.
  simpl. rewrite Hbudget in Hrun. simpl in Hrun.
  destruct ((depth >? maxDepth (self r)) || bool_decide (URL_String E u ∈ visited (self r)));
    [done|].
  destruct (baseURL (self r)) as [base|]; [|done].
  destruct (negb (String.eqb (Host u) (Host base))); [done|].
  destruct (http_Get E (URL_String E u)) as [resp|]; [|done].
  destruct (negb (StatusCode resp =? 200)); [done|].
  destruct (Body resp) as [doc|]; [|done].
  destruct (if String.eqb (metaRefresh doc) "" then None
            else parseMetaRefresh E (metaRefresh doc) u) as [redirectURL|].
  - by apply IH.
  - revert Hrun. apply Each_more. intros href x x'. unfold visitLink.
    destruct (resolveURL E u href) as [nextURL|]; [|done].
    destruct (isContactLink (Path nextURL)); apply IH.
Qed.

Lemma crawlRecursive_enough_fuel fuel extra u depth r r' :
  crawlRecursive E fuel u depth r = Returned r' ->
  crawlRecursive E (extra + fuel) u depth r = Returned r'.
Proof.
  intros Hrun. induction extra as [|extra IH]; [done|].
  by apply crawlRecursive_more_fuel.
Qed.

End CrawlSteps.

(** ** Facts on the string functions. *)
Section StringFacts.

Lemma prefix_spec (p s : string) :
  String.prefix p s = true <-> exists post, s = p +:+ post.
Proof.
  revert s. induction p as [|c p IH]; intros s.
  - split; [by exists s|by destruct s].
  - destruct s as [|c' s]; simpl; [split; [done|by intros [post ?]]|].
    destruct (ascii_dec c c') as [->|Hne].
    + rewrite IH. split; intros [post Hpost]; exists post; [by rewrite Hpost|by inversion Hpost].
    + split; [done|]. intros [post Hpost]. inversion Hpost. by subst.
Qed.


End StringFacts.

(** A decidable goal on concrete data, settled by evaluation. *)
Ltac by_computing :=
  lazymatch goal with
  | |- ?P => apply (bool_decide_eq_true_1 P); vm_compute; reflexivity
  end.

(** ** The claims on the crawl engine. *)
Section CrawlClaims.
Import crawler.

(** C1.  A crawl started at [start] runs without a panic and every URL it
    fetches has the host of [start]; on a candidate with another host
    [crawlRecursive] returns at once, before anything is marked or
    fetched. *)
Theorem crawl_stays_on_start_host (E : Env) (start : URL) :
  (forall fuel c, is_Some (runOf (Crawl E fuel c start))) /\
  (forall fuel c r u depth,
     runOf (Crawl E fuel c start) = Some r ->
     (u, depth) ∈ fetched r ->
     Host u = Host start) /\
  (forall fuel u depth r,
     baseURL (self r) = Some start ->
     Host u <> Host start ->
     crawlRecursive E (S fuel) u depth r = Returned r).
Proof.
  split; [|split].
  - intros fuel c. apply crawlRecursive_no_panic. by eexists.
  - intros fuel c r u depth Hrun Hin.
    unfold Crawl in Hrun.
    eapply (fetched_hosts E) in Hrun; [done|done| |done].
    intros v d Hv. by apply elem_of_nil in Hv.
  - intros fuel u depth r Hbase Hhost. by eapply rejected_host.
Qed.

Lemma crawl_stays_on_start_host_witness :
  Host (example.at_ "/r2") = Host example.root /\
  crawlRecursive example.site 1 (mkURL "http" "" "b.com" "/y" "" "") 1
    {| self := mkCrawler 3 ∅ ∅ (Some example.root); fetched := [] |}
  = Returned {| self := mkCrawler 3 ∅ ∅ (Some example.root); fetched := [] |}.
Proof.
  destruct (crawl_stays_on_start_host example.site example.root) as (_ & Hfetch & Hreject).
  split.
  - apply (Hfetch 10%nat (New 3)
             (finalRun (Crawl example.site 10 (New 3) example.root)) _ 0).
    + vm_compute. reflexivity.
    + by_computing.
  - apply Hreject; [reflexivity|]. simpl. discriminate.
Defined.

(** C2, as the specification states it, fails: the crawl of the example
    site to depth 1 returns after it fetched both [/x] and [/x/], which have
    one normalized URL. *)
Lemma crawl_fetches_one_normalized_url_twice :
  let r := finalRun (Crawl example.site 10 (New 1) example.root) in
  Crawl example.site 10 (New 1) example.root = Returned r /\
  map (fun p => (plain.URL_String (fst p), cache.normalizedURL (fst p), snd p)) (fetched r) =
    [ ("http://a.com/", "a.com", 0);
      ("http://a.com/x", "a.com/x", 1);
      ("http://a.com/x/", "a.com/x", 1);
      ("http://a.com/Contact-Us", "a.com/Contact-Us", 0);
      ("http://a.com/r1", "a.com/r1", 0);
      ("http://a.com/r2", "a.com/r2", 0);
      ("http://a.com/gone", "a.com/gone", 1) ] /\
  ~ NoDup (map (fun p => cache.normalizedURL (fst p)) (fetched r)).
Proof.
  intros r. split; [vm_compute; reflexivity|]. split; [vm_compute; reflexivity|].
  intros Hnd. apply NoDup_ListNoDup in Hnd.
  assert (Heq : map (fun p => cache.normalizedURL (fst p)) (fetched r) =
                ["a.com"; "a.com/x"; "a.com/x"; "a.com/Contact-Us"; "a.com/r1"; "a.com/r2";
                 "a.com/gone"]) by (vm_compute; reflexivity).
  rewrite Heq in Hnd. inversion Hnd as [|? ? _ Hnd']. inversion Hnd' as [|? ? Hx _].
  apply Hx. by left.
Qed.

(** C2, amended.  Within one crawl no two fetched URLs have the same URL
    string (the value of [u.String()], the key of the visited map): on a
    candidate whose string is already marked [crawlRecursive] returns at
    once, before anything is fetched. *)
Theorem crawl_fetches_no_url_string_twice (E : Env) :
  (forall fuel c start r,
     runOf (Crawl E fuel c start) = Some r ->
     NoDup (map (fun p => URL_String E (fst p)) (fetched r))) /\
  (forall fuel u depth r,
     URL_String E u ∈ visited (self r) ->
     crawlRecursive E (S fuel) u depth r = Returned r).
Proof.
  split.
  - intros fuel c start r Hrun. unfold Crawl in Hrun.
    eapply (distinctFetches_preserved E) in Hrun; [by destruct Hrun|].
    split; [apply NoDup_nil_2|]. intros p Hp. by apply elem_of_nil in Hp.
  - intros fuel u depth r Hv. by apply rejected_visited.
Qed.

Lemma crawl_fetches_no_url_string_twice_witness :
  let r := finalRun (Crawl example.site 10 (New 1) example.root) in
  map (fun p => plain.URL_String (fst p)) (fetched r) =
    ["http://a.com/"; "http://a.com/x"; "http://a.com/x/"; "http://a.com/Contact-Us";
     "http://a.com/r1"; "http://a.com/r2"; "http://a.com/gone"] /\
  NoDup (map (fun p => URL_String example.site (fst p)) (fetched r)) /\
  crawlRecursive example.site 1 example.root 1 r = Returned r.
Proof.
  intros r. split; [vm_compute; reflexivity|].
  destruct (crawl_fetches_no_url_string_twice example.site) as [Hnodup Hreject].
  split.
  - apply (Hnodup 10%nat (New 1) example.root). vm_compute. reflexivity.
  - apply Hreject. by_computing.
Defined.

(** C7.  A page that passes the guard at [depth] and declares a meta refresh
    that [parseMetaRefresh] resolves makes [crawlRecursive] continue as the
    call on the target at the same [depth], from the state right after the
    fetch: no email and no link of the page is processed.  Along a chain of
    such redirects between distinct, unvisited URLs of the start host, the
    last page is fetched at the depth of the first. *)
Theorem meta_redirect_keeps_depth (E : Env) :
  (forall fuel u depth r target,
     passesGuard E u depth r ->
     redirectsTo E u target ->
     crawlRecursive E (S fuel) u depth r =
     crawlRecursive E fuel target depth (afterFetch E u depth r)) /\
  (forall base hops u depth r fuel,
     baseURL (self r) = Some base ->
     depth <= maxDepth (self r) ->
     redirectChain E u hops ->
     (forall v, v ∈ u :: hops -> Host v = Host base /\ URL_String E v ∉ visited (self r)) ->
     NoDup (map (URL_String E) (u :: hops)) ->
     (length hops < fuel)%nat ->
     exists r', runOf (crawlRecursive E fuel u depth r) = Some r' /\
                (List.last hops u, depth) ∈ fetched r').
Proof.
  split.
  - intros. by apply redirect_step.
  - intros. by eapply redirect_chain_reaches_end.
Qed.

Lemma meta_redirect_keeps_depth_witness :
  let r0 := {| self := mkCrawler 3 ∅ ∅ (Some example.root); fetched := [] |} in
  crawlRecursive example.site 3 (example.at_ "/Contact-Us") 0 r0 =
  crawlRecursive example.site 2 (example.at_ "/r1") 0
    (afterFetch example.site (example.at_ "/Contact-Us") 0 r0) /\
  exists r', runOf (crawlRecursive example.site 3 (example.at_ "/Contact-Us") 0 r0) = Some r' /\
             (example.at_ "/r2", 0) ∈ fetched r'.
Proof.
  intros r0.
  destruct (meta_redirect_keeps_depth example.site) as [Hstep Hchain].
  assert (H1 : redirectsTo example.site (example.at_ "/Contact-Us") (example.at_ "/r1")).
  { eexists. split; [vm_compute; reflexivity|]. split; [discriminate|vm_compute; reflexivity]. }
  assert (H2 : redirectsTo example.site (example.at_ "/r1") (example.at_ "/r2")).
  { eexists. split; [vm_compute; reflexivity|]. split; [discriminate|vm_compute; reflexivity]. }
  split.
  - apply Hstep; [|exact H1].
    split; [simpl; lia|]. split; [apply not_elem_of_empty|].
    exists example.root. by split.
  - apply (Hchain example.root [example.at_ "/r1"; example.at_ "/r2"]).
    + reflexivity.
    + simpl. lia.
    + simpl. auto.
    + intros v Hv. split.
      * repeat (apply elem_of_cons in Hv as [->|Hv]; [reflexivity|]).
        by apply elem_of_nil in Hv.
      * apply not_elem_of_empty.
    + vm_compute. repeat (apply NoDup_cons; split;
        [intros Hin; repeat (apply elem_of_cons in Hin as [Hin|Hin]; [discriminate|]);
         by apply elem_of_nil in Hin|]).
      apply NoDup_nil_2.
    + simpl. lia.
Defined.



End CrawlClaims.

(** ** Suffixes and case mapping. *)
Section SuffixFacts.

Lemma string_app_cons (c : ascii) (s t : string) : String c s +:+ t = String c (s +:+ t).
Proof. reflexivity. Qed.

Lemma string_app_assoc (s t u : string) : (s +:+ t) +:+ u = s +:+ (t +:+ u).
Proof. induction s as [|c s IH]; [done|]. by rewrite !string_app_cons, IH. Qed.

Lemma string_length_app (s t : string) :
  String.length (s +:+ t) = (String.length s + String.length t)%nat.
Proof. induction s as [|c s IH]; [done|]. rewrite string_app_cons. simpl. by rewrite IH. Qed.

Lemma from_app (m t : string) : strings.from (String.length m) (m +:+ t) = t.
Proof. induction m as [|c m IH]; [done|]. by rewrite string_app_cons. Qed.

Lemma upto_app (m t : string) : strings.upto (String.length m) (m +:+ t) = m.
Proof.
  induction m as [|c m IH]; [by destruct t|]. rewrite string_app_cons. simpl. by rewrite IH.
Qed.

Lemma upto_from (n : nat) (s : string) : strings.upto n s +:+ strings.from n s = s.
Proof.
  revert s. induction n as [|n IH]; intros s; [done|].
  destruct s as [|c s]; [done|]. simpl. by rewrite string_app_cons, IH.
Qed.

Lemma HasSuffix_spec (s suf : string) :
  strings.HasSuffix s suf = true <-> exists m, s = m +:+ suf.
Proof.
  unfold strings.HasSuffix. rewrite andb_true_iff, Nat.leb_le, String.eqb_eq. split.
  - intros [_ Heq]. remember (String.length s - String.length suf)%nat as n eqn:Hn.
    exists (strings.upto n s). clear Hn. subst suf. by rewrite upto_from.
  - intros [m ->]. rewrite string_length_app. split; [lia|].
    replace (String.length m + String.length suf - String.length suf)%nat
      with (String.length m) by lia.
    apply from_app.
Qed.

Lemma TrimSuffix_app (m suf : string) : strings.TrimSuffix (m +:+ suf) suf = m.
Proof.
  unfold strings.TrimSuffix.
  assert (strings.HasSuffix (m +:+ suf) suf = true) as -> by (apply HasSuffix_spec; by exists m).
  rewrite string_length_app.
  replace (String.length m + String.length suf - String.length suf)%nat
    with (String.length m) by lia.
  apply upto_app.
Qed.

Lemma TrimSuffix_none (s suf : string) :
  strings.HasSuffix s suf = false -> strings.TrimSuffix s suf = s.
Proof. unfold strings.TrimSuffix. by intros ->. Qed.

Lemma ToLower_app (s t : string) :
  strings.ToLower (s +:+ t) = strings.ToLower s +:+ strings.ToLower t.
Proof. induction s as [|c s IH]; [done|]. rewrite string_app_cons. simpl. by rewrite IH. Qed.

Lemma lower_byte_slash (c : ascii) : strings.lower_byte c = "/"%char -> c = "/"%char.
Proof. destruct c as [[] [] [] [] [] [] [] []]; by intros H; try discriminate H. Qed.

(** A string whose lower-case form splits in two splits the same way. *)
Lemma ToLower_app_inv (s a b : string) :
  strings.ToLower s = a +:+ b ->
  exists sa sb, s = sa +:+ sb /\ strings.ToLower sa = a /\ strings.ToLower sb = b.
Proof.
  revert s. induction a as [|c a IH]; intros s Heq.
  - by exists "", s.
  - destruct s as [|c' s]; [done|]. rewrite string_app_cons in Heq. simpl in Heq.
    inversion Heq as [[Hc Hs]]. destruct (IH s Hs) as (sa & sb & -> & Ha & Hb).
    exists (String c' sa), sb. simpl. by rewrite Ha.
Qed.

Lemma HasSuffix_slash_ToLower (s : string) :
  strings.HasSuffix (strings.ToLower s) "/" = strings.HasSuffix s "/".
Proof.
  apply eq_true_iff_eq. rewrite !HasSuffix_spec. split.
  - intros [m Hm]. apply ToLower_app_inv in Hm as (sa & sb & -> & _ & Hb).
    exists sa. f_equal. destruct sb as [|c [|c' sb]]; try done.
    simpl in Hb. inversion Hb as [Hc]. by rewrite (lower_byte_slash c Hc).
  - intros [m ->]. exists (strings.ToLower m). by rewrite ToLower_app.
Qed.

End SuffixFacts.

(** * Properties of the result cache. *)
Section CacheFacts.
Import cache.

(** The digests of FIPS 180-4 for the empty message, for one block and for
    two blocks. *)
Example Sum256_empty :
  sha256.hex (sha256.Sum256 "") =
  "e3b0c44298fc1c149afbf4c8996fb92427ae41e4649b934ca495991b7852b855".
Proof. vm_compute. reflexivity. Qed.

Example Sum256_abc :
  sha256.hex (sha256.Sum256 "abc") =
  "ba7816bf8f01cfea414140de5dae2223b00361a396177a9cb410ff61f20015ad".
Proof. vm_compute. reflexivity. Qed.

Example Sum256_two_blocks :
  sha256.hex (sha256.Sum256 "abcdbcdecdefdefgefghfghighijhijkijkljklmklmnlmnomnopnopq") =
  "248d6a61d20638b8e5c026930c3e6039a33ce45964ff2167f6ecedd419db06c1".
Proof. vm_compute. reflexivity. Qed.

Example generateKey_example :
  generateKey plain.Parse "HTTP://Example.com/a/" =
  "crawler:emails:036cbe16b0015b0a30d733ca981c8ebb80535abe46b862bbb67d0affb9331be7".
Proof. vm_compute. reflexivity. Qed.

Lemma elem_of_foldl_insertEmail (emails : list string) :
  forall (acc : gset string) (e : string),
    e ∈ foldl insertEmail acc emails <->
    e ∈ acc \/ (e <> "" /\ exists x, x ∈ emails /\ e = strings.TrimSpace (strings.ToLower x)).
Proof.
  induction emails as [|x emails IH]; intros acc e; simpl.
  - split; [by left|]. intros [?|(_ & y & Hy & _)]; [done|]. by apply elem_of_nil in Hy.
  - rewrite IH. unfold insertEmail at 1.
    destruct (String.eqb (strings.TrimSpace (strings.ToLower x)) "") eqn:Hx; simpl.
    + apply String.eqb_eq in Hx. split.
      * intros [?|(Hne & y & Hy & Heq)]; [by left|]. right. split; [done|].
        exists y. split; [by right|done].
      * intros [?|(Hne & y & Hy & Heq)]; [by left|]. right. split; [done|].
        apply elem_of_cons in Hy as [->|Hy]; [congruence|]. by exists y.
    + apply String.eqb_neq in Hx. rewrite elem_of_union, elem_of_singleton. split.
      * intros [[->|?]|(Hne & y & Hy & Heq)]; [right|by left|right].
        -- split; [done|]. exists x. split; [by left|done].
        -- split; [done|]. exists y. split; [by right|done].
      * intros [?|(Hne & y & Hy & Heq)]; [by left; right|].
        apply elem_of_cons in Hy as [->|Hy]; [by left; left|].
        right. split; [done|]. by exists y.
Qed.

Lemma elem_of_emailMap (emails : list string) (e : string) :
  e ∈ emailMap emails <->
  e <> "" /\ exists x, x ∈ emails /\ e = strings.TrimSpace (strings.ToLower x).
Proof.
  unfold emailMap. rewrite elem_of_foldl_insertEmail. split; [|by right].
  intros [H|H]; [by apply elem_of_empty in H|done].
Qed.


(** Whatever order Go ranges over the map in, the sort gives one list. *)
Lemma DeduplicateEmails_any_order (cfg : config.Config) (emails keys : list string) :
  config.DeduplicateEmails cfg = true ->
  keys ≡ₚ elements (emailMap emails) ->
  merge_sort String.le keys = DeduplicateEmails cfg emails.
Proof.
  intros Hon Hkeys. unfold DeduplicateEmails. rewrite Hon. simpl.
  apply (Sorted_unique String.le); [apply Sorted_merge_sort, _..|].
  by rewrite !merge_sort_Permutation.
Qed.

Lemma DeduplicateEmails_spec (cfg : config.Config) (emails : list string) :
  config.DeduplicateEmails cfg = true ->
  (forall e, e ∈ DeduplicateEmails cfg emails <->
             e <> "" /\ exists x, x ∈ emails /\ e = strings.TrimSpace (strings.ToLower x)) /\
  Sorted String.le (DeduplicateEmails cfg emails) /\
  NoDup (DeduplicateEmails cfg emails).
Proof.
  intros Hon. unfold DeduplicateEmails. rewrite Hon. simpl. split; [|split].
  - intros e. by rewrite merge_sort_Permutation, elem_of_elements, elem_of_emailMap.
  - apply Sorted_merge_sort, _.
  - rewrite merge_sort_Permutation. apply NoDup_elements.
Qed.

Lemma Get_Set_ (Parse : string -> option URL) (cm : CacheManager) (rawURL rawURL' : string)
    (emails : list string) (depth pagesVisited now : Z) :
  enabled cm = true ->
  generateKey Parse rawURL' = generateKey Parse rawURL ->
  Get Parse (Set_ Parse cm rawURL emails depth pagesVisited now) rawURL' =
  Some {| Emails := DeduplicateEmails (config cm) emails;
          Timestamp := now;
          Info := {| Depth := depth; PagesVisited := pagesVisited |} |}.
Proof.
  intros Hon Hkey. unfold Get, Set_. rewrite Hon. simpl. rewrite ?Hon. simpl.
  by rewrite Hkey, lookup_insert_eq.
Qed.

Lemma generateKey_parsed (Parse : string -> option URL) (rawURL : string) (u : URL) :
  Parse rawURL = Some u -> generateKey Parse rawURL = keyOf (normalizedURL u).
Proof. unfold generateKey. by intros ->. Qed.

Lemma normalizedURL_fields (u v : URL) :
  strings.ToLower (Host u) = strings.ToLower (Host v) -> Path u = Path v ->
  normalizedURL u = normalizedURL v.
Proof. unfold normalizedURL. by intros -> ->. Qed.

(** Paths that differ, were it only in case, give normalized URLs that
    differ. *)
Lemma normalizedURL_path_case (u v : URL) :
  strings.ToLower (Host u) = strings.ToLower (Host v) ->
  strings.ToLower (Path u) = strings.ToLower (Path v) ->
  Path u <> Path v ->
  normalizedURL u <> normalizedURL v.
Proof.
  intros Hh Hl Hne. unfold normalizedURL. rewrite Hh.
  set (h := strings.ToLower (Host v)).
  assert (Hsuf : strings.HasSuffix (h +:+ Path u) "/" = strings.HasSuffix (h +:+ Path v) "/").
  { rewrite <- (HasSuffix_slash_ToLower (h +:+ Path u)),
            <- (HasSuffix_slash_ToLower (h +:+ Path v)).
    by rewrite !ToLower_app, Hl. }
  destruct (strings.HasSuffix (h +:+ Path v) "/") eqn:Hv.
  - apply HasSuffix_spec in Hsuf as [mu Hu]. apply HasSuffix_spec in Hv as [mv Hmv].
    rewrite Hu, Hmv, !TrimSuffix_app. intros ->. apply Hne.
    rewrite <- Hmv in Hu. by apply String.app_inj in Hu.
  - rewrite !TrimSuffix_none by done. intros Heq. apply Hne.
    by apply String.app_inj in Heq.
Qed.

End CacheFacts.

(** ** The claims on the result cache. *)
Section CacheClaims.
Import cache.




(** C6, as the specification states it, fails: one more slash after a path
    that ends in a slash changes the key. *)
Lemma cache_key_changes_with_second_trailing_slash :
  exists u1 u2,
    plain.Parse "http://example.com/a/" = Some u1 /\
    plain.Parse "http://example.com/a//" = Some u2 /\
    Host u2 = Host u1 /\
    Path u2 = Path u1 +:+ "/" /\
    generateKey plain.Parse "http://example.com/a/" <>
    generateKey plain.Parse "http://example.com/a//".
Proof.
  do 2 eexists. repeat split; try (vm_compute; reflexivity).
  apply String.eqb_neq. vm_compute. reflexivity.
Qed.

(** C6, amended.  Two URLs that parse get the same key when their hosts are
    equal up to case and their paths are equal, or one path is the other
    followed by one slash and the shorter URL's host-and-path text does not
    itself end in a slash; so do [HTTP://Example.com/a/] and
    [http://example.com/a].  The case of the path is kept: paths that differ
    in case give normalized URLs that differ, and [http://example.com/A] and
    [http://example.com/a] get keys that differ. *)
Theorem cache_key_host_case_and_trailing_slash (Parse : string -> option URL) :
  (forall raw1 raw2 u1 u2,
     Parse raw1 = Some u1 ->
     Parse raw2 = Some u2 ->
     strings.ToLower (Host u1) = strings.ToLower (Host u2) ->
     Path u2 = Path u1 \/
     (Path u2 = Path u1 +:+ "/" /\
      strings.HasSuffix (strings.ToLower (Host u1) +:+ Path u1) "/" = false) ->
     generateKey Parse raw1 = generateKey Parse raw2) /\
  (forall u1 u2,
     strings.ToLower (Host u1) = strings.ToLower (Host u2) ->
     strings.ToLower (Path u1) = strings.ToLower (Path u2) ->
     Path u1 <> Path u2 ->
     normalizedURL u1 <> normalizedURL u2) /\
  generateKey plain.Parse "HTTP://Example.com/a/" =
  generateKey plain.Parse "http://example.com/a" /\
  generateKey plain.Parse "http://example.com/A" <>
  generateKey plain.Parse "http://example.com/a".
Proof.
  split; [|split; [|split]].
  - intros raw1 raw2 u1 u2 H1 H2 Hhost Hpath.
    rewrite (generateKey_parsed Parse raw1 u1 H1), (generateKey_parsed Parse raw2 u2 H2).
    f_equal. destruct Hpath as [Hp|[Hp Hno]].
    + by apply normalizedURL_fields.
    + unfold normalizedURL. rewrite Hp, <- Hhost, <- string_app_assoc, TrimSuffix_app.
      by rewrite TrimSuffix_none.
  - apply normalizedURL_path_case.
  - vm_compute. reflexivity.
  - apply String.eqb_neq. vm_compute. reflexivity.
Qed.

Lemma cache_key_host_case_and_trailing_slash_witness :
  generateKey plain.Parse "http://EXAMPLE.com/a/b" =
  generateKey plain.Parse "https://example.COM/a/b/" /\
  normalizedURL (mkURL "http" "" "example.com" "/Team" "" "") <>
  normalizedURL (mkURL "http" "" "example.com" "/team" "" "").
Proof.
  destruct (cache_key_host_case_and_trailing_slash plain.Parse) as (Hsame & Hcase & _).
  split.
  - eapply Hsame; [vm_compute; reflexivity|vm_compute; reflexivity|vm_compute; reflexivity|].
    right. split; vm_compute; reflexivity.
  - apply Hcase; [reflexivity|vm_compute; reflexivity|]. simpl. discriminate.
Defined.

(** C10.  The key is made from the host and the path of the parsed URL and
    from nothing else: two URLs that parse to the same host and path,
    whatever their scheme, userinfo, query and fragment, get one key, so
    [Get] answers the same for both on every cache, and what [Set] stores
    under one, [Get] returns under the other. *)
Theorem cache_entry_shared_by_host_and_path (Parse : string -> option URL)
    (raw1 raw2 : string) (u1 u2 : URL) :
  Parse raw1 = Some u1 ->
  Parse raw2 = Some u2 ->
  Host u1 = Host u2 ->
  Path u1 = Path u2 ->
  generateKey Parse raw1 = keyOf (strings.TrimSuffix (strings.ToLower (Host u1) +:+ Path u1) "/") /\
  generateKey Parse raw1 = generateKey Parse raw2 /\
  (forall cm, Get Parse cm raw1 = Get Parse cm raw2) /\
  (forall cm emails depth pagesVisited now,
     enabled cm = true ->
     Get Parse (Set_ Parse cm raw1 emails depth pagesVisited now) raw2 =
     Some {| Emails := DeduplicateEmails (config cm) emails;
             Timestamp := now;
             Info := {| Depth := depth; PagesVisited := pagesVisited |} |}).
Proof.
  intros H1 H2 Hhost Hpath.
  assert (Hkey : generateKey Parse raw1 = generateKey Parse raw2).
  { rewrite (generateKey_parsed Parse raw1 u1 H1), (generateKey_parsed Parse raw2 u2 H2).
    f_equal. apply normalizedURL_fields; [by rewrite Hhost|done]. }
  split; [by apply generateKey_parsed|]. split; [done|]. split.
  - intros cm. unfold Get. by rewrite Hkey.
  - intros cm emails depth pagesVisited now Hon. by apply Get_Set_.
Qed.

Lemma cache_entry_shared_by_host_and_path_witness :
  Emails <$> Get plain.Parse
               (Set_ plain.Parse (example.emptyCache config.default) "http://example.com/a"
                  ["a@x.com"] 3 1 0)
               "https://bob@example.com/a?x=1#top"
  = Some ["a@x.com"].
Proof.
  destruct (cache_entry_shared_by_host_and_path plain.Parse
              "http://example.com/a" "https://bob@example.com/a?x=1#top"
              (mkURL "http" "" "example.com" "/a" "" "")
              (mkURL "https" "bob" "example.com" "/a" "x=1" "top")
              eq_refl eq_refl eq_refl eq_refl) as (_ & _ & _ & Hserved).
  rewrite (Hserved (example.emptyCache config.default) ["a@x.com"] 3 1 0 eq_refl).
  vm_compute. reflexivity.
Defined.

End CacheClaims.

(** * Properties of the job store. *)
Section JobFacts.
Import jobs.

Lemma jobKey_inj (a b : string) : JobKeyPrefix +:+ a = JobKeyPrefix +:+ b -> a = b.
Proof. apply String.app_inj. Qed.

Lemma GetJob_Ok (q : Queue) (jobID : string) (job : ScanJob) :
  GetJob q jobID = Ok job <-> records q !! (JobKeyPrefix +:+ jobID) = Some job.
Proof.
  unfold GetJob. destruct (records q !! (JobKeyPrefix +:+ jobID)); split; congruence.
Qed.

Lemma CancelJob_processing (q : Queue) (jobID : string) (job : ScanJob) (now : Z) :
  GetJob q jobID = Ok job -> Status job = StatusProcessing ->
  CancelJob q jobID now = (Err "cannot cancel job that is currently processing", q).
Proof. unfold CancelJob. intros -> ->. by rewrite bool_decide_eq_true_2. Qed.

Lemma CancelJob_other (q : Queue) (jobID : string) (job : ScanJob) (now : Z) :
  GetJob q jobID = Ok job -> Status job <> StatusProcessing ->
  CancelJob q jobID now =
  (Ok tt, SRem (LRem (UpdateJob q (cancelled job now)) jobID) jobID).
Proof. unfold CancelJob. intros -> Hs. by rewrite bool_decide_eq_false_2. Qed.

Lemma CancelJob_missing (q : Queue) (jobID : string) (now : Z) :
  records q !! (JobKeyPrefix +:+ jobID) = None ->
  CancelJob q jobID now = (Err "job not found", q).
Proof. unfold CancelJob, GetJob. by intros ->. Qed.

Lemma consistent_initial : consistent initial.
Proof.
  repeat split; simpl.
  - intros key job H. by rewrite lookup_empty in H.
  - apply NoDup_nil_2.
  - intros jobID H. by apply elem_of_nil in H.
  - by apply elem_of_nil in H.
  - by apply elem_of_nil in H.
Qed.

(** What [Dequeue] does in a consistent system. *)
Lemma Dequeue_consistent (sys : System) (now : Z) :
  consistent sys ->
  (queue (sysQueue sys) = [] /\ Dequeue (sysQueue sys) now = (Ok None, sysQueue sys)) \/
  (exists rest job,
     queue (sysQueue sys) = (rest ++ [ID job])%list /\
     records (sysQueue sys) !! (JobKeyPrefix +:+ ID job) = Some job /\
     Status job = StatusQueued /\
     Dequeue (sysQueue sys) now =
     (Ok (Some (started job now)),
      {| records := <[JobKeyPrefix +:+ ID job := started job now]> (records (sysQueue sys));
         queue := rest;
         active := active (sysQueue sys) |})).
Proof.
  intros (Hkey & Hnd & Hq & Hf). unfold Dequeue, BRPop.
  destruct (last (queue (sysQueue sys))) as [jobID|] eqn:Hlast.
  - right. apply last_Some in Hlast as [rest Hrest].
    destruct (Hq jobID) as (job & Hjob & Hs); [rewrite Hrest; apply elem_of_app; right; by left|].
    pose proof (Hkey _ _ Hjob) as Hid. apply jobKey_inj in Hid. subst jobID.
    exists rest, job. split; [done|]. split; [done|]. split; [done|].
    unfold GetJob. simpl. rewrite Hjob. unfold UpdateJob. simpl.
    by rewrite Hrest, removelast_last.
  - left. apply last_None in Hlast. by rewrite Hlast.
Qed.

Lemma inFlight_distinct (sys : System) (j job : ScanJob) :
  consistent sys -> j ∈ inFlight sys -> job ∈ inFlight sys -> ID j = ID job -> j = job.
Proof.
  intros (_ & _ & _ & Hf) Hj Hjob Hid.
  destruct (Hf j Hj) as [Hrj _]. destruct (Hf job Hjob) as [Hrjob _].
  rewrite Hid in Hrj. congruence.
Qed.

Lemma consistent_update_inFlight (sys : System) (job job' : ScanJob) (act : gset string) :
  consistent sys -> job ∈ inFlight sys -> ID job' = ID job ->
  consistent
    {| sysQueue := {| records := <[JobKeyPrefix +:+ ID job := job']> (records (sysQueue sys));
                      queue := queue (sysQueue sys);
                      active := act |};
       inFlight := filter (fun j => j ≠ job) (inFlight sys) |}.
Proof.
  intros Hc Hin Hid. pose proof Hc as (Hkey & Hnd & Hq & Hf).
  destruct (Hf job Hin) as [Hrec Hproc].
  split; [|split; [done|split]]; simpl.
  - intros key j. rewrite lookup_insert. case_decide as Hk.
    + intros [= <-]. by rewrite Hid.
    + apply Hkey.
  - intros jobID HjobID. destruct (Hq jobID HjobID) as (j & Hj & Hs).
    exists j. split; [|done]. rewrite lookup_insert_ne; [done|].
    intros Heq. apply jobKey_inj in Heq. subst jobID. congruence.
  - intros j [Hne Hj]%list_elem_of_filter. destruct (Hf j Hj) as [Hrj Hsj].
    split; [|done]. rewrite lookup_insert_ne; [done|].
    intros Heq. apply jobKey_inj in Heq. apply Hne.
    by apply (inFlight_distinct sys).
Qed.

Lemma consistent_step (sys : System) (op : Op) (sys' : System) :
  consistent sys -> step sys op sys' -> consistent sys'.
Proof.
  intros Hc Hstep. destruct Hstep as [sys op Hissued].
  pose proof Hc as (Hkey & Hnd & Hq & Hf).
  destruct op as [req jobID now|now|job emails pagesVisited crawlTime now|job errorMsg now
                 |jobID now|job]; simpl in Hissued; simpl.
  - (* Enqueue *)
    assert (Hnotin : jobID ∉ queue (sysQueue sys)).
    { intros Hin. destruct (Hq jobID Hin) as (j & Hj & _). congruence. }
    split; [|split; [|split]]; simpl.
    + intros key j. rewrite lookup_insert. case_decide as Hk; [by intros [= <-]|apply Hkey].
    + by apply NoDup_cons.
    + intros id [->|Hin]%elem_of_cons.
      * eexists. by rewrite lookup_insert_eq.
      * destruct (Hq id Hin) as (j & Hj & Hs). exists j. split; [|done].
        rewrite lookup_insert_ne; [done|]. intros Heq. apply jobKey_inj in Heq. by subst.
    + intros j Hj. destruct (Hf j Hj) as [Hrj Hsj]. split; [|done].
      rewrite lookup_insert_ne; [done|]. intros Heq. apply jobKey_inj in Heq.
      rewrite <- Heq in Hrj. congruence.
  - (* Dequeue *)
    destruct (Dequeue_consistent sys now Hc) as [[_ ->]|(rest & job & Hqueue & Hrec & Hs & ->)];
      simpl; [by destruct sys|].
    rewrite Hqueue in Hnd. apply NoDup_app in Hnd as (Hrest & Hdisj & _).
    split; [|split; [done|split]]; simpl.
    + intros key j. rewrite lookup_insert. case_decide as Hk; [by intros [= <-]|apply Hkey].
    + intros id Hin. destruct (Hq id) as (j & Hj & Hsj).
      { rewrite Hqueue. apply elem_of_app. by left. }
      exists j. split; [|done]. rewrite lookup_insert_ne; [done|].
      intros Heq. apply jobKey_inj in Heq. subst id.
      apply (Hdisj (ID job) Hin). by left.
    + intros j [->|Hj]%elem_of_cons.
      * simpl. by rewrite lookup_insert_eq.
      * destruct (Hf j Hj) as [Hrj Hsj]. split; [|done].
        rewrite lookup_insert_ne; [done|]. intros Heq. apply jobKey_inj in Heq.
        rewrite <- Heq in Hrj. congruence.
  - (* CompleteJob *)
    by apply (consistent_update_inFlight sys job).
  - (* FailJob *)
    by apply (consistent_update_inFlight sys job).
  - (* CancelJob *)
    unfold CancelJob, GetJob.
    destruct (records (sysQueue sys) !! (JobKeyPrefix +:+ jobID)) as [job|] eqn:Hrec;
      [|by destruct sys].
    case_bool_decide as Hproc; [by destruct sys|].
    pose proof (Hkey _ _ Hrec) as Hid. apply jobKey_inj in Hid. simpl.
    split; [|split; [|split]]; simpl.
    + intros key j. rewrite lookup_insert. case_decide as Hk; [by intros [= <-]|apply Hkey].
    + by apply NoDup_filter.
    + intros id [Hne Hin]%list_elem_of_filter. destruct (Hq id Hin) as (j & Hj & Hsj).
      exists j. split; [|done]. rewrite lookup_insert_ne; [done|].
      intros Heq. apply jobKey_inj in Heq. congruence.
    + intros j Hj. destruct (Hf j Hj) as [Hrj Hsj]. split; [|done].
      rewrite lookup_insert_ne; [done|]. intros Heq. apply jobKey_inj in Heq.
      rewrite Hid, Heq in Hrec. congruence.
  - done.
Qed.

Lemma reachable_consistent (sys : System) : reachable sys -> consistent sys.
Proof.
  induction 1 as [|sys op sys' _ IH Hstep]; [apply consistent_initial|].
  by apply (consistent_step sys op).
Qed.



End JobFacts.

(** ** The claims on the job store. *)
Section JobClaims.
Import jobs.

(** C4.  [CancelJob] on a job that is processing returns an error and leaves
    the store as it is.  On a job that is queued it succeeds: the record
    gets the status cancelled and the completion time [now], nothing else
    in it changes, and the identifier is neither in the queue nor in the
    active set afterwards. *)
Theorem cancel_refuses_processing_and_cancels_queued (q : Queue) (jobID : string)
    (job : ScanJob) (now : Z) :
  GetJob q jobID = Ok job ->
  ID job = jobID ->
  (Status job = StatusProcessing ->
   exists msg, CancelJob q jobID now = (Err msg, q)) /\
  (Status job = StatusQueued ->
   exists q',
     CancelJob q jobID now = (Ok tt, q') /\
     GetJob q' jobID = Ok (cancelled job now) /\
     Status (cancelled job now) = StatusCancelled /\
     CompletedAt (cancelled job now) = Some now /\
     (jobID ∉ queue q') /\
     (jobID ∉ active q')).
Proof.
  intros Hget Hid. split.
  - intros Hs. eexists. by eapply CancelJob_processing.
  - intros Hs. eexists. split; [apply (CancelJob_other q jobID job); [done|by rewrite Hs]|].
    split; [|split; [done|split; [done|split]]].
    + apply GetJob_Ok. simpl. rewrite Hid. apply lookup_insert_eq.
    + simpl. intros Hin. apply list_elem_of_filter in Hin as [Hne _]. by apply Hne.
    + simpl. rewrite elem_of_difference, elem_of_singleton. by intros [_ ?].
Qed.

Lemma cancel_refuses_processing_and_cancels_queued_witness :
  let q1 := snd (Enqueue newQueue example.request0 "j1" 1) in
  let q2 := snd (Dequeue q1 2) in
  (exists msg, CancelJob q2 "j1" 3 = (Err msg, q2)) /\
  (exists q', CancelJob q1 "j1" 3 = (Ok tt, q') /\
              statusOf q' "j1" = Some StatusCancelled /\
              ("j1" ∉ queue q') /\ ("j1" ∉ active q')).
Proof.
  intros q1 q2. split.
  - destruct (cancel_refuses_processing_and_cancels_queued q2 "j1"
                (mkScanJob "j1" "http://a.com/" "http://hooks.example/cb" "cb-7"
                   StatusProcessing 1 (Some 2) None "" "" [] 0) 3) as [Hp _].
    + vm_compute. reflexivity.
    + reflexivity.
    + by apply Hp.
  - destruct (cancel_refuses_processing_and_cancels_queued q1 "j1"
                (mkScanJob "j1" "http://a.com/" "http://hooks.example/cb" "cb-7"
                   StatusQueued 1 None None "" "" [] 0) 3) as [_ Hq].
    + vm_compute. reflexivity.
    + reflexivity.
    + destruct (Hq eq_refl) as (q' & Hc & Hg & _ & _ & Hqueue & Hactive).
      exists q'. split; [done|]. split; [|done].
      apply GetJob_Ok in Hg. unfold statusOf. by rewrite Hg.
Defined.




End JobClaims.

(** * Properties of the webhook dispatcher. *)
Section WebhookFacts.
Import jobs.

Lemma posts_app (a b : list Event) : posts (a ++ b) = (posts a ++ posts b)%list.
Proof. apply omap_app. Qed.

(** The loop touches neither the store nor the job, appends to the events,
    and posts at most once per iteration. *)
Lemma deliver_frame (retries : Z) (endpoint : Z -> PostResult) (payload : WebhookPayload)
    (n : nat) :
  forall attempt w,
    let w' := deliver retries endpoint payload n attempt w in
    store w' = store w /\ held w' = held w /\
    exists new, events w' = (events w ++ new)%list /\ (length (posts new) <= n)%nat.
Proof.
  induction n as [|n IH]; intros attempt w; simpl.
  - repeat split. exists []. by rewrite List.app_nil_r.
  - assert (Hone : forall w0 : Worker,
              w0 = emit w (Post attempt (WebhookURL (held w)) payload) ->
              store w0 = store w /\ held w0 = held w /\
              exists new, events w0 = (events w ++ new)%list /\ (length (posts new) <= S n)%nat).
    { intros w0 ->. repeat split. eexists. split; [done|]. simpl. lia. }
    assert (Hmore : forall w0 : Worker,
              w0 = deliver retries endpoint payload n (attempt + 1)
                     (emit (emit w (Post attempt (WebhookURL (held w)) payload))
                           (Sleep (backoff attempt))) ->
              store w0 = store w /\ held w0 = held w /\
              exists new, events w0 = (events w ++ new)%list /\ (length (posts new) <= S n)%nat).
    { intros w0 ->.
      destruct (IH (attempt + 1)
                  (emit (emit w (Post attempt (WebhookURL (held w)) payload))
                        (Sleep (backoff attempt)))) as (Hs & Hh & new & Hev & Hlen).
      split; [by rewrite Hs|]. split; [by rewrite Hh|].
      exists ([Post attempt (WebhookURL (held w)) payload; Sleep (backoff attempt)] ++ new)%list.
      split.
      - rewrite Hev. simpl. by rewrite <- !List.app_assoc.
      - rewrite posts_app. simpl. lia. }
    destruct (attempt <=? retries).
    + destruct (endpoint attempt) as [|statusCode].
      * destruct (attempt =? retries); [by apply Hone|by apply Hmore].
      * destruct ((200 <=? statusCode) && (statusCode <? 300)); [by apply Hone|].
        destruct (attempt =? retries); [by apply Hone|by apply Hmore].
    + repeat split. exists []. split; [by rewrite List.app_nil_r|simpl; lia].
Qed.

Lemma deliver_S (retries : Z) (endpoint : Z -> PostResult) (payload : WebhookPayload)
    (n : nat) (attempt : Z) (w : Worker) :
  deliver retries endpoint payload (S n) attempt w =
  if attempt <=? retries then
    let w1 := emit w (Post attempt (WebhookURL (held w)) payload) in
    match endpoint attempt with
    | TransportError =>
        if attempt =? retries then w1
        else deliver retries endpoint payload n (attempt + 1) (emit w1 (Sleep (backoff attempt)))
    | Response statusCode =>
        if (200 <=? statusCode) && (statusCode <? 300) then w1
        else if attempt =? retries then w1
        else deliver retries endpoint payload n (attempt + 1) (emit w1 (Sleep (backoff attempt)))
    end
  else w.
Proof. reflexivity. Qed.

(** The bound [Z.to_nat retries] on the iterations is never what stops the
    loop: one more iteration allowed changes nothing. *)
Lemma deliver_enough (retries : Z) (endpoint : Z -> PostResult) (payload : WebhookPayload)
    (n : nat) :
  forall attempt w,
    (Z.to_nat (retries + 1 - attempt) <= n)%nat ->
    deliver retries endpoint payload (S n) attempt w =
    deliver retries endpoint payload n attempt w.
Proof.
  induction n as [|n IH]; intros attempt w Hn.
  - rewrite deliver_S. by assert ((attempt <=? retries) = false) as -> by lia.
  - rewrite (deliver_S retries endpoint payload (S n)), (deliver_S retries endpoint payload n).
    destruct (attempt <=? retries) eqn:Hle; [|done]. cbv zeta.
    by rewrite IH by lia.
Qed.

(** [sendWebhook] touches neither the store nor the job and posts at most
    [retries] times. *)
Lemma sendWebhook_frame (cfg : config.Config) (endpoint : Z -> PostResult) (now : Z)
    (w : Worker) :
  let w' := sendWebhook cfg endpoint now w in
  store w' = store w /\ held w' = held w /\
  exists new,
    events w' = (events w ++ new)%list /\
    Z.of_nat (length (posts new)) <= Z.max 0 (config.AsyncWebhookRetries cfg).
Proof.
  unfold sendWebhook. destruct (String.eqb (WebhookURL (held w)) "").
  - split; [done|]. split; [done|]. exists []. rewrite List.app_nil_r. simpl. split; [done|lia].
  - destruct (deliver_frame (config.AsyncWebhookRetries cfg) endpoint
                (payloadOf (held w) now) (Z.to_nat (config.AsyncWebhookRetries cfg)) 1 w)
      as (Hs & Hh & new & Hev & Hlen).
    split; [done|]. split; [done|]. exists new. split; [done|lia].
Qed.

(** Three attempts that fail, with a budget of three. *)
Lemma sendWebhook_three_failures (cfg : config.Config) (endpoint : Z -> PostResult) (now : Z)
    (w : Worker) :
  WebhookURL (held w) <> "" ->
  config.AsyncWebhookRetries cfg = 3 ->
  (forall attempt, failed (endpoint attempt) = true) ->
  events (sendWebhook cfg endpoint now w) =
  (events w ++ [ Post 1 (WebhookURL (held w)) (payloadOf (held w) now);
                 Sleep (backoff 1);
                 Post 2 (WebhookURL (held w)) (payloadOf (held w) now);
                 Sleep (backoff 2);
                 Post 3 (WebhookURL (held w)) (payloadOf (held w) now) ])%list.
Proof.
  intros Hurl H3 Hfail. unfold sendWebhook.
  apply String.eqb_neq in Hurl. rewrite Hurl, H3.
  change (Z.to_nat 3) with 3%nat. fold (payloadOf (held w) now).
  rewrite (deliver_S 3 endpoint _ 2 1). change (1 <=? 3) with true. cbv iota zeta.
  assert (Hone := Hfail 1). assert (Htwo := Hfail 2). assert (Hthree := Hfail 3).
  change (1 + 1) with 2.
  rewrite (deliver_S 3 endpoint _ 1 2). change (2 <=? 3) with true. cbv iota zeta.
  change (2 + 1) with 3.
  rewrite (deliver_S 3 endpoint _ 0 3). change (3 <=? 3) with true. cbv iota zeta.
  change (1 =? 3) with false. change (2 =? 3) with false. change (3 =? 3) with true.
  cbv iota.
  destruct (endpoint 1) as [|c1]; [|simpl in Hone; apply negb_true_iff in Hone; rewrite Hone];
  (destruct (endpoint 2) as [|c2]; [|simpl in Htwo; apply negb_true_iff in Htwo; rewrite Htwo]);
  (destruct (endpoint 3) as [|c3];
     [|simpl in Hthree; apply negb_true_iff in Hthree; rewrite Hthree]);
  simpl; by rewrite <- !List.app_assoc.
Qed.

(** On every path [processJob] calls [sendWebhook] once: one job is posted
    at most [retries] times. *)
Lemma processJob_posts (Parse : string -> option url.URL) (E : crawler.Env) (fuel : nat)
    (cfg : config.Config) (endpoint : Z -> PostResult) (timedOut : bool) (t : Instants)
    (crawlTime parseError : string) (cm cm' : cache.CacheManager) (w w' : Worker) :
  processJob Parse E fuel cfg endpoint timedOut t crawlTime parseError cm w = Some (cm', w') ->
  exists new,
    events w' = (events w ++ new)%list /\
    Z.of_nat (length (posts new)) <= Z.max 0 (config.AsyncWebhookRetries cfg).
Proof.
  unfold processJob.
  assert (Hsend : forall q job,
            exists new,
              events (sendWebhook cfg endpoint (atSend t)
                        {| store := q; held := job; events := events w |})
              = (events w ++ new)%list /\
              Z.of_nat (length (posts new)) <= Z.max 0 (config.AsyncWebhookRetries cfg)).
  { intros q job.
    by destruct (sendWebhook_frame cfg endpoint (atSend t)
                   {| store := q; held := job; events := events w |}) as (_ & _ & Hnew). }
  destruct (cache.Get Parse cm (URL (held w))) as [cachedResult|].
  { intros [= <- <-]. apply Hsend. }
  destruct (Parse (URL (held w))) as [startURL|]; [|intros [= <- <-]; apply Hsend].
  destruct (crawler.Crawl E fuel (crawler.New (config.MaxDepth cfg)) startURL) as [r|r|];
    [|done|done].
  destruct timedOut; intros [= <- <-]; apply Hsend.
Qed.

End WebhookFacts.

(** ** The claim on the webhook dispatcher. *)
Section WebhookClaims.
Import jobs.
Local Arguments deliver : simpl never.

(** C9.  [sendWebhook] changes neither the store nor the job the worker
    holds, whatever the endpoint answers.  It posts at most [retries] times,
    hence at most [retries + 1] times; [processJob] calls it once, so this
    bounds the posts for one job.  With a webhook URL, [retries = 3] and an
    endpoint that fails every attempt, it posts three times, attempts 1, 2
    and 3, and sleeps after the first and after the second for the attempt
    number times two seconds, 2 s then 4 s, and stops after the third. *)
Theorem webhook_retries_are_bounded (cfg : config.Config) (endpoint : Z -> PostResult)
    (now : Z) (w : Worker) :
  let retries := config.AsyncWebhookRetries cfg in
  let w' := sendWebhook cfg endpoint now w in
  store w' = store w /\
  held w' = held w /\
  (exists new,
     events w' = (events w ++ new)%list /\
     Z.of_nat (length (posts new)) <= Z.max 0 retries /\
     (0 <= retries -> Z.of_nat (length (posts new)) <= retries + 1) /\
     (WebhookURL (held w) <> "" ->
      retries = 3 ->
      (forall attempt, failed (endpoint attempt) = true) ->
      new = [ Post 1 (WebhookURL (held w)) (payloadOf (held w) now);
              Sleep (backoff 1);
              Post 2 (WebhookURL (held w)) (payloadOf (held w) now);
              Sleep (backoff 2);
              Post 3 (WebhookURL (held w)) (payloadOf (held w) now) ] /\
      posts new = [1; 2; 3] /\
      sleeps new = [1 * (2 * Second); 2 * (2 * Second)] /\
      1 * (2 * Second) < 2 * (2 * Second))) /\
  (forall Parse E fuel timedOut t crawlTime parseError cm cm' w1,
     processJob Parse E fuel cfg endpoint timedOut t crawlTime parseError cm w = Some (cm', w1) ->
     exists new,
       events w1 = (events w ++ new)%list /\
       Z.of_nat (length (posts new)) <= Z.max 0 retries /\
       (0 <= retries -> Z.of_nat (length (posts new)) <= retries + 1)).
Proof.
  intros retries w'. subst w'.
  destruct (sendWebhook_frame cfg endpoint now w) as (Hs & Hh & new & Hev & Hlen).
  fold retries in Hlen.
  split; [done|]. split; [done|]. split.
  - exists new. split; [done|]. split; [done|]. split; [lia|].
    intros Hurl H3 Hfail.
    rewrite (sendWebhook_three_failures cfg endpoint now w Hurl H3 Hfail) in Hev.
    apply app_inv_head in Hev. subst new. by vm_compute.
  - intros Parse E fuel timedOut t crawlTime parseError cm cm' w1 Hrun.
    destruct (processJob_posts _ _ _ _ _ _ _ _ _ _ _ _ _ Hrun) as (new1 & Hev1 & Hlen1).
    fold retries in Hlen1. exists new1. split; [done|]. split; [done|lia].
Qed.

Lemma webhook_retries_are_bounded_witness :
  let w := {| store := newQueue; held := example.job0; events := [] |} in
  posts (events (sendWebhook config.default example.alwaysFails 40 w)) = [1; 2; 3] /\
  sleeps (events (sendWebhook config.default example.alwaysFails 40 w)) =
    [2000000000; 4000000000] /\
  held (sendWebhook config.default example.alwaysFails 40 w) = example.job0.
Proof.
  intros w.
  destruct (webhook_retries_are_bounded config.default example.alwaysFails 40 w)
    as (_ & Hheld & (new & Hev & _ & _ & Hthree) & _).
  destruct Hthree as (_ & Hposts & Hsleeps & _); [discriminate|reflexivity|reflexivity|].
  rewrite Hev. simpl. by rewrite Hposts, Hsleeps.
Defined.

End WebhookClaims.

(** * Facts on trimming and case. *)
Section TrimFacts.
Import strings.

Lemma lower_byte_idemp (c : ascii) : lower_byte (lower_byte c) = lower_byte c.
Proof. destruct c as [[] [] [] [] [] [] [] []]; vm_compute; reflexivity. Qed.

Lemma ToLower_idemp (s : string) : ToLower (ToLower s) = ToLower s.
Proof. induction s as [|c s IH]; simpl; [done|]. by rewrite lower_byte_idemp, IH. Qed.











End TrimFacts.

(** * More on the crawl engine: termination, depth and the emails found. *)

Section CrawlTermination.
Import crawler site.
Variable E : Env.
Variable base : URL.
Variable L : list URL.
Hypothesis Hclosed : closedSite E base L = true.

Lemma closedSite_page (u : URL) (resp : Response) (doc : Document) :
  u ∈ L ->
  http_Get E (URL_String E u) = Some resp ->
  Body resp = Some doc ->
  linksStay E base L u doc = true.
Proof.
  intros Hu Hget Hbody. unfold closedSite in Hclosed.
  rewrite forallb_forall in Hclosed.
  specialize (Hclosed u (proj1 (list_elem_of_In _ _) Hu)).
  by rewrite Hget, Hbody in Hclosed.
Qed.

Lemma unvisited_shrinks (s : string) (seen : gset string) :
  s ∈ strings_of E L -> s ∉ seen ->
  (size (strings_of E L ∖ ({[s]} ∪ seen)) < size (strings_of E L ∖ seen))%nat.
Proof.
  intros Hs Hv. apply subset_size. split.
  - intros x [Hx Hn]%elem_of_difference. apply elem_of_difference. split; [done|].
    intros Hin. apply Hn, elem_of_union. by right.
  - intros Hsub.
    assert (Hin : s ∈ strings_of E L ∖ seen) by (by apply elem_of_difference).
    apply Hsub, elem_of_difference in Hin as [_ Hn].
    apply Hn, elem_of_union. left. by apply elem_of_singleton.
Qed.

Lemma unvisited_mono (seen seen' : gset string) :
  seen ⊆ seen' ->
  (size (strings_of E L ∖ seen') <= size (strings_of E L ∖ seen))%nat.
Proof.
  intros Hsub. apply subseteq_size.
  intros x [Hx Hn]%elem_of_difference. apply elem_of_difference. split; [done|].
  intros Hin. by apply Hn, Hsub.
Qed.

Lemma extends_refl (x : Run) : baseURL (self x) = Some base -> extends base L x x.
Proof. intros Hb. split; [done|]. split; [done|]. intros p Hp. by left. Qed.

Lemma extends_trans (x y z : Run) :
  extends base L x y -> extends base L y z -> extends base L x z.
Proof.
  intros (_ & Hv & Hf) (Hb & Hv' & Hf'). split; [done|]. split.
  - by transitivity (visited (self y)).
  - intros p Hp. destruct (Hf' p Hp) as [Hy|Hl]; [by apply Hf|by right].
Qed.

Lemma extends_afterFetch (u : URL) (depth : Z) (r : Run) :
  baseURL (self r) = Some base -> u ∈ L -> extends base L r (afterFetch E u depth r).
Proof.
  intros Hb Hu. split; [done|]. split.
  - intros x Hx. apply elem_of_union. by right.
  - intros p [Hp|Hp]%elem_of_app; [by left|]. right.
    apply list_elem_of_singleton in Hp. by subst.
Qed.

(** A call returns when the budget exceeds the number of listed URL strings
    not yet visited: each call that passes the guard marks one more. *)
Lemma crawlRecursive_returns (fuel : nat) :
  forall u depth r,
    baseURL (self r) = Some base ->
    stays base L u = true ->
    (size (strings_of E L ∖ visited (self r)) < fuel)%nat ->
    exists r', crawlRecursive E fuel u depth r = Returned r' /\ extends base L r r'.
Proof.
  induction fuel as [|fuel IH]; intros u depth r Hbase Hstay Hsize; [lia|].
  pose proof (extends_refl r Hbase) as Hrefl.
  simpl.
  destruct (depth >? maxDepth (self r)); simpl; [by exists r|].
  case_bool_decide as Hseen; [by exists r|].
  rewrite Hbase.
  destruct (String.eqb (Host u) (Host base)) eqn:Hhost; simpl; [|by exists r].
  assert (Hu : u ∈ L).
  { unfold stays in Hstay. rewrite Hhost in Hstay. simpl in Hstay.
    rewrite orb_false_r in Hstay. by apply bool_decide_eq_true_1 in Hstay. }
  assert (Hs : URL_String E u ∈ strings_of E L).
  { unfold strings_of. apply elem_of_list_to_set.
    change (URL_String E u ∈ URL_String E <$> L). apply list_elem_of_fmap. by exists u. }
  pose proof (unvisited_shrinks _ _ Hs Hseen) as Hless.
  change (mkRun (markVisited (URL_String E u) (self r)) (fetched r ++ [(u, depth)]))
    with (afterFetch E u depth r).
  pose proof (extends_afterFetch u depth r Hbase Hu) as Hext1.
  set (r1 := afterFetch E u depth r) in *.
  assert (Hb1 : baseURL (self r1) = Some base) by done.
  assert (Hsize1 : (size (strings_of E L ∖ visited (self r1)) < fuel)%nat) by (simpl; lia).
  destruct (http_Get E (URL_String E u)) as [resp|] eqn:Hget; [|by exists r1].
  destruct (negb (StatusCode resp =? 200)); [by exists r1|].
  destruct (Body resp) as [doc|] eqn:Hbody; [|by exists r1].
  pose proof (closedSite_page u resp doc Hu Hget Hbody) as Hlinks.
  unfold linksStay in Hlinks. apply andb_true_iff in Hlinks as [Hmeta Hhrefs].
  destruct (if String.eqb (metaRefresh doc) "" then None
            else parseMetaRefresh E (metaRefresh doc) u) as [redirectURL|] eqn:Hredirect.
  - assert (Hparse : parseMetaRefresh E (metaRefresh doc) u = Some redirectURL)
      by (by destruct (String.eqb (metaRefresh doc) "")).
    rewrite Hparse in Hmeta.
    destruct (IH redirectURL depth r1 Hb1 Hmeta Hsize1) as (r' & Hrun & Hext).
    exists r'. split; [done|]. by apply (extends_trans r r1).
  - set (r2 := {| self := addEmails _ _; fetched := _ |}).
    assert (Hext2 : extends base L r1 r2) by (by apply (extends_refl r1)).
    clearbody r2. rewrite forallb_forall in Hhrefs.
    assert (Hloop : forall hs x,
              (forall href, In href hs -> In href (hrefs doc)) ->
              extends base L r1 x ->
              exists r', Each (visitLink E (crawlRecursive E fuel) u depth) hs x = Returned r' /\
                         extends base L r1 r').
    { induction hs as [|href hs IHhs]; intros x Hsub Hx; simpl; [by exists x|].
      pose proof Hx as (Hbx & Hvx & _).
      assert (Hone : exists x1, visitLink E (crawlRecursive E fuel) u depth href x = Returned x1 /\
                                extends base L x x1).
      { unfold visitLink, resolveURL.
        pose proof (Hhrefs href (Hsub href (or_introl eq_refl))) as Hst.
        destruct (URL_Parse E u href) as [nextURL|]; [|exists x; split; [done|by apply extends_refl]].
        assert (Hsx : (size (strings_of E L ∖ visited (self x)) < fuel)%nat).
        { eapply Nat.le_lt_trans; [|exact Hsize1]. by apply unvisited_mono. }
        destruct (isContactLink (Path nextURL)); by apply IH. }
      destruct Hone as (x1 & -> & Hx1). simpl.
      apply IHhs; [|by apply (extends_trans r1 x)].
      intros h Hh. apply Hsub. by right. }
    destruct (Hloop (hrefs doc) r2) as (r' & Hrun & Hext'); [done|done|].
    exists r'. split; [done|]. by apply (extends_trans r r1).
Qed.

Lemma size_list_to_set_le (l : list string) :
  (size (list_to_set (C := gset string) l) <= length l)%nat.
Proof.
  induction l as [|x l IH].
  - by rewrite list_to_set_nil, size_empty.
  - rewrite list_to_set_cons, size_union_alt, size_singleton. simpl.
    assert (size (list_to_set (C := gset string) l ∖ {[x]})
            <= size (list_to_set (C := gset string) l))%nat; [|lia].
    apply subseteq_size. intros y Hy. by apply elem_of_difference in Hy as [Hy _].
Qed.

Lemma size_strings_of : (size (strings_of E L) <= length L)%nat.
Proof.
  unfold strings_of. rewrite <- (length_map (URL_String E) L). apply size_list_to_set_le.
Qed.

End CrawlTermination.

Section CrawlScanFacts.
Import crawler site.
Variable E : Env.

Lemma elem_of_addEmails (found : list string) (c : Crawler) (e : string) :
  e ∈ emails (addEmails found c) <->
  e ∈ emails c \/ exists x, In x found /\ e = strings.ToLower x.
Proof.
  unfold addEmails. simpl. generalize (emails c). intros acc. revert acc.
  induction found as [|y found IH]; intros acc; simpl.
  - split; [by left|]. by intros [?|(x & [] & _)].
  - rewrite IH, elem_of_union, elem_of_singleton. split.
    + intros [[->|?]|(x & Hx & ->)]; [right|by left|right].
      * exists y. by split; [left|].
      * exists x. by split; [right|].
    + intros [?|(x & [->|Hx] & ->)]; [by left; right|by left; left|].
      right. by exists x.
Qed.

Lemma scanned_mono (base : URL) (r r' : Run) (e : string) :
  (forall p, p ∈ fetched r -> p ∈ fetched r') -> scanned E base r e -> scanned E base r' e.
Proof.
  intros Hsub (u & depth & doc & x & Hin & Hrest). exists u, depth, doc, x.
  split; [by apply Hsub|done].
Qed.

Lemma emailsScanned_unfetched (base u : URL) (depth : Z) (r : Run) :
  emailsScanned E base r ->
  (forall doc, ~ plainPage E u doc) ->
  emailsScanned E base (afterFetch E u depth r).
Proof.
  intros [Hbase Hiff] Hnot. split; [done|]. intros e. simpl.
  change (emails (markVisited (URL_String E u) (self r))) with (emails (self r)).
  rewrite Hiff. split.
  - apply scanned_mono. intros p Hp. apply elem_of_app. by left.
  - intros (v & d & doc & x & Hin & Hhost & Hpage & Hx & He).
    simpl in Hin. apply elem_of_app in Hin as [Hin|Hin].
    + by exists v, d, doc, x.
    + apply list_elem_of_singleton in Hin. inversion Hin; subst. by destruct (Hnot doc).
Qed.

Lemma emailsScanned_scan (base u : URL) (depth : Z) (r : Run) (doc : Document) :
  emailsScanned E base r ->
  Host u = Host base ->
  plainPage E u doc ->
  emailsScanned E base
    {| self := addEmails (FindAllString E (bodyText doc)) (self (afterFetch E u depth r));
       fetched := fetched (afterFetch E u depth r) |}.
Proof.
  intros [Hbase Hiff] Hhost Hpage. split; [done|]. intros e.
  cbn [self fetched]. rewrite elem_of_addEmails.
  change (emails (self (afterFetch E u depth r))) with (emails (self r)).
  rewrite Hiff. split.
  - intros [Hold|(x & Hx & He)].
    + revert Hold. apply scanned_mono. intros p Hp. apply elem_of_app. by left.
    + exists u, depth, doc, x. split; [|done].
      apply elem_of_app. right. by apply list_elem_of_singleton.
  - intros (v & d & doc' & x & Hin & Hv & Hpage' & Hx & He).
    simpl in Hin. apply elem_of_app in Hin as [Hin|Hin].
    + left. by exists v, d, doc', x.
    + apply list_elem_of_singleton in Hin. inversion Hin; subst. right.
      destruct Hpage as [Hget _], Hpage' as [Hget' _].
      rewrite Hget in Hget'. inversion Hget'; subst. by exists x.
Qed.

Lemma crawlRecursive_emailsScanned (base : URL) (fuel : nat) :
  forall u depth r r',
    emailsScanned E base r ->
    runOf (crawlRecursive E fuel u depth r) = Some r' ->
    emailsScanned E base r'.
Proof.
  induction fuel as [|fuel IH]; intros u depth r r' HP; simpl.
  - by inversion 1; subst.
  - destruct (depth >? maxDepth (self r)) eqn:Hdepth; simpl; [by inversion 1; subst|].
    case_bool_decide as Hseen; [by inversion 1; subst|].
    pose proof HP as [Hbase _]. rewrite Hbase.
    destruct (String.eqb (Host u) (Host base)) eqn:Hhost; simpl; [|by inversion 1; subst].
    apply String.eqb_eq in Hhost.
    change (mkRun (markVisited (URL_String E u) (self r)) (fetched r ++ [(u, depth)]))
      with (afterFetch E u depth r).
    destruct (http_Get E (URL_String E u)) as [resp|] eqn:Hget.
    2:{ inversion 1; subst. apply emailsScanned_unfetched; [done|].
        intros doc [Hdoc _]. congruence. }
    destruct (StatusCode resp =? 200) eqn:Hstatus; simpl.
    2:{ inversion 1; subst. apply emailsScanned_unfetched; [done|].
        intros doc [Hdoc _]. rewrite Hdoc in Hget. inversion Hget; subst. done. }
    destruct (Body resp) as [doc|] eqn:Hbody.
    2:{ inversion 1; subst. apply emailsScanned_unfetched; [done|].
        intros doc [Hdoc _]. rewrite Hdoc in Hget. inversion Hget; subst. done. }
    assert (Hresp : http_Get E (URL_String E u) = Some {| StatusCode := 200; Body := Some doc |}).
    { rewrite Hget. destruct resp as [code body]. simpl in *. f_equal. f_equal; [lia|done]. }
    destruct (String.eqb (metaRefresh doc) "") eqn:Hmeta.
    + apply String.eqb_eq in Hmeta.
      apply (Each_preserves (emailsScanned E base)).
      * intros href. by apply visitLink_preserves.
      * apply emailsScanned_scan; [done|done|]. split; [done|by left].
    + apply String.eqb_neq in Hmeta.
      destruct (parseMetaRefresh E (metaRefresh doc) u) as [redirectURL|] eqn:Hparse.
      * apply IH. apply emailsScanned_unfetched; [done|].
        intros doc' [Hdoc [Hempty|Hnone]]; rewrite Hdoc in Hresp; inversion Hresp; subst;
          congruence.
      * apply (Each_preserves (emailsScanned E base)).
        -- intros href. by apply visitLink_preserves.
        -- apply emailsScanned_scan; [done|done|]. split; [done|by right].
Qed.

Lemma Crawl_emailsScanned (fuel : nat) (limit : Z) (start : URL) (r : Run) :
  Crawl E fuel (New limit) start = Returned r -> emailsScanned E start r.
Proof.
  intros Hrun. unfold Crawl in Hrun.
  refine (crawlRecursive_emailsScanned start fuel start 0
            {| self := {| maxDepth := limit; visited := ∅; emails := ∅;
                          baseURL := Some start |};
               fetched := [] |} r _ (f_equal runOf Hrun)).
  split; [done|]. intros e. simpl. split.
  - intros Hin. by apply elem_of_empty in Hin.
  - intros (u & depth & doc & x & Hin & _). by apply elem_of_nil in Hin.
Qed.

Lemma scanned_lower (base : URL) (r : Run) (e : string) :
  scanned E base r e -> strings.ToLower e = e.
Proof. intros (u & depth & doc & x & _ & _ & _ & _ & ->). apply ToLower_idemp. Qed.

End CrawlScanFacts.

Section CrawlExtras.
Import crawler site.

(** X1.  On a site where the pages served at the URLs of a list [L] link, on
    the start host, to URLs of [L] only, [Crawl] returns: the recursion of
    [crawlRecursive] never nests deeper than the length of [L] plus one call,
    whatever the depth limit and however many links are contact links that
    do not count towards it.  It sends at most one request per URL of
    [L]. *)
Theorem crawl_returns_on_finite_site (E : Env) (L : list URL) (c : Crawler) (start : URL)
    (fuel : nat) :
  closedSite E start L = true ->
  start ∈ L ->
  (length L < fuel)%nat ->
  exists r,
    Crawl E fuel c start = Returned r /\
    (length (fetched r) <= length L)%nat.
Proof.
  intros Hclosed Hstart Hfuel. unfold Crawl.
  set (r0 := {| self := {| maxDepth := maxDepth c; visited := visited c;
                           emails := emails c; baseURL := Some start |};
                fetched := [] |}).
  destruct (crawlRecursive_returns E start L Hclosed fuel start 0 r0)
    as (r & Hr & _ & _ & Hfetched); [done| | |].
  - unfold stays. by rewrite bool_decide_eq_true_2.
  - eapply Nat.le_lt_trans; [|exact Hfuel]. etrans; [|apply size_strings_of].
    apply subseteq_size. intros x Hx. by apply elem_of_difference in Hx as [Hx _].
  - exists r. split; [done|].
    assert (Hdistinct : distinctFetches E r).
    { apply (distinctFetches_preserved E fuel start 0 r0); [|by rewrite Hr].
      split; [apply NoDup_nil_2|]. intros p Hp. by apply elem_of_nil in Hp. }
    destruct Hdistinct as [Hnd _].
    rewrite <- (length_map (fun p => URL_String E (fst p)) (fetched r)).
    rewrite <- (size_list_to_set (C := gset string)) by done.
    etrans; [|apply (size_strings_of E L)]. apply subseteq_size.
    intros s (p & -> & Hp)%elem_of_list_to_set%list_elem_of_fmap.
    destruct (Hfetched p Hp) as [Hnil|Hl]; [by apply elem_of_nil in Hnil|].
    unfold strings_of. apply elem_of_list_to_set.
    change (URL_String E (fst p) ∈ URL_String E <$> L). apply list_elem_of_fmap.
    by exists (fst p).
Qed.

Lemma crawl_returns_on_finite_site_witness :
  exists r,
    Crawl example.site 11 (New 3) example.root = Returned r /\
    (length (fetched r) <= 10)%nat.
Proof.
  apply (crawl_returns_on_finite_site example.site examplePages (New 3) example.root 11).
  - vm_compute. reflexivity.
  - by_computing.
  - simpl. lia.
Defined.

(** X2.  No page is fetched at a depth above the limit the crawler was made
    with; with a negative limit, nothing is fetched at all and no email is
    added. *)
Theorem crawl_respects_depth_limit (E : Env) (fuel : nat) (c : Crawler) (start : URL)
    (r : Run) :
  Crawl E fuel c start = Returned r ->
  (forall u depth, (u, depth) ∈ fetched r -> depth <= maxDepth c) /\
  (maxDepth c < 0 -> fetched r = [] /\ emails (self r) = emails c).
Proof.
  intros Hrun. split.
  - assert (Hinv : maxDepth (self r) = maxDepth c /\
                   forall u depth, (u, depth) ∈ fetched r -> depth <= maxDepth c); [|by destruct Hinv].
    unfold Crawl in Hrun.
    refine (crawlRecursive_preserves E
              (fun x => maxDepth (self x) = maxDepth c /\
                        forall u depth, (u, depth) ∈ fetched x -> depth <= maxDepth c)
              _ _ fuel start 0
              {| self := {| maxDepth := maxDepth c; visited := visited c;
                            emails := emails c; baseURL := Some start |};
                 fetched := [] |} r _ _).
    + intros x u depth base [Hmax Hx] Hdepth _ _ _. split; [done|].
      intros v d [Hin|Hin]%elem_of_app; [by eapply Hx|].
      apply list_elem_of_singleton in Hin. inversion Hin; subst. lia.
    + by intros x found [Hmax Hx].
    + split; [done|]. intros u depth Hin. by apply elem_of_nil in Hin.
    + by rewrite Hrun.
  - intros Hneg. unfold Crawl in Hrun. destruct fuel as [|fuel]; [done|].
    simpl in Hrun. assert ((0 >? maxDepth c) = true) as Hgt by lia.
    rewrite Hgt in Hrun. simpl in Hrun. by inversion Hrun.
Qed.

Lemma crawl_respects_depth_limit_witness :
  Forall (fun p => snd p <= 1)
    (fetched (finalRun (Crawl example.site 20 (New 1) example.root))).
Proof.
  destruct (crawl_respects_depth_limit example.site 20 (New 1) example.root
              (finalRun (Crawl example.site 20 (New 1) example.root))) as [Hdepth _].
  - vm_compute. reflexivity.
  - apply Forall_forall. intros [u depth] Hin. by apply (Hdepth u).
Defined.

(** X3.  The emails a fresh crawler returns are exactly the lower-case forms
    of the matches of the email pattern in the texts of the pages it fetched
    with status 200 on the start host and did not leave by a meta refresh;
    each of them is in lower case. *)
Theorem crawl_emails_are_the_scanned_matches (E : Env) (fuel : nat) (limit : Z)
    (start : URL) (r : Run) :
  Crawl E fuel (New limit) start = Returned r ->
  forall e, (e ∈ emails (self r) <-> scanned E start r e) /\
            (e ∈ emails (self r) -> strings.ToLower e = e).
Proof.
  intros Hrun. destruct (Crawl_emailsScanned E fuel limit start r Hrun) as [_ Hiff].
  intros e. split; [done|]. rewrite Hiff. apply scanned_lower.
Qed.

Lemma crawl_emails_are_the_scanned_matches_witness :
  scanned example.site example.root
    (finalRun (Crawl example.site 20 (New 3) example.root)) "bob@a.com".
Proof.
  apply (crawl_emails_are_the_scanned_matches example.site 20 3 example.root
           (finalRun (Crawl example.site 20 (New 3) example.root))).
  - vm_compute. reflexivity.
  - by_computing.
Defined.

End CrawlExtras.

(** * The meta refresh. *)
Section RefreshFacts.
Import strings refresh.









End RefreshFacts.

Section RefreshExtras.
Import crawler refresh.



End RefreshExtras.

(** * More on the cache: the keys, [ClearAll] and [DeduplicateEmails]. *)
Section DigestFacts.
Import sha256.

Lemma round_length (s : list N) (kw : N * N) : length (round s kw) = length s.
Proof.
  unfold round.
  destruct s as [|a [|b [|c [|d [|e [|f [|g [|h [|i s]]]]]]]]]; reflexivity.
Qed.

Lemma fold_round_length (l : list (N * N)) :
  forall s, length (fold_left round l s) = length s.
Proof.
  induction l as [|kw l IH]; intros s; simpl; [done|]. by rewrite IH, round_length.
Qed.

Lemma compress_length (h block : list N) : length (compress h block) = length h.
Proof.
  unfold compress. rewrite length_map, length_combine, fold_round_length. lia.
Qed.

Lemma fold_compress_length (blocks : list (list N)) :
  forall h, length (fold_left compress blocks h) = length h.
Proof.
  induction blocks as [|b blocks IH]; intros h; simpl; [done|].
  by rewrite IH, compress_length.
Qed.

Lemma be_bytes_length (n : nat) (x : N) : length (be_bytes n x) = n.
Proof. induction n as [|n IH]; simpl; [done|]. by rewrite IH. Qed.

Lemma be_bytes_small (n : nat) (x : N) : Forall (fun b => (b < 256)%N) (be_bytes n x).
Proof.
  induction n as [|n IH]; simpl; [done|]. constructor; [|done].
  change 255%N with (N.ones 8). rewrite N.land_ones. by apply N.mod_lt.
Qed.

Lemma Sum256_length (data : string) : length (Sum256 data) = 32%nat.
Proof.
  unfold Sum256. generalize (fold_compress_length
    (chunks (length (pad (bytes_of_string data))) 64 (pad (bytes_of_string data))) H0).
  generalize (fold_left compress
    (chunks (length (pad (bytes_of_string data))) 64 (pad (bytes_of_string data))) H0).
  intros l Hl. change (length H0) with 8%nat in Hl.
  destruct l as [|a [|b [|c [|d [|e [|f [|g [|h [|i l]]]]]]]]]; try done.
Qed.

Lemma Sum256_small (data : string) : Forall (fun b => (b < 256)%N) (Sum256 data).
Proof.
  unfold Sum256. generalize (fold_left compress
    (chunks (length (pad (bytes_of_string data))) 64 (pad (bytes_of_string data))) H0).
  intros l. induction l as [|x l IH]; [done|].
  cbn [flat_map]. apply Forall_app. split; [apply be_bytes_small|done].
Qed.

Lemma hex_length (bs : list N) : String.length (hex bs) = (2 * length bs)%nat.
Proof. induction bs as [|b bs IH]; simpl; [done|]. rewrite IH. lia. Qed.

Lemma hex_digit_isHexDigit (n : N) :
  (n < 16)%N -> cacheadmin.isHexDigit (hex_digit n) = true.
Proof.
  intros Hn.
  assert (Hall : forallb (fun k => cacheadmin.isHexDigit (hex_digit (N.of_nat k))) (seq 0 16)
                 = true) by (vm_compute; reflexivity).
  rewrite forallb_forall in Hall. specialize (Hall (N.to_nat n)).
  rewrite N2Nat.id in Hall. apply Hall, in_seq. lia.
Qed.

Lemma hex_digits (bs : list N) :
  Forall (fun b => (b < 256)%N) bs ->
  Forall (fun c => cacheadmin.isHexDigit c = true) (list_ascii_of_string (hex bs)).
Proof.
  induction 1 as [|b bs Hb Hbs IH]; simpl; [done|].
  constructor; [|constructor; [|done]]; apply hex_digit_isHexDigit.
  - rewrite N.shiftr_div_pow2. change (2 ^ 4)%N with 16%N.
    apply N.Div0.div_lt_upper_bound. lia.
  - change 15%N with (N.ones 4). rewrite N.land_ones. by apply N.mod_lt.
Qed.

End DigestFacts.

Section CacheAdminFacts.
Import cache cacheadmin.

Lemma lookup_foldr_delete_keys {A : Type} (m : gmap string A) (keys : list string) (k : string) :
  foldr delete m keys !! k = if decide (k ∈ keys) then None else m !! k.
Proof.
  induction keys as [|key keys IH]; cbn [foldr].
  - destruct (decide (k ∈ [])) as [Hin|_]; [by apply elem_of_nil in Hin|done].
  - rewrite lookup_delete, IH.
    destruct (decide (key = k)) as [->|Hk].
    + rewrite decide_True; [done|by left].
    + destruct (decide (k ∈ keys)) as [Hin|Hin].
      * rewrite decide_True; [done|by right].
      * rewrite decide_False; [done|]. intros [?|?]%elem_of_cons; congruence.
Qed.

Lemma elem_of_Keys (cm : CacheManager) (key : string) :
  key ∈ Keys cm <-> matchesPattern key = true /\ is_Some (client cm !! key).
Proof.
  unfold Keys. by rewrite list_elem_of_filter, elem_of_elements, elem_of_dom.
Qed.

Lemma lookup_ClearAll (cm : CacheManager) (key : string) :
  enabled cm = true ->
  client (ClearAll cm) !! key = if matchesPattern key then None else client cm !! key.
Proof.
  intros Hon. unfold ClearAll. rewrite Hon. simpl.
  destruct (0 <? length (Keys cm))%nat eqn:Hlen; simpl.
  - rewrite lookup_foldr_delete_keys. case_decide as Hin.
    + apply elem_of_Keys in Hin as [-> _]. done.
    + destruct (matchesPattern key) eqn:Hm; [|done].
      destruct (client cm !! key) eqn:Hk; [|done].
      destruct Hin. apply elem_of_Keys. by rewrite Hk.
  - destruct (matchesPattern key) eqn:Hm; [|done].
    destruct (client cm !! key) eqn:Hk; [|done].
    assert (Hin : key ∈ Keys cm) by (apply elem_of_Keys; by rewrite Hk).
    destruct (Keys cm); [by apply elem_of_nil in Hin|done].
Qed.

Lemma keyOf_matchesPattern (text : string) : matchesPattern (keyOf text) = true.
Proof. unfold matchesPattern, strings.HasPrefix. apply prefix_spec. by eexists. Qed.

Lemma generateKey_keyOf (Parse : string -> option URL) (rawURL : string) :
  exists text, generateKey Parse rawURL = keyOf text.
Proof. unfold generateKey. destruct (Parse rawURL); by eexists. Qed.

Lemma enabled_ClearAll (cm : CacheManager) : enabled (ClearAll cm) = enabled cm.
Proof.
  unfold ClearAll. destruct (enabled cm) eqn:Hon; simpl; [|done].
  by destruct (0 <? length (Keys cm))%nat.
Qed.

Lemma Get_ClearAll (Parse : string -> option URL) (cm : CacheManager) (rawURL : string) :
  Get Parse (ClearAll cm) rawURL = None.
Proof.
  unfold Get. rewrite enabled_ClearAll. destruct (enabled cm) eqn:Hon; simpl; [|done].
  rewrite lookup_ClearAll by done.
  destruct (generateKey_keyOf Parse rawURL) as [text ->].
  by rewrite keyOf_matchesPattern.
Qed.

End CacheAdminFacts.

Section CacheExtras.
Import cache cacheadmin.

(** X4.  [ClearAll] removes every cached scan and nothing else: afterwards
    [Get] misses for every URL, the keys that the pattern
    ["crawler:emails:*"] does not match keep their values, and [Stats] on an
    enabled cache counts no cached URL. *)
Theorem clear_all_removes_every_cached_scan (cm : CacheManager) :
  (forall Parse rawURL, Get Parse (ClearAll cm) rawURL = None) /\
  (forall key, matchesPattern key = false -> client (ClearAll cm) !! key = client cm !! key) /\
  (enabled cm = true -> cached_urls (Stats (ClearAll cm)) = Some 0).
Proof.
  split; [intros Parse rawURL; apply Get_ClearAll|].
  destruct (enabled cm) eqn:Hon.
  - split.
    + intros key Hkey. rewrite lookup_ClearAll by done. by rewrite Hkey.
    + intros _. unfold Stats. rewrite enabled_ClearAll, Hon. simpl. f_equal.
      destruct (Keys (ClearAll cm)) as [|key keys] eqn:Hkeys; [done|].
      assert (Hin : key ∈ Keys (ClearAll cm)) by (rewrite Hkeys; by left).
      apply elem_of_Keys in Hin as [Hm [v Hv]].
      rewrite lookup_ClearAll in Hv by done. by rewrite Hm in Hv.
  - unfold ClearAll. rewrite Hon. simpl. by split.
Qed.

Lemma clear_all_removes_every_cached_scan_witness :
  Get plain.Parse (ClearAll cache1) "http://a.com/" = None /\
  cached_urls (Stats (ClearAll cache1)) = Some 0.
Proof.
  destruct (clear_all_removes_every_cached_scan cache1) as (Hget & _ & Hstats).
  split; [apply Hget|apply Hstats; reflexivity].
Defined.

(** X5.  Every cache key is ["crawler:emails:"] followed by 64 lower-case
    hexadecimal digits, whatever the URL and whether it parses or not; so it
    is matched by the pattern of [ClearAll] and [Stats], and it is never the
    key of a job record, of the job queue or of the active set. *)
Theorem cache_key_has_fixed_form (Parse : string -> option URL) (rawURL : string) :
  (exists digest,
     generateKey Parse rawURL = "crawler:emails:" +:+ digest /\
     String.length digest = 64%nat /\
     Forall (fun c => isHexDigit c = true) (list_ascii_of_string digest)) /\
  matchesPattern (generateKey Parse rawURL) = true /\
  (forall jobID, generateKey Parse rawURL <> jobs.JobKeyPrefix +:+ jobID) /\
  generateKey Parse rawURL <> "crawler:job_queue" /\
  generateKey Parse rawURL <> "crawler:active_jobs".
Proof.
  destruct (generateKey_keyOf Parse rawURL) as [text ->].
  split; [|split; [apply keyOf_matchesPattern|]].
  - exists (sha256.hex (sha256.Sum256 text)). split; [done|]. split.
    + by rewrite hex_length, Sum256_length.
    + apply hex_digits, Sum256_small.
  - unfold keyOf. split; [|split]; try intros jobID; discriminate.
Qed.


End CacheExtras.

(** * More on the job store: what it keeps track of. *)
Section JobTracking.
Import jobs jobstats.










End JobTracking.

Section JobExtras.
Import jobs jobstats.

Lemma reachable_afterEnqueue : reachable afterEnqueue.
Proof.
  apply (reachable_step initial (OpEnqueue example.request0 "j1" 1)); [constructor|].
  apply (step_issued initial). simpl. apply lookup_empty.
Qed.






(** X9.  Jobs leave the queue in the order they entered it.  After an
    [Enqueue] with a fresh identifier, [Dequeue] hands out the new job when
    the queue was empty; otherwise it hands out the job it would have handed
    out without the [Enqueue], and the new job stays in the queue. *)
Theorem new_job_waits_behind_older_jobs (sys : System) (req : AsyncScanRequest)
    (jobID : string) (now later : Z) :
  reachable sys ->
  GetJob (sysQueue sys) jobID = Err "job not found" ->
  let q1 := snd (Enqueue (sysQueue sys) req jobID now) in
  (queue (sysQueue sys) = [] ->
   fst (Dequeue q1 later) =
   Ok (Some (started (fst (Enqueue (sysQueue sys) req jobID now)) later))) /\
  (queue (sysQueue sys) <> [] ->
   fst (Dequeue q1 later) = fst (Dequeue (sysQueue sys) later) /\
   jobID ∈ queue (snd (Dequeue q1 later))).
Proof.
  intros Hreach Hfresh q1.
  pose proof (reachable_consistent sys Hreach) as Hc.
  assert (Hnone : records (sysQueue sys) !! (JobKeyPrefix +:+ jobID) = None).
  { unfold GetJob in Hfresh. by destruct (records (sysQueue sys) !! (JobKeyPrefix +:+ jobID)). }
  split.
  - intros Hempty. subst q1. unfold Dequeue, BRPop, Enqueue. simpl. rewrite Hempty. simpl.
    unfold GetJob. simpl. by rewrite lookup_insert_eq.
  - intros Hne.
    destruct (Dequeue_consistent sys later Hc) as [[Hempty _]|(rest & job & Hqueue & Hrec & Hs & Hd)];
      [done|].
    rewrite Hd. simpl.
    assert (Hid : ID job <> jobID) by (intros <-; congruence).
    subst q1. unfold Dequeue, BRPop, Enqueue. cbn [snd queue UpdateJob records active].
    rewrite Hqueue, app_comm_cons, last_snoc, removelast_last.
    unfold GetJob. cbn [records ID].
    rewrite lookup_insert_ne by (intros Heq; by apply jobKey_inj in Heq).
    rewrite Hrec. simpl. split; [done|by left].
Qed.

Lemma new_job_waits_behind_older_jobs_witness :
  fst (Dequeue (snd (Enqueue (sysQueue afterEnqueue) example.request0 "j2" 5)) 6) =
  fst (Dequeue (sysQueue afterEnqueue) 6).
Proof.
  destruct (new_job_waits_behind_older_jobs afterEnqueue example.request0 "j2" 5 6
              reachable_afterEnqueue) as [_ Hbehind].
  - vm_compute. reflexivity.
  - apply Hbehind. discriminate.
Defined.



End JobExtras.

(** * Runs of the job store. *)
Section JobRunFacts.
Import jobs jobstats jobruns.

Lemma run_reachable (sys : System) (ops : list Op) (sys' : System) :
  reachable sys -> run sys ops sys' -> reachable sys'.
Proof.
  intros Hreach Hrun. induction Hrun as [sys|sys op sys' ops sys'' Hstep _ IH]; [done|].
  apply IH. by apply (reachable_step sys op).
Qed.




End JobRunFacts.

Section JobRunExtras.
Import jobs jobstats jobruns.



End JobRunExtras.

(** * More on the webhook dispatcher. *)
Section DeliveryFacts.
Import jobs dispatch.

Lemma posts_failedAttempts (target : string) (payload : WebhookPayload) (n : nat) :
  forall attempt, posts (failedAttempts target payload n attempt) = seqZ attempt (Z.of_nat n).
Proof.
  induction n as [|n IH]; intros attempt; [done|].
  cbn [failedAttempts]. unfold posts in *. cbn [omap]. simpl.
  rewrite IH, (seqZ_cons attempt) by lia. f_equal. f_equal; lia.
Qed.

Lemma sleeps_failedAttempts (target : string) (payload : WebhookPayload) (n : nat) :
  forall attempt, sleeps (failedAttempts target payload n attempt) =
                  backoff <$> seqZ attempt (Z.of_nat n).
Proof.
  induction n as [|n IH]; intros attempt; [done|].
  cbn [failedAttempts]. unfold sleeps in *. cbn [omap]. simpl.
  rewrite IH, (seqZ_cons attempt) by lia. rewrite fmap_cons. f_equal. f_equal. f_equal; lia.
Qed.

Lemma sleeps_app (a b : list Event) : sleeps (a ++ b) = (sleeps a ++ sleeps b)%list.
Proof. apply omap_app. Qed.

(** Below the bound of [int64] the product does not wrap. *)
Lemma backoff_exact (attempt : Z) :
  0 <= attempt <= 4611686018 -> backoff attempt = attempt * 2 * Second.
Proof.
  intros H. unfold backoff, wrap_int64, Second.
  rewrite (Z.mod_small (attempt * 2 + 2 ^ 63)) by lia.
  replace (attempt * 2 + 2 ^ 63 - 2 ^ 63) with (attempt * 2) by lia.
  rewrite Z.mod_small by lia. lia.
Qed.

(** The loop from [attempt] on when the attempts before [k] fail and
    attempt [k] is the last one: it succeeds, or the budget ends there. *)
Lemma deliver_until (retries : Z) (endpoint : Z -> PostResult) (payload : WebhookPayload)
    (k : Z) (n : nat) :
  forall attempt w,
    attempt <= k <= retries ->
    (forall a, attempt <= a < k -> failed (endpoint a) = true) ->
    failed (endpoint k) = false \/ k = retries ->
    (Z.to_nat (k - attempt) < n)%nat ->
    events (deliver retries endpoint payload n attempt w) =
    (events w ++ failedAttempts (WebhookURL (held w)) payload (Z.to_nat (k - attempt)) attempt
       ++ [Post k (WebhookURL (held w)) payload])%list.
Proof.
  induction n as [|n IH]; intros attempt w Hk Hfail Hlast Hn; [lia|].
  rewrite deliver_S. assert ((attempt <=? retries) = true) as -> by lia. cbv zeta.
  destruct (decide (attempt = k)) as [->|Hne].
  - replace (k - k) with 0 by lia. simpl.
    destruct Hlast as [Hok| ->].
    + destruct (endpoint k) as [|statusCode]; [done|]. simpl in Hok.
      apply negb_false_iff in Hok. by rewrite Hok.
    + rewrite Z.eqb_refl. destruct (endpoint retries) as [|statusCode]; [done|].
      by destruct ((200 <=? statusCode) && (statusCode <? 300)).
  - assert (Hthis : failed (endpoint attempt) = true) by (apply Hfail; lia).
    assert ((attempt =? retries) = false) as Hmore by lia.
    assert (Hstep : events
              (deliver retries endpoint payload n (attempt + 1)
                 (emit (emit w (Post attempt (WebhookURL (held w)) payload))
                       (Sleep (backoff attempt)))) =
            (events w ++ failedAttempts (WebhookURL (held w)) payload
                           (Z.to_nat (k - attempt)) attempt
               ++ [Post k (WebhookURL (held w)) payload])%list).
    { rewrite IH; [|lia|intros a Ha; apply Hfail; lia|done|lia].
      replace (Z.to_nat (k - attempt)) with (S (Z.to_nat (k - (attempt + 1)))) by lia.
      cbn [failedAttempts emit events held]. by rewrite <- !List.app_assoc. }
    destruct (endpoint attempt) as [|statusCode]; rewrite ?Hmore; [done|].
    simpl in Hthis. apply negb_true_iff in Hthis. by rewrite Hthis.
Qed.

End DeliveryFacts.

Section DeliveryExtras.
Import jobs dispatch.

(** X11.  [sendWebhook] stops at the first attempt that is answered with a
    status from 200 to 299, or at attempt [retries]: when the attempts
    before [k] fail and attempt [k] succeeds or is the last of the budget,
    it posts attempts 1 to [k], the same payload to the same URL each time,
    sleeps between two attempts and not after the last, and the sleep after
    attempt [a] is [a] times two seconds.  With a budget of zero or less it
    posts nothing at all, webhook URL or not. *)
Theorem webhook_stops_at_first_success (cfg : config.Config) (endpoint : Z -> PostResult)
    (now : Z) (w : Worker) (k : Z) :
  let retries := config.AsyncWebhookRetries cfg in
  let new := (failedAttempts (WebhookURL (held w)) (payloadOf (held w) now) (Z.to_nat (k - 1)) 1
                ++ [Post k (WebhookURL (held w)) (payloadOf (held w) now)])%list in
  WebhookURL (held w) <> "" ->
  (retries <= 0 -> sendWebhook cfg endpoint now w = w) /\
  (1 <= k <= retries ->
   (forall a, 1 <= a < k -> failed (endpoint a) = true) ->
   failed (endpoint k) = false \/ k = retries ->
   events (sendWebhook cfg endpoint now w) = (events w ++ new)%list /\
   posts new = seqZ 1 k /\
   (k <= 4611686019 -> sleeps new = (fun a => a * 2 * Second) <$> seqZ 1 (k - 1))).
Proof.
  intros retries new Hurl. subst new. apply String.eqb_neq in Hurl. split.
  - intros Hnone. unfold sendWebhook. rewrite Hurl. fold retries.
    by replace (Z.to_nat retries) with 0%nat by lia.
  - intros Hk Hfail Hlast. split; [|split].
    + unfold sendWebhook. rewrite Hurl.
      fold (payloadOf (held w) now). fold retries.
      apply deliver_until; [done|done|done|lia].
    + rewrite posts_app, posts_failedAttempts.
      replace (seqZ 1 k) with (seqZ 1 (Z.of_nat (Z.to_nat (k - 1)) + 1)) by (f_equal; lia).
      rewrite seqZ_app by lia. f_equal.
      replace (1 + Z.of_nat (Z.to_nat (k - 1))) with k by lia. reflexivity.
    + intros Hbound. rewrite sleeps_app, sleeps_failedAttempts. simpl.
      rewrite List.app_nil_r, Z2Nat.id by lia.
      apply list_eq. intros i. rewrite !list_lookup_fmap.
      destruct (seqZ 1 (k - 1) !! i) as [a|] eqn:Ha; [|done]. simpl.
      apply lookup_seqZ in Ha as [-> Hi]. f_equal. apply backoff_exact. lia.
Qed.

Lemma webhook_stops_at_first_success_witness :
  let w := {| store := newQueue; held := example.job0; events := [] |} in
  posts (events (sendWebhook config.default thirdTimeLucky 40 w)) = [1; 2; 3] /\
  sleeps (events (sendWebhook config.default thirdTimeLucky 40 w)) = [2000000000; 4000000000].
Proof.
  intros w.
  destruct (webhook_stops_at_first_success config.default thirdTimeLucky 40 w 3)
    as [_ Hrun]; [discriminate|].
  destruct Hrun as (Hev & Hposts & Hsleeps).
  - simpl. lia.
  - intros a Ha. unfold thirdTimeLucky. assert ((a <? 3) = true) as -> by lia. reflexivity.
  - left. reflexivity.
  - rewrite Hev. simpl. split; [exact Hposts|]. apply Hsleeps. lia.
Defined.

End DeliveryExtras.

(** * The worker: [processJob] and the loop around it. *)
Section WorkerFacts.
Import jobs pool.

Lemma deliver_posts (retries : Z) (endpoint : Z -> PostResult) (payload : WebhookPayload)
    (n : nat) :
  forall attempt w,
    exists new,
      events (deliver retries endpoint payload n attempt w) = (events w ++ new)%list /\
      allPostsCarry (WebhookURL (held w)) payload new.
Proof.
  induction n as [|n IH]; intros attempt w.
  - exists []. split; [by rewrite List.app_nil_r|]. intros a t p Hin. by apply elem_of_nil in Hin.
  - rewrite deliver_S.
    assert (Hone : exists new,
              events (emit w (Post attempt (WebhookURL (held w)) payload)) = (events w ++ new)%list /\
              allPostsCarry (WebhookURL (held w)) payload new).
    { eexists. split; [done|]. intros a t p Hin. apply list_elem_of_singleton in Hin.
      by inversion Hin. }
    assert (Hmore : exists new,
              events (deliver retries endpoint payload n (attempt + 1)
                        (emit (emit w (Post attempt (WebhookURL (held w)) payload))
                              (Sleep (backoff attempt)))) = (events w ++ new)%list /\
              allPostsCarry (WebhookURL (held w)) payload new).
    { destruct (IH (attempt + 1)
                  (emit (emit w (Post attempt (WebhookURL (held w)) payload))
                        (Sleep (backoff attempt)))) as (new & Hev & Hall).
      exists ([Post attempt (WebhookURL (held w)) payload; Sleep (backoff attempt)] ++ new)%list.
      split.
      - rewrite Hev. simpl. by rewrite <- !List.app_assoc.
      - intros a t p Hin. apply elem_of_app in Hin as [Hin|Hin]; [|by apply (Hall a)].
        apply elem_of_cons in Hin as [Hin|Hin]; [by inversion Hin|].
        apply list_elem_of_singleton in Hin. by inversion Hin. }
    destruct (attempt <=? retries); cbv zeta.
    + destruct (endpoint attempt) as [|statusCode].
      * destruct (attempt =? retries); [apply Hone|apply Hmore].
      * destruct ((200 <=? statusCode) && (statusCode <? 300)); [apply Hone|].
        destruct (attempt =? retries); [apply Hone|apply Hmore].
    + exists []. split; [by rewrite List.app_nil_r|].
      intros a t p Hin. by apply elem_of_nil in Hin.
Qed.

Lemma sendWebhook_posts (cfg : config.Config) (endpoint : Z -> PostResult) (now : Z)
    (w : Worker) :
  exists new,
    events (sendWebhook cfg endpoint now w) = (events w ++ new)%list /\
    allPostsCarry (WebhookURL (held w)) (payloadOf (held w) now) new.
Proof.
  unfold sendWebhook. destruct (String.eqb (WebhookURL (held w)) "").
  - exists []. split; [by rewrite List.app_nil_r|]. intros a t p Hin. by apply elem_of_nil in Hin.
  - apply deliver_posts.
Qed.

(** The ways [processJob] ends: with the job completed or failed, written
    to the store and taken out of the active set, and then [sendWebhook] on
    it. *)
Lemma processJob_cases (Parse : string -> option url.URL) (E : crawler.Env) (fuel : nat)
    (cfg : config.Config) (endpoint : Z -> PostResult) (timedOut : bool) (t : Instants)
    (crawlTime parseError : string) (cm cm' : cache.CacheManager) (w w' : Worker) :
  processJob Parse E fuel cfg endpoint timedOut t crawlTime parseError cm w = Some (cm', w') ->
  exists fin,
    w' = sendWebhook cfg endpoint (atSend t)
           {| store := SRem (UpdateJob (store w) fin) (ID fin); held := fin; events := events w |} /\
    ((exists emails pagesVisited,
        fin = completed (held w) emails pagesVisited crawlTime (atFinish t)) \/
     (exists errorMsg, fin = failedWith (held w) errorMsg (atFinish t) /\ cm' = cm)).
Proof.
  unfold processJob, CompleteJob, FailJob. cbv beta iota zeta.
  destruct (cache.Get Parse cm (URL (held w))) as [cachedResult|].
  { intros [= <- <-].
    exists (completed (held w) (cache.Emails cachedResult)
              (cache.PagesVisited (cache.Info cachedResult)) crawlTime (atFinish t)).
    split; [reflexivity|]. left. by do 2 eexists. }
  destruct (Parse (URL (held w))) as [startURL|].
  2:{ intros [= <- <-].
      exists (failedWith (held w) ("Invalid URL: " +:+ parseError) (atFinish t)).
      split; [reflexivity|]. right. by eexists. }
  destruct (crawler.Crawl E fuel (crawler.New (config.MaxDepth cfg)) startURL) as [r|r|];
    [|done|done].
  destruct timedOut; intros [= <- <-].
  - exists (failedWith (held w) "Job timed out" (atFinish t)).
    split; [reflexivity|]. right. by eexists.
  - eexists (completed (held w) _ _ crawlTime (atFinish t)).
    split; [reflexivity|]. left. by do 2 eexists.
Qed.

End WorkerFacts.

Section WorkerExtras.
Import jobs pool.

(** X12.  Whatever path [processJob] takes, when it returns the job is
    completed or failed with its completion time set, the store holds that
    record under the job's identifier, the identifier is out of the active
    set, the queue and the records of the other jobs are as before, and a
    job that failed has left the cache as it was. *)
Theorem processJob_finishes_the_job (Parse : string -> option url.URL) (E : crawler.Env)
    (fuel : nat) (cfg : config.Config) (endpoint : Z -> PostResult) (timedOut : bool)
    (t : Instants) (crawlTime parseError : string) (cm cm' : cache.CacheManager)
    (w w' : Worker) :
  processJob Parse E fuel cfg endpoint timedOut t crawlTime parseError cm w = Some (cm', w') ->
  ID (held w') = ID (held w) /\
  (Status (held w') = StatusCompleted \/ (Status (held w') = StatusFailed /\ cm' = cm)) /\
  CompletedAt (held w') = Some (atFinish t) /\
  GetJob (store w') (ID (held w)) = Ok (held w') /\
  (ID (held w) ∉ active (store w')) /\
  queue (store w') = queue (store w) /\
  (forall jobID, jobID <> ID (held w) -> GetJob (store w') jobID = GetJob (store w) jobID).
Proof.
  intros Hrun. destruct (processJob_cases _ _ _ _ _ _ _ _ _ _ _ _ _ Hrun) as (fin & -> & Hfin).
  destruct (sendWebhook_frame cfg endpoint (atSend t)
              {| store := SRem (UpdateJob (store w) fin) (ID fin); held := fin;
                 events := events w |}) as (-> & -> & _).
  cbn [store held].
  assert (Hid : ID fin = ID (held w)).
  { by destruct Hfin as [(emails & pagesVisited & ->)|(errorMsg & -> & _)]. }
  split; [done|]. split.
  { destruct Hfin as [(emails & pagesVisited & ->)|(errorMsg & -> & ->)]; [by left|by right]. }
  split.
  { by destruct Hfin as [(emails & pagesVisited & ->)|(errorMsg & -> & _)]. }
  split; [|split; [|split]].
  - apply GetJob_Ok. simpl. rewrite Hid. apply lookup_insert_eq.
  - simpl. rewrite Hid, elem_of_difference, elem_of_singleton. by intros [_ ?].
  - done.
  - intros jobID Hne. unfold GetJob. simpl. rewrite Hid.
    rewrite lookup_insert_ne; [done|]. intros Heq. by apply jobKey_inj in Heq.
Qed.

Lemma processJob_finishes_the_job_witness :
  GetJob (store (snd run0)) "j1" = Ok (held (snd run0)) /\
  ("j1" ∉ active (store (snd run0))).
Proof.
  destruct (processJob_finishes_the_job plain.Parse example.site 20 config.default
              example.alwaysFails false instants0 "1s" "" (example.emptyCache config.default)
              (fst run0) worker0 (snd run0)) as (_ & _ & _ & Hget & Hactive & _).
  - vm_compute. reflexivity.
  - split; [exact Hget|exact Hactive].
Defined.

(** X13.  The webhook reports the finished job: every post that
    [processJob] makes goes to the webhook URL of the job and carries the
    identifier, status, emails, page count, crawl time and error of the
    record that the store holds for the job when [processJob] returns. *)
Theorem webhook_reports_the_final_record (Parse : string -> option url.URL) (E : crawler.Env)
    (fuel : nat) (cfg : config.Config) (endpoint : Z -> PostResult) (timedOut : bool)
    (t : Instants) (crawlTime parseError : string) (cm cm' : cache.CacheManager)
    (w w' : Worker) :
  processJob Parse E fuel cfg endpoint timedOut t crawlTime parseError cm w = Some (cm', w') ->
  exists new stored,
    events w' = (events w ++ new)%list /\
    GetJob (store w') (ID (held w)) = Ok stored /\
    isTerminal (Status stored) = true /\
    allPostsCarry (WebhookURL (held w)) (payloadOf stored (atSend t)) new.
Proof.
  intros Hrun. destruct (processJob_cases _ _ _ _ _ _ _ _ _ _ _ _ _ Hrun) as (fin & -> & Hfin).
  destruct (sendWebhook_frame cfg endpoint (atSend t)
              {| store := SRem (UpdateJob (store w) fin) (ID fin); held := fin;
                 events := events w |}) as (Hstore & _ & _).
  destruct (sendWebhook_posts cfg endpoint (atSend t)
              {| store := SRem (UpdateJob (store w) fin) (ID fin); held := fin;
                 events := events w |}) as (new & Hev & Hall).
  exists new, fin. rewrite Hstore. cbn [store held events] in *.
  assert (Hid : ID fin = ID (held w) /\ WebhookURL fin = WebhookURL (held w) /\
                isTerminal (Status fin) = true).
  { by destruct Hfin as [(emails & pagesVisited & ->)|(errorMsg & -> & _)]. }
  destruct Hid as (Hid & Hurl & Hterm).
  split; [done|]. split; [|split; [done|by rewrite <- Hurl]].
  apply GetJob_Ok. simpl. rewrite Hid. apply lookup_insert_eq.
Qed.

Lemma webhook_reports_the_final_record_witness :
  exists new stored,
    events (snd run0) = new /\
    GetJob (store (snd run0)) "j1" = Ok stored /\
    isTerminal (Status stored) = true /\
    allPostsCarry "http://hooks.example/cb" (payloadOf stored 102) new.
Proof.
  apply (webhook_reports_the_final_record plain.Parse example.site 20 config.default
           example.alwaysFails false instants0 "1s" "" (example.emptyCache config.default)
           (fst run0) worker0 (snd run0)).
  vm_compute. reflexivity.
Defined.

(** X14.  A scan that completed is not crawled again: with the cache
    enabled, once [processJob] has completed a job, [processJob] on a job
    whose URL gets the same cache key completes it with the same emails and
    page count, taken from the cache, whatever the site serves by then, and
    leaves the cache as it is. *)
Theorem completed_scan_is_served_from_cache (Parse : string -> option url.URL)
    (E E' : crawler.Env) (fuel fuel' : nat) (cfg cfg' : config.Config)
    (endpoint endpoint' : Z -> PostResult) (timedOut timedOut' : bool) (t t' : Instants)
    (crawlTime parseError crawlTime' parseError' : string)
    (cm cm1 : cache.CacheManager) (w w1 w2 : Worker) :
  cache.enabled cm = true ->
  processJob Parse E fuel cfg endpoint timedOut t crawlTime parseError cm w = Some (cm1, w1) ->
  Status (held w1) = StatusCompleted ->
  cache.generateKey Parse (URL (held w2)) = cache.generateKey Parse (URL (held w)) ->
  exists w3,
    processJob Parse E' fuel' cfg' endpoint' timedOut' t' crawlTime' parseError' cm1 w2
      = Some (cm1, w3) /\
    Status (held w3) = StatusCompleted /\
    Emails (held w3) = Emails (held w1) /\
    PagesVisited (held w3) = PagesVisited (held w1).
Proof.
  intros Hon Hrun Hdone Hkey.
  assert (Hhit : exists cached,
            cache.Get Parse cm1 (URL (held w2)) = Some cached /\
            cache.Emails cached = Emails (held w1) /\
            cache.PagesVisited (cache.Info cached) = PagesVisited (held w1)).
  { revert Hrun. unfold processJob, CompleteJob, FailJob. cbv beta iota zeta.
    destruct (cache.Get Parse cm (URL (held w))) as [cachedResult|] eqn:Hget.
    { intros [= <- <-]. exists cachedResult. split.
      - revert Hget. unfold cache.Get. by rewrite Hkey.
      - match goal with
        | |- context [sendWebhook ?c ?e ?n ?x] =>
            destruct (sendWebhook_frame c e n x) as (_ & -> & _)
        end. done. }
    destruct (Parse (URL (held w))) as [startURL|].
    2:{ intros [= <- <-]. revert Hdone.
        match goal with
        | |- context [sendWebhook ?c ?e ?n ?x] =>
            destruct (sendWebhook_frame c e n x) as (_ & -> & _)
        end. done. }
    destruct (crawler.Crawl E fuel (crawler.New (config.MaxDepth cfg)) startURL) as [r|r|];
      [|done|done].
    destruct timedOut; intros [= <- <-].
    - revert Hdone.
      match goal with
      | |- context [sendWebhook ?c ?e ?n ?x] =>
          destruct (sendWebhook_frame c e n x) as (_ & -> & _)
      end. done.
    - eexists. split; [by apply Get_Set_|].
      match goal with
      | |- context [sendWebhook ?c ?e ?n ?x] =>
          destruct (sendWebhook_frame c e n x) as (_ & -> & _)
      end.
      cbn [held completed Emails PagesVisited cache.Emails cache.Info cache.PagesVisited].
      split; [|done]. unfold cache.Set_. by rewrite Hon. }
  destruct Hhit as (cached & Hget & Hemails & Hpages).
  unfold processJob. rewrite Hget. unfold CompleteJob. cbv beta iota zeta.
  eexists. split; [reflexivity|].
  match goal with
  | |- context [sendWebhook ?c ?e ?n ?x] =>
      destruct (sendWebhook_frame c e n x) as (_ & -> & _)
  end.
  done.
Qed.

Lemma completed_scan_is_served_from_cache_witness :
  exists w3,
    processJob plain.Parse example.site 0 config.default example.alwaysFails false instants0
      "0s" "" (fst run0) worker1 = Some (fst run0, w3) /\
    Status (held w3) = StatusCompleted /\
    Emails (held w3) = Emails (held (snd run0)) /\
    PagesVisited (held w3) = PagesVisited (held (snd run0)).
Proof.
  apply (completed_scan_is_served_from_cache plain.Parse example.site example.site 20 0
           config.default config.default example.alwaysFails example.alwaysFails false false
           instants0 instants0 "1s" "" "0s" "" (example.emptyCache config.default)
           (fst run0) worker0 (snd run0) worker1).
  - reflexivity.
  - vm_compute. reflexivity.
  - vm_compute. reflexivity.
  - vm_compute. reflexivity.
Defined.



(** X22.  The page count of a job is a count of emails.  When
    [processJob] completes a job after a crawl, the [PagesVisited] of the
    job, of its webhook payload and, with the cache enabled, of the cache
    entry is the number of distinct emails the crawl found, whatever the
    number of pages fetched. *)
Theorem pages_visited_counts_emails (Parse : string -> option url.URL) (E : crawler.Env)
    (fuel : nat) (cfg : config.Config) (endpoint : Z -> PostResult) (t : Instants)
    (crawlTime parseError : string) (cm : cache.CacheManager) (w : Worker)
    (startURL : url.URL) (r : crawler.Run) :
  cache.Get Parse cm (URL (held w)) = None ->
  Parse (URL (held w)) = Some startURL ->
  crawler.Crawl E fuel (crawler.New (config.MaxDepth cfg)) startURL = crawler.Returned r ->
  exists cm' w',
    processJob Parse E fuel cfg endpoint false t crawlTime parseError cm w = Some (cm', w') /\
    Status (held w') = StatusCompleted /\
    PagesVisited (held w') = Z.of_nat (size (crawler.emails (crawler.self r))) /\
    pPagesVisited (payloadOf (held w') (atSend t))
      = Z.of_nat (size (crawler.emails (crawler.self r))) /\
    (cache.enabled cm = true ->
     exists cached,
       cache.Get Parse cm' (URL (held w)) = Some cached /\
       cache.PagesVisited (cache.Info cached)
         = Z.of_nat (size (crawler.emails (crawler.self r)))).
Proof.
  intros Hmiss Hparse Hrun. unfold processJob. rewrite Hmiss, Hparse, Hrun.
  unfold CompleteJob. cbv beta iota zeta. do 2 eexists. split; [reflexivity|].
  match goal with
  | |- context [sendWebhook ?c ?e ?n ?x] =>
      destruct (sendWebhook_frame c e n x) as (_ & -> & _)
  end.
  split; [done|]. split; [done|]. split; [done|].
  intros Hon. eexists. split; [by apply Get_Set_|]. done.
Qed.

Lemma pages_visited_counts_emails_witness :
  (exists cm' w',
     processJob plain.Parse example.site 20 config.default example.alwaysFails false instants0
       "1s" "" (example.emptyCache config.default) worker0 = Some (cm', w') /\
     PagesVisited (held w') = Z.of_nat (size (crawler.emails (crawler.self crawl0)))) /\
  (size (crawler.emails (crawler.self crawl0)) < length (crawler.fetched crawl0))%nat.
Proof.
  split.
  - destruct (pages_visited_counts_emails plain.Parse example.site 20 config.default
                example.alwaysFails instants0 "1s" "" (example.emptyCache config.default)
                worker0 example.root crawl0) as (cm' & w' & Hrun & _ & Hpages & _).
    + vm_compute. reflexivity.
    + vm_compute. reflexivity.
    + vm_compute. reflexivity.
    + exists cm', w'. split; [exact Hrun|exact Hpages].
  - by_computing.
Defined.

End WorkerExtras.

(** * The HTTP handlers. *)
Section HandlerFacts.
Import handler.

Lemma TrimPrefix_app (pre s : string) : TrimPrefix (pre +:+ s) pre = s.
Proof.
  unfold TrimPrefix, strings.HasPrefix.
  rewrite (proj2 (prefix_spec pre (pre +:+ s))) by (by exists s).
  induction pre as [|c pre IH]; simpl; [by destruct s|done].
Qed.

Lemma app_longer (pre s : string) : pre <> "" -> pre +:+ s <> s.
Proof.
  intros Hne Heq. apply (f_equal String.length) in Heq.
  rewrite string_length_app in Heq. destruct pre; [done|]. simpl in Heq. lia.
Qed.

Lemma withScheme_prefix (queryURL : string) :
  strings.HasPrefix (withScheme queryURL) "http://" = true \/
  strings.HasPrefix (withScheme queryURL) "https://" = true.
Proof.
  unfold withScheme.
  destruct (strings.HasPrefix queryURL "http://") eqn:Hhttp; simpl; [by left|].
  destruct (strings.HasPrefix queryURL "https://") eqn:Hhttps; simpl; [by right|].
  right. unfold strings.HasPrefix. apply prefix_spec. by exists queryURL.
Qed.

Lemma withScheme_idemp (queryURL : string) : withScheme (withScheme queryURL) = withScheme queryURL.
Proof.
  destruct (withScheme_prefix queryURL) as [H|H]; unfold withScheme at 1; rewrite H; simpl;
    [done|by rewrite andb_false_r].
Qed.

(** The path of [ScanHandler] through the crawl. *)
Lemma ScanHandler_crawled (Parse : string -> option url.URL) (E : crawler.Env) (fuel : nat)
    (ranged : gset string -> list string) (cfg : config.Config) (now : Z) (crawlTime : string)
    (cm cm' : cache.CacheManager) (queryURL : string) (status : Z) (resp : ScanResponse) :
  ScanHandler Parse E fuel ranged cfg now crawlTime cm queryURL = Some (status, resp, cm') ->
  status = 200 ->
  FromCache resp = false ->
  exists startURL r,
    Parse (withScheme queryURL) = Some startURL /\
    crawler.Crawl E fuel (crawler.New (config.MaxDepth cfg)) startURL = crawler.Returned r /\
    Emails resp =
      cache.DeduplicateEmails (cache.config cm) (ranged (crawler.emails (crawler.self r))) /\
    cm' = cache.Set_ Parse cm (withScheme queryURL) (ranged (crawler.emails (crawler.self r)))
            (config.MaxDepth cfg) (Z.of_nat (size (crawler.emails (crawler.self r)))) now.
Proof.
  unfold ScanHandler.
  destruct (String.eqb queryURL "") eqn:Hempty; [by intros [= <- <- <-]|].
  cbv zeta.
  destruct (Parse (withScheme queryURL)) as [startURL|] eqn:Hparse; [|by intros [= <- <- <-]].
  destruct (negb (String.eqb (url.Scheme startURL) "http")
            && negb (String.eqb (url.Scheme startURL) "https")) eqn:Hscheme;
    [by intros [= <- <- <-]|].
  destruct (cache.Get Parse cm (withScheme queryURL)) as [cachedResult|] eqn:Hget;
    [by intros [= <- <- <-]|].
  destruct (crawler.Crawl E fuel (crawler.New (config.MaxDepth cfg)) startURL) as [r|r|] eqn:Hrun;
    [|done|done].
  intros [= <- <- <-] _ _. exists startURL, r. split; [done|]. split; [done|]. split; [|done].
  destruct (cache.enabled cm) eqn:Hon.
  - by rewrite (Get_Set_ Parse cm (withScheme queryURL) (withScheme queryURL)) by done.
  - assert (Hoff : cache.Set_ Parse cm (withScheme queryURL)
                     (ranged (crawler.emails (crawler.self r))) (config.MaxDepth cfg)
                     (Z.of_nat (size (crawler.emails (crawler.self r)))) now = cm)
      by (unfold cache.Set_; by rewrite Hon).
    by rewrite Hoff, Hget.
Qed.

End HandlerFacts.

Section HandlerExtras.
Import handler.

(** X16.  A scan that [ScanHandler] answers after a crawl carries the
    emails of the crawl as [DeduplicateEmails] returns them, with the cache
    enabled (read back from the entry just written) or disabled (through the
    fallback).  With the cache enabled, the same request is then answered
    from the cache, with the same emails and without a crawl, whatever the
    site serves by then. *)
Theorem scan_answers_with_deduplicated_emails (Parse : string -> option url.URL)
    (E : crawler.Env) (fuel : nat) (ranged : gset string -> list string) (cfg : config.Config)
    (now : Z) (crawlTime : string) (cm cm' : cache.CacheManager) (queryURL : string)
    (status : Z) (resp : ScanResponse) :
  ScanHandler Parse E fuel ranged cfg now crawlTime cm queryURL = Some (status, resp, cm') ->
  status = 200 ->
  FromCache resp = false ->
  exists startURL r,
    Parse (withScheme queryURL) = Some startURL /\
    crawler.Crawl E fuel (crawler.New (config.MaxDepth cfg)) startURL = crawler.Returned r /\
    Emails resp =
      cache.DeduplicateEmails (cache.config cm) (ranged (crawler.emails (crawler.self r))) /\
    (cache.enabled cm = true ->
     forall E' fuel' ranged' now' crawlTime',
       ScanHandler Parse E' fuel' ranged' cfg now' crawlTime' cm' queryURL =
       Some (200, {| Emails := Emails resp; Error := ""; FromCache := true;
                     CrawlTime := crawlTime' |}, cm')).
Proof.
  intros Hscan Hstatus Hfresh.
  destruct (ScanHandler_crawled _ _ _ _ _ _ _ _ _ _ _ _ Hscan Hstatus Hfresh)
    as (startURL & r & Hparse & Hrun & Hemails & ->).
  exists startURL, r. split; [done|]. split; [done|]. split; [done|].
  intros Hon E' fuel' ranged' now' crawlTime'.
  revert Hscan. unfold ScanHandler.
  destruct (String.eqb queryURL "") eqn:Hempty; [by intros [= <- <- <-]; subst|].
  cbv zeta. rewrite Hparse.
  destruct (negb (String.eqb (url.Scheme startURL) "http")
            && negb (String.eqb (url.Scheme startURL) "https")) eqn:Hscheme;
    [by intros [= <- <- <-]; subst|].
  intros _.
  rewrite (Get_Set_ Parse cm (withScheme queryURL) (withScheme queryURL)) by done.
  cbn [cache.Emails]. by rewrite Hemails.
Qed.

Lemma scan_answers_with_deduplicated_emails_witness :
  Emails (snd (fst scan0)) = ["bob@a.com"; "info@a.com"] /\
  ScanHandler plain.Parse example.site 0 elements config.default 200 "0s" (snd scan0)
    "http://a.com/"
  = Some (200, {| Emails := Emails (snd (fst scan0)); Error := ""; FromCache := true;
                  CrawlTime := "0s" |}, snd scan0).
Proof.
  destruct (scan_answers_with_deduplicated_emails plain.Parse example.site 20 elements
              config.default 100 "1s" (example.emptyCache config.default) (snd scan0)
              "http://a.com/" (fst (fst scan0)) (snd (fst scan0)))
    as (startURL & r & _ & _ & _ & Hagain).
  - vm_compute. reflexivity.
  - vm_compute. reflexivity.
  - vm_compute. reflexivity.
  - split; [vm_compute; reflexivity|]. by apply Hagain.
Defined.

(** X17.  [AsyncScanHandler] changes the job store only when it answers
    202.  Then one job has been queued under the identifier drawn, with a
    webhook URL that is not empty and a URL that starts with ["http://"] or
    ["https://"] and parses, the queue is one longer, and
    [JobStatusHandler] on the [check_status_url] of the response answers 200
    with that job. *)
Theorem async_scan_queues_a_job_that_status_finds (Parse : string -> option url.URL)
    (asyncEnabled : bool) (method : string) (body : RequestBody) (jobID : string) (now : Z)
    (q q' : jobs.Queue) (status : Z) (reply : string + AsyncScanResponse) :
  jobID <> "" ->
  AsyncScanHandler Parse asyncEnabled method body jobID now q = (status, reply, q') ->
  (status <> 202 -> q' = q) /\
  (status = 202 ->
   exists resp job,
     reply = inr resp /\
     JobID resp = jobID /\
     JobStatusHandler asyncEnabled (CheckStatusURL resp) q' = (200, inr job) /\
     jobs.ID job = jobID /\
     jobs.Status job = jobs.StatusQueued /\
     jobs.WebhookURL job <> "" /\
     (strings.HasPrefix (jobs.URL job) "http://" = true \/
      strings.HasPrefix (jobs.URL job) "https://" = true) /\
     is_Some (Parse (jobs.URL job)) /\
     jobs.GetQueueSize q' = jobs.GetQueueSize q + 1 /\
     jobID ∈ jobs.GetActiveJobs q').
Proof.
  intros Hid. unfold AsyncScanHandler.
  destruct asyncEnabled; simpl; [|by intros [= <- <- <-]].
  destruct (String.eqb method "POST"); simpl; [|by intros [= <- <- <-]].
  destruct body as [| |req]; [by intros [= <- <- <-]..|].
  destruct (String.eqb (jobs.reqURL req) ""); [by intros [= <- <- <-]|].
  destruct (String.eqb (jobs.reqWebhookURL req) "") eqn:Hhook; [by intros [= <- <- <-]|].
  destruct (Parse (withScheme (jobs.reqURL req))) as [parsed|] eqn:Hparse;
    [|by intros [= <- <- <-]].
  destruct (Parse (jobs.reqWebhookURL req)) as [hook|]; [|by intros [= <- <- <-]].
  intros [= <- <- <-]. split; [done|]. intros _.
  exists {| JobID := jobID; Status := jobs.StatusQueued; EstimatedTime := "30-60s";
            WebhookURL := jobs.reqWebhookURL req;
            CheckStatusURL := "/scan/status/" +:+ jobID |},
         (jobs.mkScanJob jobID (withScheme (jobs.reqURL req)) (jobs.reqWebhookURL req)
            (jobs.reqCallbackID req) jobs.StatusQueued now None None "" "" [] 0).
  split; [reflexivity|]. split; [reflexivity|]. cbn [CheckStatusURL jobs.ID].
  split; [|split; [reflexivity|split; [reflexivity|split; [|split; [|split; [|split]]]]]].
  - unfold JobStatusHandler. cbn [negb]. rewrite TrimPrefix_app.
    apply String.eqb_neq in Hid. rewrite Hid. cbn [orb].
    assert (Hlong : String.eqb jobID ("/scan/status/" +:+ jobID) = false).
    { apply String.eqb_neq. intros Heq. by apply (app_longer "/scan/status/" jobID). }
    rewrite Hlong. unfold jobs.GetJob. cbn [jobs.records]. by rewrite lookup_insert_eq.
  - cbn [jobs.WebhookURL]. by apply String.eqb_neq.
  - cbn [jobs.URL jobs.reqURL]. apply withScheme_prefix.
  - cbn [jobs.URL jobs.reqURL]. by rewrite Hparse.
  - unfold jobs.GetQueueSize. cbn [jobs.queue length]. lia.
  - unfold jobs.GetActiveJobs. cbn [jobs.active]. apply elem_of_union. left.
    by apply elem_of_singleton.
Qed.

Lemma async_scan_queues_a_job_that_status_finds_witness :
  exists resp job,
    fst (AsyncScanHandler plain.Parse true "POST" body0 "j1" 1 jobs.newQueue) = (202, inr resp) /\
    JobStatusHandler true (CheckStatusURL resp)
      (snd (AsyncScanHandler plain.Parse true "POST" body0 "j1" 1 jobs.newQueue))
    = (200, inr job) /\
    jobs.URL job = "https://a.com/".
Proof.
  destruct (async_scan_queues_a_job_that_status_finds plain.Parse true "POST" body0 "j1" 1
              jobs.newQueue
              (snd (AsyncScanHandler plain.Parse true "POST" body0 "j1" 1 jobs.newQueue))
              (fst (fst (AsyncScanHandler plain.Parse true "POST" body0 "j1" 1 jobs.newQueue)))
              (snd (fst (AsyncScanHandler plain.Parse true "POST" body0 "j1" 1 jobs.newQueue))))
    as [_ Hqueued].
  - discriminate.
  - reflexivity.
  - destruct Hqueued as (resp & job & Hreply & _ & Hstatus & _); [reflexivity|].
    exists resp, job. split; [|split; [done|]].
    + simpl in Hreply. simpl. by rewrite Hreply.
    + assert (Hjob : JobStatusHandler true (CheckStatusURL resp)
                       (snd (AsyncScanHandler plain.Parse true "POST" body0 "j1" 1 jobs.newQueue))
                     = (200, inr (jobs.mkScanJob "j1" "https://a.com/" "http://hooks.example/cb"
                                    "cb-7" jobs.StatusQueued 1 None None "" "" [] 0))).
      { simpl in Hreply. inversion Hreply; subst. vm_compute. reflexivity. }
      rewrite Hjob in Hstatus. by inversion Hstatus.
Defined.

(** X18.  In a system the program reaches, [CancelJobHandler] on
    [DELETE /scan/cancel/<id>] answers 200 exactly when the job has a record
    that is not processing, whether it is queued or already finished; then
    the record is cancelled and the job is neither in the queue nor in the
    active set.  On any other answer the store is as before. *)
Theorem cancel_handler_cancels_unless_processing (sys : jobs.System) (asyncEnabled : bool)
    (method : string) (jobID : string) (now : Z) (q' : jobs.Queue) (status : Z) (msg : string) :
  jobs.reachable sys ->
  jobID <> "" ->
  CancelJobHandler asyncEnabled method ("/scan/cancel/" +:+ jobID) now (jobs.sysQueue sys)
    = (status, msg, q') ->
  (status = 200 <->
   asyncEnabled = true /\ method = "DELETE" /\
   exists job, jobs.GetJob (jobs.sysQueue sys) jobID = jobs.Ok job /\
               jobs.Status job <> jobs.StatusProcessing) /\
  (status = 200 ->
   jobs.statusOf q' jobID = Some jobs.StatusCancelled /\
   (jobID ∉ jobs.queue q') /\
   (jobID ∉ jobs.active q')) /\
  (status <> 200 -> q' = jobs.sysQueue sys).
Proof.
  intros Hreach Hid. destruct (reachable_consistent sys Hreach) as (Hkey & _).
  unfold CancelJobHandler.
  destruct asyncEnabled; simpl.
  2:{ intros [= <- <- <-]. split; [|done]. split; [done|]. by intros (? & _). }
  destruct (String.eqb method "DELETE") eqn:Hmethod; simpl.
  2:{ intros [= <- <- <-]. apply String.eqb_neq in Hmethod.
      split; [|done]. split; [done|]. by intros (_ & ? & _). }
  apply String.eqb_eq in Hmethod. rewrite TrimPrefix_app.
  apply String.eqb_neq in Hid. rewrite Hid. cbn [orb].
  assert (Hlong : String.eqb jobID ("/scan/cancel/" +:+ jobID) = false).
  { apply String.eqb_neq. intros Heq. by apply (app_longer "/scan/cancel/" jobID). }
  rewrite Hlong.
  destruct (jobs.records (jobs.sysQueue sys) !! (jobs.JobKeyPrefix +:+ jobID)) as [job|] eqn:Hrec.
  - assert (Hget : jobs.GetJob (jobs.sysQueue sys) jobID = jobs.Ok job) by (by apply GetJob_Ok).
    destruct (decide (jobs.Status job = jobs.StatusProcessing)) as [Hproc|Hproc].
    + rewrite (CancelJob_processing _ jobID job now Hget Hproc). intros [= <- <- <-].
      split; [|done]. split; [done|]. intros (_ & _ & job' & Hget' & Hs). congruence.
    + rewrite (CancelJob_other _ jobID job now Hget Hproc). intros [= <- <- <-].
      pose proof (Hkey _ _ Hrec) as Hown. apply jobKey_inj in Hown.
      split; [|split; [|done]].
      * split; [|done]. intros _. split; [done|]. split; [done|]. by exists job.
      * intros _. split; [|split].
        -- unfold jobs.statusOf. simpl. rewrite <- Hown. by rewrite lookup_insert_eq.
        -- simpl. intros [Hne _]%list_elem_of_filter. by apply Hne.
        -- simpl. rewrite elem_of_difference, elem_of_singleton. by intros [_ ?].
  - rewrite (CancelJob_missing _ jobID now Hrec). intros [= <- <- <-].
    split; [|done]. split; [done|]. intros (_ & _ & job' & Hget' & _).
    apply GetJob_Ok in Hget'. congruence.
Qed.

Lemma cancel_handler_cancels_unless_processing_witness :
  jobs.statusOf
    (snd (CancelJobHandler true "DELETE" "/scan/cancel/j1" 3
            (jobs.sysQueue jobstats.afterEnqueue))) "j1"
  = Some jobs.StatusCancelled.
Proof.
  destruct (cancel_handler_cancels_unless_processing jobstats.afterEnqueue true "DELETE" "j1" 3
              (snd (CancelJobHandler true "DELETE" "/scan/cancel/j1" 3
                      (jobs.sysQueue jobstats.afterEnqueue)))
              200 "Job cancelled" reachable_afterEnqueue) as (_ & Hcancelled & _).
  - discriminate.
  - vm_compute. reflexivity.
  - by destruct Hcancelled as [Hs _].
Defined.

(** X19.  [InvalidateCacheHandler] changes the cache on [DELETE] only.
    Without a URL it clears the cache: every [Get] misses afterwards.  With
    a URL it removes the entry of that URL and of every URL with the same
    cache key, and [Get] answers as before for the others. *)
Theorem invalidate_handler_removes_the_entry (Parse : string -> option url.URL)
    (method queryURL : string) (cm : cache.CacheManager) :
  let status := fst (InvalidateCacheHandler Parse method queryURL cm) in
  let cm' := snd (InvalidateCacheHandler Parse method queryURL cm) in
  (method <> "DELETE" -> status = 405 /\ cm' = cm) /\
  (method = "DELETE" ->
   status = 200 /\
   (queryURL = "" -> forall rawURL, cache.Get Parse cm' rawURL = None) /\
   (queryURL <> "" ->
    forall rawURL,
      cache.Get Parse cm' rawURL =
      if decide (cache.generateKey Parse rawURL = cache.generateKey Parse queryURL) then None
      else cache.Get Parse cm rawURL)).
Proof.
  intros status cm'. subst status cm'. unfold InvalidateCacheHandler. split.
  - intros Hm. apply String.eqb_neq in Hm. by rewrite Hm.
  - intros ->. rewrite String.eqb_refl. cbn [negb].
    destruct (String.eqb queryURL "") eqn:Hq.
    + split; [done|]. split; [|by apply String.eqb_eq in Hq].
      intros _ rawURL. apply Get_ClearAll.
    + split; [done|]. split; [by apply String.eqb_neq in Hq|].
      intros _ rawURL. cbn [snd]. unfold cache.Get, cache.InvalidateURL.
      destruct (cache.enabled cm) eqn:Hon; simpl; [|by rewrite Hon; case_decide].
      rewrite lookup_delete.
      destruct (decide (cache.generateKey Parse queryURL = cache.generateKey Parse rawURL))
        as [Heq|Hne].
      * by rewrite decide_True.
      * by rewrite decide_False.
Qed.

Lemma invalidate_handler_removes_the_entry_witness :
  cache.Get plain.Parse
    (snd (InvalidateCacheHandler plain.Parse "DELETE" "HTTP://A.com" cacheadmin.cache1))
    "http://a.com/" = None.
Proof.
  destruct (invalidate_handler_removes_the_entry plain.Parse "DELETE" "HTTP://A.com"
              cacheadmin.cache1) as [_ Hdelete].
  destruct (Hdelete eq_refl) as (_ & _ & Hurl).
  rewrite Hurl by discriminate. apply decide_True. vm_compute. reflexivity.
Defined.

(** X20.  What a scan returns, from end to end.  With the deduplication
    setting on, the emails in the answer of [ScanHandler] after a crawl are
    exactly the matches of the email pattern on the pages fetched with
    status 200 on the host of the URL and not left by a meta refresh, in
    lower case and trimmed, those that are empty left out; they are sorted
    and none occurs twice, in whatever order Go ranges over the map. *)
Theorem scan_reports_the_emails_of_the_fetched_pages (Parse : string -> option url.URL)
    (E : crawler.Env) (fuel : nat) (ranged : gset string -> list string) (cfg : config.Config)
    (now : Z) (crawlTime : string) (cm cm' : cache.CacheManager) (queryURL : string)
    (status : Z) (resp : ScanResponse) :
  (forall s, ranged s ≡ₚ elements s) ->
  config.DeduplicateEmails (cache.config cm) = true ->
  ScanHandler Parse E fuel ranged cfg now crawlTime cm queryURL = Some (status, resp, cm') ->
  status = 200 ->
  FromCache resp = false ->
  exists startURL r,
    Parse (withScheme queryURL) = Some startURL /\
    crawler.Crawl E fuel (crawler.New (config.MaxDepth cfg)) startURL = crawler.Returned r /\
    (forall e, e ∈ Emails resp <->
               e <> "" /\ exists x, site.scanned E startURL r x /\ e = strings.TrimSpace x) /\
    Sorted String.le (Emails resp) /\
    NoDup (Emails resp).
Proof.
  intros Hranged Hdedup Hscan Hstatus Hfresh.
  destruct (ScanHandler_crawled _ _ _ _ _ _ _ _ _ _ _ _ Hscan Hstatus Hfresh)
    as (startURL & r & Hparse & Hrun & -> & _).
  exists startURL, r. split; [done|]. split; [done|].
  destruct (DeduplicateEmails_spec (cache.config cm)
              (ranged (crawler.emails (crawler.self r))) Hdedup) as (Hin & Hsorted & Hnodup).
  split; [|done].
  destruct (Crawl_emailsScanned E fuel (config.MaxDepth cfg) startURL r Hrun) as [_ Hfound].
  intros e. rewrite Hin. split.
  - intros (Hne & x & Hx & ->). split; [done|]. exists x.
    rewrite Hranged, elem_of_elements, Hfound in Hx. split; [done|].
    by rewrite (scanned_lower E startURL r x).
  - intros (Hne & x & Hx & ->). split; [done|]. exists x. split.
    + rewrite Hranged, elem_of_elements. by apply Hfound.
    + by rewrite (scanned_lower E startURL r x).
Qed.

Lemma scan_reports_the_emails_of_the_fetched_pages_witness :
  Sorted String.le (Emails (snd (fst scan0))) /\ NoDup (Emails (snd (fst scan0))).
Proof.
  destruct (scan_reports_the_emails_of_the_fetched_pages plain.Parse example.site 20 elements
              config.default 100 "1s" (example.emptyCache config.default) (snd scan0)
              "http://a.com/" (fst (fst scan0)) (snd (fst scan0)))
    as (startURL & r & _ & _ & _ & Hsorted & Hnodup).
  - done.
  - reflexivity.
  - vm_compute. reflexivity.
  - vm_compute. reflexivity.
  - vm_compute. reflexivity.
  - by split.
Defined.

End HandlerExtras.
